(** * Result plans of SILGen (lib/SILGen/ResultPlan.cpp)

    A shallow embedding of the result-plan builder and of the [finish]
    method of the six plan classes, with the builder's queue of result
    descriptors, its list of indirect-result addresses, the cursor over
    the direct results and the operations performed on the collaborators
    (initializations, temporaries, reabstraction) made explicit. *)

From Stdlib Require Import List Arith Bool Lia.
Import ListNotations.

Set Implicit Arguments.
Set Warnings "-register-all".

(** ** Outcomes and the state monad

    The C++ code mutates the builder and the [directResults] cursor and
    stops at a failed [assert], [cast<>] or out-of-range access.  A run
    either returns, aborts on one of these checks, or runs out of the
    fuel that bounds the builder's recursion. *)

Inductive Defect : Type :=
| BadCastToTupleType        (* cast<TupleType>(substType) on a non-tuple *)
| EmptyAllResults           (* allResults.front() on an empty ArrayRef *)
| EmptyDirectResults        (* directResults.front() on an empty ArrayRef *)
| TupleElementOutOfRange    (* origType.getTupleElementType(i) past the end *)
| EltInitOutOfRange         (* eltInits[i] past the end *)
| EltPlansSizeMismatch      (* assert(size() == eltPlans.size()) *)
| SubPlanNotUsed.           (* assert(subResult.isUsed()) / assert(eltRV.isUsed()) *)

Inductive Outcome (A : Type) : Type :=
| Done (a : A)
| Abort (d : Defect)
| OutOfFuel.

Arguments Done {A} a.
Arguments Abort {A} d.
Arguments OutOfFuel {A}.

Definition M (St A : Type) : Type := St -> Outcome (A * St).

Definition ret {St A : Type} (a : A) : M St A := fun s => Done (a, s).

Definition bind {St A B : Type} (m : M St A) (k : A -> M St B) : M St B :=
  fun s =>
    match m s with
    | Done (a, s') => k a s'
    | Abort d => Abort d
    | OutOfFuel => OutOfFuel
    end.

Definition abort {St A : Type} (d : Defect) : M St A := fun _ => Abort d.

Definition outOfFuel {St A : Type} : M St A := fun _ => OutOfFuel.

Declare Scope monad_scope.
Delimit Scope monad_scope with monad.
Notation "x <- m ;; k" := (bind m (fun x => k))
  (at level 61, m at next level, right associativity) : monad_scope.
Notation "m ;;; k" := (bind m (fun _ => k))
  (at level 61, right associativity) : monad_scope.
Open Scope monad_scope.

(** ** Data model *)

(** Substituted (formal) types: a nominal type or a tuple. *)
Inductive CanType : Type :=
| NominalType (name : nat)
| TupleType (elts : list CanType).

(** Abstraction patterns: only the tuple shape is consulted. *)
Inductive AbstractionPattern : Type :=
| OpaquePattern (name : nat)
| TuplePattern (elts : list AbstractionPattern).

Definition isTuple (origType : AbstractionPattern) : bool :=
  match origType with
  | TuplePattern _ => true
  | OpaquePattern _ => false
  end.

Definition getTupleElementType (origType : AbstractionPattern) (i : nat)
  : option AbstractionPattern :=
  match origType with
  | TuplePattern elts => nth_error elts i
  | OpaquePattern _ => None
  end.

(** [cast<TupleType>(substType)]. *)
Definition castTupleType (substType : CanType) : option (list CanType) :=
  match substType with
  | TupleType elts => Some elts
  | NominalType _ => None
  end.

Definition SILType : Type := nat.

Record SILValue : Type := mkSILValue {
  valueId : nat;
  valueType : SILType
}.

Record ManagedValue : Type := mkManagedValue {
  mvValue : SILValue;
  isInContext : bool
}.

Definition getType (v : ManagedValue) : SILType := valueType (mvValue v).

Record TypeLowering : Type := mkTypeLowering {
  getLoweredType : SILType;
  isAddressOnly : bool
}.

(** A result descriptor of the callee's signature. *)
Record SILResultInfo : Type := mkSILResultInfo {
  resultType : CanType;
  isSILIndirect : bool;
  getSILStorageType : SILType
}.

Definition SILFunctionTypeRepresentation : Type := nat.

Inductive SILFunctionLanguage : Type := LangSwift | LangC.

(** An initialization, with the capabilities the plans use: its address
    for in-place initialization (if any), whether it can be split into
    tuple elements, and the element initializations a split gives. *)
Inductive Initialization : Type :=
| mkInitialization (initId : nat)
                   (inPlaceAddr : option SILValue)
                   (canSplit : bool)
                   (eltInits : list Initialization).

Definition initId (init : Initialization) : nat :=
  match init with mkInitialization i _ _ _ => i end.

Definition getAddressForInPlaceInitialization (init : Initialization)
  : option SILValue :=
  match init with mkInitialization _ a _ _ => a end.

Definition canSplitIntoTupleElements (init : Initialization) : bool :=
  match init with mkInitialization _ _ c _ => c end.

Definition splitIntoTupleElements (init : Initialization)
  : list Initialization :=
  match init with mkInitialization _ _ _ es => es end.

(** A temporary is an initialization together with its buffer address. *)
Record TemporaryInitialization : Type := mkTemporary {
  getAddress : SILValue;
  asInitialization : Initialization
}.

Definition getManagedAddress (t : TemporaryInitialization) : ManagedValue :=
  mkManagedValue (getAddress t) false.

(** Modelled from the spec: RValue.h is not part of the sources.  An
    r-value holds zero values or one value per leaf and a marker that
    records whether it has been used. *)
Record RValue : Type := mkRValue {
  rvValues : list ManagedValue;
  rvType : option CanType;
  isUsed : bool
}.

(** [RValue()]: the empty, used r-value. *)
Definition RValue_used : RValue := mkRValue [] None true.

(** [RValue(substType)]: a tuple r-value whose elements are still to be
    added. *)
Definition RValue_ofType (substType : CanType) : RValue :=
  mkRValue [] (Some substType) false.

(** [RValue(SGF, loc, substType, value)]. *)
Definition RValue_ofValue (substType : CanType) (value : ManagedValue)
  : RValue :=
  mkRValue [value] (Some substType) false.

Definition addElement (rv elt : RValue) : RValue :=
  mkRValue (rvValues rv ++ rvValues elt) (rvType rv) (isUsed rv).

(** The plan nodes. *)
Inductive ResultPlan : Type :=
| InPlaceInitializationResultPlan (init : Initialization)
| ScalarResultPlan (temporary : option TemporaryInitialization)
                   (origType : AbstractionPattern)
                   (init : option Initialization)
                   (rep : SILFunctionTypeRepresentation)
| InitValueFromTemporaryResultPlan (init : Initialization)
                                   (subPlan : ResultPlan)
                                   (temporary : TemporaryInitialization)
| InitValueFromRValueResultPlan (init : Initialization)
                                (subPlan : ResultPlan)
| TupleRValueResultPlan (eltPlans : list ResultPlan)
| TupleInitializationResultPlan (tupleInit : Initialization)
                                (eltInits : list Initialization)
                                (eltPlans : list ResultPlan).

(** The services of [SILGenFunction] (and of the SIL type system) that
    the plans call; their implementations are outside this file. *)
Record SILGenFunction : Type := mkSGF {
  getTypeLowering : CanType -> TypeLowering;
  hasAbstractionDifference :
    SILType -> SILFunctionTypeRepresentation -> SILType -> bool;
  getSILFunctionLanguage :
    SILFunctionTypeRepresentation -> SILFunctionLanguage;
  (* the n-th temporary emitted for a lowering *)
  emitTemporary : nat -> TypeLowering -> TemporaryInitialization;
  emitLoadTake : TypeLowering -> ManagedValue -> ManagedValue;
  emitBridgedToNativeValue :
    ManagedValue -> SILFunctionTypeRepresentation -> CanType -> ManagedValue;
  emitOrigToSubstValue :
    ManagedValue -> AbstractionPattern -> CanType ->
    option Initialization -> ManagedValue;
  getAsSingleValue : RValue -> ManagedValue
}.

(** The operations a run of [finish] performs, in order. *)
Inductive Event : Type :=
| EvFinishInitialization (init : nat)
| EvCopyOrInitValueInto (init : nat) (value : ManagedValue)
| EvLoad (address : ManagedValue)
| EvClaimDirectResult (origType : AbstractionPattern) (value : ManagedValue)
| EvBridgedToNative (value : ManagedValue)
| EvOrigToSubst (value : ManagedValue) (context : option nat)
| EvGetAsSingleValue (values : list ManagedValue).

(** ** The builder *)

Record BuilderState : Type := mkBuilderState {
  allResults : list SILResultInfo;
  indirectResultAddrs : list SILValue;
  temporaries : list TemporaryInitialization
}.

Definition Builder (A : Type) : Type := M BuilderState A.

(** [allResults.front()] followed by [allResults = allResults.slice(1)]. *)
Definition popResult : Builder SILResultInfo :=
  fun st =>
    match allResults st with
    | [] => Abort EmptyAllResults
    | result :: rest =>
        Done (result,
              mkBuilderState rest (indirectResultAddrs st) (temporaries st))
    end.

(** [indirectResultAddrs.push_back(addr)]. *)
Definition pushIndirectResultAddr (addr : SILValue) : Builder unit :=
  fun st =>
    Done (tt, mkBuilderState (allResults st)
                             (indirectResultAddrs st ++ [addr])
                             (temporaries st)).

(** The loop [for (auto i : indices(substType->getElementTypes()))]. *)
Fixpoint forEachElement {St A : Type} (body : nat -> CanType -> M St A)
         (i : nat) (elts : list CanType) : M St (list A) :=
  match elts with
  | [] => ret []
  | substEltType :: rest =>
      a <- body i substEltType ;;
      others <- forEachElement body (S i) rest ;;
      ret (a :: others)
  end.

Definition orAbort {St A : Type} (d : Defect) (o : option A) : M St A :=
  match o with
  | Some a => ret a
  | None => abort d
  end.

Section Builder.

Variable SGF : SILGenFunction.
Variable rep : SILFunctionTypeRepresentation.

(** [SGF.emitTemporary(loc, TL)]. *)
Definition emitTemporaryM (TL : TypeLowering)
  : Builder TemporaryInitialization :=
  fun st =>
    let temporary := emitTemporary SGF (length (temporaries st)) TL in
    Done (temporary,
          mkBuilderState (allResults st) (indirectResultAddrs st)
                         (temporaries st ++ [temporary])).

(** The non-tuple part of [ResultPlanBuilder::build], after the result
    descriptor has been taken from the queue. *)
Definition buildScalar (init : option Initialization)
           (origType : AbstractionPattern) (result : SILResultInfo)
  : Builder ResultPlan :=
  temporary <-
    (if isSILIndirect result then
       temporary <- emitTemporaryM (getTypeLowering SGF (resultType result)) ;;
       pushIndirectResultAddr (getAddress temporary) ;;;
       ret (Some temporary)
     else ret None) ;;
  ret (ScalarResultPlan temporary origType init rep).

Definition buildLeaf (init : option Initialization)
           (origType : AbstractionPattern) : Builder ResultPlan :=
  result <- popResult ;;
  match init with
  | Some i =>
      match getAddressForInPlaceInitialization i with
      | Some initAddr =>
          if isSILIndirect result &&
             negb (hasAbstractionDifference SGF (valueType initAddr) rep
                                            (getSILStorageType result))
          then
            pushIndirectResultAddr initAddr ;;;
            ret (InPlaceInitializationResultPlan i)
          else buildScalar init origType result
      | None => buildScalar init origType result
      end
  | None => buildScalar init origType result
  end.

(** [ResultPlanBuilder::build] and [ResultPlanBuilder::buildForTuple];
    the constructors of the two tuple plans are inlined. *)
Fixpoint build (fuel : nat) (init : option Initialization)
         (origType : AbstractionPattern) (substType : CanType)
         {struct fuel} : Builder ResultPlan :=
  match fuel with
  | 0 => outOfFuel
  | S fuel' =>
      if isTuple origType then
        substTuple <- orAbort BadCastToTupleType (castTupleType substType) ;;
        buildForTuple fuel' init origType substTuple
      else buildLeaf init origType
  end

with buildForTuple (fuel : nat) (init : option Initialization)
         (origType : AbstractionPattern) (substElts : list CanType)
         {struct fuel} : Builder ResultPlan :=
  match fuel with
  | 0 => outOfFuel
  | S fuel' =>
      match init with
      | None =>
          (* TupleRValueResultPlan *)
          eltPlans <-
            forEachElement
              (fun i substEltType =>
                 origEltType <- orAbort TupleElementOutOfRange
                                        (getTupleElementType origType i) ;;
                 build fuel' None origEltType substEltType)
              0 substElts ;;
          ret (TupleRValueResultPlan eltPlans)
      | Some tupleInit =>
          if canSplitIntoTupleElements tupleInit then
            (* TupleInitializationResultPlan *)
            let eltInits := splitIntoTupleElements tupleInit in
            eltPlans <-
              forEachElement
                (fun i substEltType =>
                   origEltType <- orAbort TupleElementOutOfRange
                                          (getTupleElementType origType i) ;;
                   eltInit <- orAbort EltInitOutOfRange
                                      (nth_error eltInits i) ;;
                   build fuel' (Some eltInit) origEltType substEltType)
                0 substElts ;;
            ret (TupleInitializationResultPlan tupleInit eltInits eltPlans)
          else
            let substTL := getTypeLowering SGF (TupleType substElts) in
            if isAddressOnly substTL then
              temporary <- emitTemporaryM substTL ;;
              subplan <- buildForTuple fuel'
                           (Some (asInitialization temporary))
                           origType substElts ;;
              ret (InitValueFromTemporaryResultPlan tupleInit subplan
                                                    temporary)
            else
              subplan <- buildForTuple fuel' None origType substElts ;;
              ret (InitValueFromRValueResultPlan tupleInit subplan)
      end
  end.

End Builder.

(** ** Finishing a plan *)

Record FinishState : Type := mkFinishState {
  directResults : list ManagedValue;
  emitted : list Event
}.

Definition Finisher (A : Type) : Type := M FinishState A.

Definition emit (e : Event) : Finisher unit :=
  fun st => Done (tt, mkFinishState (directResults st) (emitted st ++ [e])).

(** [assert(cond)]. *)
Definition assertM {St : Type} (cond : bool) (d : Defect) : M St unit :=
  if cond then ret tt else abort d.

(** [init->finishInitialization(SGF)]. *)
Definition finishInitialization (init : Initialization) : Finisher unit :=
  emit (EvFinishInitialization (initId init)).

(** [init->copyOrInitValueInto(SGF, loc, value, /*init*/ true)]. *)
Definition copyOrInitValueInto (init : Initialization) (value : ManagedValue)
  : Finisher unit :=
  emit (EvCopyOrInitValueInto (initId init) value).

(** [directResults.front()] followed by
    [directResults = directResults.slice(1)]; the trace records which
    plan (by its abstraction pattern) took which value. *)
Definition claimDirectResult (origType : AbstractionPattern)
  : Finisher ManagedValue :=
  fun st =>
    match directResults st with
    | [] => Abort EmptyDirectResults
    | value :: rest =>
        Done (value,
              mkFinishState rest
                (emitted st ++ [EvClaimDirectResult origType value]))
    end.

Section FinishLoops.

Variable finishElt : ResultPlan -> CanType -> Finisher RValue.

(** The loop of [TupleRValueResultPlan::finish]; the sizes have been
    asserted equal, so [eltPlans[i]] is the i-th plan. *)
Fixpoint finishRValueElts (eltPlans : list ResultPlan)
         (eltTypes : list CanType) (tupleRV : RValue) : Finisher RValue :=
  match eltPlans, eltTypes with
  | eltPlan :: plans, eltType :: types =>
      eltRV <- finishElt eltPlan eltType ;;
      finishRValueElts plans types (addElement tupleRV eltRV)
  | _, _ => ret tupleRV
  end.

(** The loop of [TupleInitializationResultPlan::finish]. *)
Fixpoint finishInitElts (eltPlans : list ResultPlan)
         (eltTypes : list CanType) : Finisher unit :=
  match eltPlans, eltTypes with
  | eltPlan :: plans, eltType :: types =>
      eltRV <- finishElt eltPlan eltType ;;
      assertM (isUsed eltRV) SubPlanNotUsed ;;;
      finishInitElts plans types
  | _, _ => ret tt
  end.

End FinishLoops.

Section Finish.

Variable SGF : SILGenFunction.

(** [substTL.emitLoad(..., Take)] and [emitManagedRValueWithCleanup]. *)
Definition emitLoadM (substTL : TypeLowering) (address : ManagedValue)
  : Finisher ManagedValue :=
  emit (EvLoad address) ;;;
  ret (emitLoadTake SGF substTL address).

(** [SGF.emitBridgedToNativeValue(loc, value, rep, substType)]. *)
Definition emitBridgedToNativeValueM (value : ManagedValue)
           (rep : SILFunctionTypeRepresentation) (substType : CanType)
  : Finisher ManagedValue :=
  emit (EvBridgedToNative value) ;;;
  ret (emitBridgedToNativeValue SGF value rep substType).

(** Modelled from the spec: [SGF.emitOrigToSubstValue] with the context
    [SGFContext(init)], whose body is not part of the sources.  It
    returns the reabstracted value; when it reports that the value was
    emitted into the context, it has deposited the value into the
    destination and finalized it. *)
Definition emitOrigToSubstValueM (value : ManagedValue)
           (origType : AbstractionPattern) (substType : CanType)
           (init : option Initialization) : Finisher ManagedValue :=
  let result := emitOrigToSubstValue SGF value origType substType init in
  emit (EvOrigToSubst value (option_map initId init)) ;;;
  match init with
  | Some i =>
      if isInContext result then finishInitialization i else ret tt
  | None => ret tt
  end ;;;
  ret result.

(** [ScalarResultPlan::finish], first part: claim the value. *)
Definition claimValue (temporary : option TemporaryInitialization)
           (origType : AbstractionPattern) (substTL : TypeLowering)
  : Finisher ManagedValue :=
  match temporary with
  | Some t =>
      finishInitialization (asInitialization t) ;;;
      let value := getManagedAddress t in
      if negb (isAddressOnly substTL) then emitLoadM substTL value
      else ret value
  | None => claimDirectResult origType
  end.

(** [ScalarResultPlan::finish], last part: emit into the initialization
    if it exists, otherwise return the r-value. *)
Definition storeValue (init : option Initialization) (substType : CanType)
           (value : ManagedValue) : Finisher RValue :=
  match init with
  | Some i =>
      copyOrInitValueInto i value ;;;
      finishInitialization i ;;;
      ret RValue_used
  | None => ret (RValue_ofValue substType value)
  end.

(** [ScalarResultPlan::finish]. *)
Definition finishScalar (temporary : option TemporaryInitialization)
           (origType : AbstractionPattern) (init : option Initialization)
           (rep : SILFunctionTypeRepresentation) (substType : CanType)
  : Finisher RValue :=
  let substTL := getTypeLowering SGF substType in
  value <- claimValue temporary origType substTL ;;
  if hasAbstractionDifference SGF (getType value) rep
                              (getLoweredType substTL)
  then
    match getSILFunctionLanguage SGF rep with
    | LangC =>
        value <- emitBridgedToNativeValueM value rep substType ;;
        storeValue init substType value
    | LangSwift =>
        value <- emitOrigToSubstValueM value origType substType init ;;
        if isInContext value then ret RValue_used
        else storeValue init substType value
    end
  else storeValue init substType value.

(** The [finish] method of the six plans. *)
Fixpoint finish (plan : ResultPlan) (substType : CanType) {struct plan}
  : Finisher RValue :=
  match plan with
  | InPlaceInitializationResultPlan init =>
      finishInitialization init ;;;
      ret RValue_used
  | ScalarResultPlan temporary origType init rep =>
      finishScalar temporary origType init rep substType
  | InitValueFromTemporaryResultPlan init subPlan temporary =>
      subResult <- finish subPlan substType ;;
      assertM (isUsed subResult) SubPlanNotUsed ;;;
      let value := getManagedAddress temporary in
      copyOrInitValueInto init value ;;;
      finishInitialization init ;;;
      ret RValue_used
  | InitValueFromRValueResultPlan init subPlan =>
      subResult <- finish subPlan substType ;;
      emit (EvGetAsSingleValue (rvValues subResult)) ;;;
      let value := getAsSingleValue SGF subResult in
      copyOrInitValueInto init value ;;;
      finishInitialization init ;;;
      ret RValue_used
  | TupleRValueResultPlan eltPlans =>
      let tupleRV := RValue_ofType substType in
      substTupleType <- orAbort BadCastToTupleType
                                (castTupleType substType) ;;
      assertM (length substTupleType =? length eltPlans)
              EltPlansSizeMismatch ;;;
      finishRValueElts finish eltPlans substTupleType tupleRV
  | TupleInitializationResultPlan tupleInit _ eltPlans =>
      substTupleType <- orAbort BadCastToTupleType
                                (castTupleType substType) ;;
      assertM (length substTupleType =? length eltPlans)
              EltPlansSizeMismatch ;;;
      finishInitElts finish eltPlans substTupleType ;;;
      finishInitialization tupleInit ;;;
      ret RValue_used
  end.

End Finish.

(** ** Shapes of patterns and plans *)

(** The non-tuple leaves of an abstraction pattern, left to right. *)
Fixpoint flattenOrig (origType : AbstractionPattern)
  : list AbstractionPattern :=
  match origType with
  | OpaquePattern _ => [origType]
  | TuplePattern elts => flat_map flattenOrig elts
  end.

(** The leaves of a substituted type, following its own tuple structure. *)
Fixpoint flattenSubst (substType : CanType) : list CanType :=
  match substType with
  | NominalType _ => [substType]
  | TupleType elts => flat_map flattenSubst elts
  end.

(** Zip two lists and concatenate the results. *)
Definition flatZipWith {A B C : Type} (f : A -> B -> list C)
  : list A -> list B -> list C :=
  fix go (xs : list A) (ys : list B) : list C :=
    match xs, ys with
    | x :: xs', y :: ys' => f x y ++ go xs' ys'
    | _, _ => []
    end.

Definition forallb2 {A B : Type} (f : A -> B -> bool)
  : list A -> list B -> bool :=
  fix go (xs : list A) (ys : list B) : bool :=
    match xs, ys with
    | [], [] => true
    | x :: xs', y :: ys' => f x y && go xs' ys'
    | _, _ => false
    end.

(** The leaves of a pattern, each with the part of the substituted type
    that stands at its position: the substituted type is destructured
    only where the pattern is a tuple. *)
Fixpoint flattenAlong (origType : AbstractionPattern) (substType : CanType)
  : list (AbstractionPattern * CanType) :=
  match origType with
  | OpaquePattern _ => [(origType, substType)]
  | TuplePattern origElts =>
      match substType with
      | TupleType substElts => flatZipWith flattenAlong origElts substElts
      | NominalType _ => []
      end
  end.

(** The scalar plans (InPlaceInit or Scalar) of a plan, left to right. *)
Fixpoint leafPlans (plan : ResultPlan) : list ResultPlan :=
  match plan with
  | InPlaceInitializationResultPlan _ => [plan]
  | ScalarResultPlan _ _ _ _ => [plan]
  | InitValueFromTemporaryResultPlan _ subPlan _ => leafPlans subPlan
  | InitValueFromRValueResultPlan _ subPlan => leafPlans subPlan
  | TupleRValueResultPlan eltPlans => flat_map leafPlans eltPlans
  | TupleInitializationResultPlan _ _ eltPlans => flat_map leafPlans eltPlans
  end.

Definition isLeafPlan (plan : ResultPlan) : bool :=
  match plan with
  | InPlaceInitializationResultPlan _ => true
  | ScalarResultPlan _ _ _ _ => true
  | _ => false
  end.

(** A leaf plan stands for an indirect result when the callee writes it
    through an address: in place, or into the plan's temporary. *)
Definition leafIndirect (leaf : ResultPlan) : bool :=
  match leaf with
  | InPlaceInitializationResultPlan _ => true
  | ScalarResultPlan (Some _) _ _ _ => true
  | _ => false
  end.

(** The address a leaf plan contributed to [indirectResultAddrs]. *)
Definition leafAddr (leaf : ResultPlan) : list SILValue :=
  match leaf with
  | InPlaceInitializationResultPlan init =>
      match getAddressForInPlaceInitialization init with
      | Some addr => [addr]
      | None => []
      end
  | ScalarResultPlan (Some temporary) _ _ _ => [getAddress temporary]
  | _ => []
  end.

(** The pattern of a leaf plan that takes a direct result. *)
Definition leafDirectOrig (leaf : ResultPlan) : list AbstractionPattern :=
  match leaf with
  | ScalarResultPlan None origType _ _ => [origType]
  | _ => []
  end.

(** The destination a leaf plan was built with. *)
Definition leafInit (leaf : ResultPlan) : option Initialization :=
  match leaf with
  | InPlaceInitializationResultPlan init => Some init
  | ScalarResultPlan _ _ init _ => init
  | _ => None
  end.

(** The in-place fast path of [build] is taken. *)
Definition takesFastPath (SGF : SILGenFunction)
           (rep : SILFunctionTypeRepresentation)
           (init : option Initialization) (result : SILResultInfo) : bool :=
  match init with
  | Some i =>
      match getAddressForInPlaceInitialization i with
      | Some initAddr =>
          isSILIndirect result &&
          negb (hasAbstractionDifference SGF (valueType initAddr) rep
                                         (getSILStorageType result))
      | None => false
      end
  | None => false
  end.

(** Element plans finished one after the other, each returning a used
    r-value. *)
Inductive FinishedInOrder (SGF : SILGenFunction)
  : list ResultPlan -> list CanType -> FinishState -> FinishState -> Prop :=
| FinishedInOrder_nil : forall st, FinishedInOrder SGF [] [] st st
| FinishedInOrder_cons : forall p ps t ts st st1 st2 rv,
    finish SGF p t st = Done (rv, st1) ->
    isUsed rv = true ->
    FinishedInOrder SGF ps ts st1 st2 ->
    FinishedInOrder SGF (p :: ps) (t :: ts) st st2.

(** The plan was built with a destination. *)
Definition hasDestination (plan : ResultPlan) : bool :=
  match plan with
  | InPlaceInitializationResultPlan _ => true
  | ScalarResultPlan _ _ init _ =>
      match init with Some _ => true | None => false end
  | InitValueFromTemporaryResultPlan _ _ _ => true
  | InitValueFromRValueResultPlan _ _ => true
  | TupleRValueResultPlan _ => false
  | TupleInitializationResultPlan _ _ _ => true
  end.

(** The plan was built without a destination, all the way down. *)
Fixpoint isRValuePlan (plan : ResultPlan) : bool :=
  match plan with
  | ScalarResultPlan _ _ None _ => true
  | TupleRValueResultPlan eltPlans => forallb isRValuePlan eltPlans
  | _ => false
  end.

(** The plan has the shape [finish] expects for a substituted type: a
    tuple plan has one element plan per element of the type, and the
    plans that must emit into a destination have one. *)
Fixpoint planFits (plan : ResultPlan) (substType : CanType) : bool :=
  match plan with
  | InPlaceInitializationResultPlan _ => true
  | ScalarResultPlan _ _ _ _ => true
  | InitValueFromTemporaryResultPlan _ subPlan _ =>
      hasDestination subPlan && planFits subPlan substType
  | InitValueFromRValueResultPlan _ subPlan => planFits subPlan substType
  | TupleRValueResultPlan eltPlans =>
      match substType with
      | TupleType substElts => forallb2 planFits eltPlans substElts
      | NominalType _ => false
      end
  | TupleInitializationResultPlan _ _ eltPlans =>
      match substType with
      | TupleType substElts =>
          forallb hasDestination eltPlans
          && forallb2 planFits eltPlans substElts
      | NominalType _ => false
      end
  end.

(** The initializations (destinations and temporaries) a plan finishes,
    in the order in which [finish] reaches them. *)
Fixpoint planFinishes (plan : ResultPlan) : list nat :=
  match plan with
  | InPlaceInitializationResultPlan init => [initId init]
  | ScalarResultPlan temporary _ init _ =>
      match temporary with
      | Some t => [initId (asInitialization t)]
      | None => []
      end ++
      match init with
      | Some i => [initId i]
      | None => []
      end
  | InitValueFromTemporaryResultPlan init subPlan _ =>
      planFinishes subPlan ++ [initId init]
  | InitValueFromRValueResultPlan init subPlan =>
      planFinishes subPlan ++ [initId init]
  | TupleRValueResultPlan eltPlans => flat_map planFinishes eltPlans
  | TupleInitializationResultPlan tupleInit _ eltPlans =>
      flat_map planFinishes eltPlans ++ [initId tupleInit]
  end.

(** The patterns of the leaf plans that take a direct result. *)
Definition directOrigs (plan : ResultPlan) : list AbstractionPattern :=
  flat_map leafDirectOrig (leafPlans plan).

(** The initializations finished in a trace. *)
Definition finishedInits (trace : list Event) : list nat :=
  flat_map (fun e => match e with
                     | EvFinishInitialization i => [i]
                     | _ => []
                     end) trace.

(** The direct results claimed in a trace, with the claiming pattern. *)
Definition claimedResults (trace : list Event)
  : list (AbstractionPattern * ManagedValue) :=
  flat_map (fun e => match e with
                     | EvClaimDirectResult o v => [(o, v)]
                     | _ => []
                     end) trace.

(** The leaf of the flattening for which a leaf plan was built, and the
    result descriptor it took. *)
Definition leafFor (leaf : ResultPlan)
           (position : AbstractionPattern * SILResultInfo) : Prop :=
  leafIndirect leaf = isSILIndirect (snd position) /\
  length (leafAddr leaf) = (if isSILIndirect (snd position) then 1 else 0) /\
  match leaf with
  | InPlaceInitializationResultPlan _ => True
  | ScalarResultPlan _ origType _ _ => origType = fst position
  | _ => False
  end.

(** Fuel that suffices for [build] on a pattern. *)
Fixpoint fuelFor (origType : AbstractionPattern) : nat :=
  match origType with
  | OpaquePattern _ => 1
  | TuplePattern elts => 3 + list_max (map fuelFor elts)
  end.

(** What the pipeline establishes before a plan is built: pattern and
    substituted type have the same arity wherever the pattern is a
    tuple, a destination that can be split has an element for each tuple
    element, and the temporary emitted for an address-only tuple can be
    split in that way. *)
Inductive WellFormed (SGF : SILGenFunction)
  : option Initialization -> AbstractionPattern -> CanType -> Prop :=
| WellFormed_leaf : forall init name substType,
    WellFormed SGF init (OpaquePattern name) substType
| WellFormed_rvalue : forall origElts substElts,
    length origElts = length substElts ->
    (forall i o s,
        nth_error origElts i = Some o ->
        nth_error substElts i = Some s ->
        WellFormed SGF None o s) ->
    WellFormed SGF None (TuplePattern origElts) (TupleType substElts)
| WellFormed_split : forall init origElts substElts,
    canSplitIntoTupleElements init = true ->
    length origElts = length substElts ->
    length substElts <= length (splitIntoTupleElements init) ->
    (forall i e o s,
        nth_error (splitIntoTupleElements init) i = Some e ->
        nth_error origElts i = Some o ->
        nth_error substElts i = Some s ->
        WellFormed SGF (Some e) o s) ->
    WellFormed SGF (Some init) (TuplePattern origElts) (TupleType substElts)
| WellFormed_temporary : forall init origElts substElts,
    canSplitIntoTupleElements init = false ->
    isAddressOnly (getTypeLowering SGF (TupleType substElts)) = true ->
    (forall n,
        canSplitIntoTupleElements
          (asInitialization
             (emitTemporary SGF n
                (getTypeLowering SGF (TupleType substElts)))) = true) ->
    (forall n,
        WellFormed SGF
          (Some (asInitialization
                   (emitTemporary SGF n
                      (getTypeLowering SGF (TupleType substElts)))))
          (TuplePattern origElts) (TupleType substElts)) ->
    WellFormed SGF (Some init) (TuplePattern origElts) (TupleType substElts)
| WellFormed_copy : forall init origElts substElts,
    canSplitIntoTupleElements init = false ->
    isAddressOnly (getTypeLowering SGF (TupleType substElts)) = false ->
    WellFormed SGF None (TuplePattern origElts) (TupleType substElts) ->
    WellFormed SGF (Some init) (TuplePattern origElts) (TupleType substElts).

(** The reabstraction service can only report that it emitted into the
    context when it was given one. *)
Definition NoContextNoDeposit (SGF : SILGenFunction) : Prop :=
  forall value origType substType,
    isInContext (emitOrigToSubstValue SGF value origType substType None)
    = false.

(** What a successful build of some leaves did to the builder: it took
    one descriptor per leaf from the front of the queue, in order, and
    appended the leaves' addresses, in order. *)
Definition BuildSpec (origLeaves : list AbstractionPattern)
           (st : BuilderState) (leaves : list ResultPlan)
           (st' : BuilderState) : Prop :=
  exists descs,
    allResults st = descs ++ allResults st' /\
    length descs = length origLeaves /\
    indirectResultAddrs st'
    = indirectResultAddrs st ++ flat_map leafAddr leaves /\
    Forall2 leafFor leaves (combine origLeaves descs).

(** What a successful piece of a finish did: it took one direct result
    per direct leaf from the front of the cursor, in order, and finished
    some initializations, in order. *)
Definition FinishStep (origs : list AbstractionPattern) (inits : list nat)
           (st st' : FinishState) : Prop :=
  exists taken events,
    directResults st = taken ++ directResults st' /\
    length taken = length origs /\
    emitted st' = emitted st ++ events /\
    claimedResults events = combine origs taken /\
    finishedInits events = inits.

Definition FinishSpec (plan : ResultPlan) (st : FinishState) (rv : RValue)
           (st' : FinishState) : Prop :=
  FinishStep (directOrigs plan) (planFinishes plan) st st' /\
  (hasDestination plan = true -> isUsed rv = true).

(** Finishing a plan of the right shape, with enough direct results,
    returns. *)
Definition FinishReturns (SGF : SILGenFunction) (p : ResultPlan) : Prop :=
  forall ty st,
    planFits p ty = true ->
    length (directOrigs p) <= length (directResults st) ->
    exists rv st', finish SGF p ty st = Done (rv, st').

(** One unit of fuel less is needed when [buildForTuple] does not call
    itself. *)
Definition fuelSlack (init : option Initialization)
           (origType : AbstractionPattern) : nat :=
  match origType with
  | OpaquePattern _ => 0
  | TuplePattern _ =>
      match init with
      | Some i => if canSplitIntoTupleElements i then 1 else 0
      | None => 1
      end
  end.

(** Build returns on a pattern, for enough fuel and enough result
    descriptors. *)
Definition BuildReturns (SGF : SILGenFunction)
           (rep : SILFunctionTypeRepresentation)
           (init : option Initialization) (origType : AbstractionPattern)
           (substType : CanType) : Prop :=
  forall fuel st,
    fuelFor origType <= fuel + fuelSlack init origType ->
    length (flattenOrig origType) <= length (allResults st) ->
    exists plan st',
      build SGF rep fuel init origType substType st = Done (plan, st').

(** The descriptors marked direct. *)
Definition directDescriptors (descs : list SILResultInfo)
  : list SILResultInfo :=
  filter (fun d => negb (isSILIndirect d)) descs.

(** The leaves of a flattening whose descriptor is direct, in order. *)
Definition directLeaves (origLeaves : list AbstractionPattern)
           (descs : list SILResultInfo) : list AbstractionPattern :=
  map fst (filter (fun p => negb (isSILIndirect (snd p)))
                  (combine origLeaves descs)).

(** ** Induction on plans *)

Section ResultPlanInduction.

Variable P : ResultPlan -> Prop.

Hypothesis P_inPlace : forall init, P (InPlaceInitializationResultPlan init).
Hypothesis P_scalar : forall temporary origType init rep,
    P (ScalarResultPlan temporary origType init rep).
Hypothesis P_fromTemporary : forall init subPlan temporary,
    P subPlan -> P (InitValueFromTemporaryResultPlan init subPlan temporary).
Hypothesis P_fromRValue : forall init subPlan,
    P subPlan -> P (InitValueFromRValueResultPlan init subPlan).
Hypothesis P_tupleRValue : forall eltPlans,
    Forall P eltPlans -> P (TupleRValueResultPlan eltPlans).
Hypothesis P_tupleInit : forall tupleInit eltInits eltPlans,
    Forall P eltPlans ->
    P (TupleInitializationResultPlan tupleInit eltInits eltPlans).

Fixpoint ResultPlan_nested_ind (plan : ResultPlan) : P plan :=
  match plan with
  | InPlaceInitializationResultPlan init => P_inPlace init
  | ScalarResultPlan temporary origType init rep =>
      P_scalar temporary origType init rep
  | InitValueFromTemporaryResultPlan init subPlan temporary =>
      P_fromTemporary init temporary (ResultPlan_nested_ind subPlan)
  | InitValueFromRValueResultPlan init subPlan =>
      P_fromRValue init (ResultPlan_nested_ind subPlan)
  | TupleRValueResultPlan eltPlans =>
      P_tupleRValue
        ((fix all (ps : list ResultPlan) : Forall P ps :=
            match ps with
            | [] => Forall_nil P
            | p :: ps' => Forall_cons p (ResultPlan_nested_ind p) (all ps')
            end) eltPlans)
  | TupleInitializationResultPlan tupleInit eltInits eltPlans =>
      P_tupleInit tupleInit eltInits
        ((fix all (ps : list ResultPlan) : Forall P ps :=
            match ps with
            | [] => Forall_nil P
            | p :: ps' => Forall_cons p (ResultPlan_nested_ind p) (all ps')
            end) eltPlans)
  end.

End ResultPlanInduction.

(** ** Further shapes *)

(** The destination held by the root node of a plan. *)
Definition planInit (plan : ResultPlan) : option Initialization :=
  match plan with
  | InPlaceInitializationResultPlan init => Some init
  | ScalarResultPlan _ _ init _ => init
  | InitValueFromTemporaryResultPlan init _ _ => Some init
  | InitValueFromRValueResultPlan init _ => Some init
  | TupleRValueResultPlan _ => None
  | TupleInitializationResultPlan tupleInit _ _ => Some tupleInit
  end.

(** Element plans without destination that all satisfy [wt]. *)
Definition allWithoutInit (wt : ResultPlan -> Prop)
  : list ResultPlan -> Prop :=
  fix all (ps : list ResultPlan) : Prop :=
    match ps with
    | [] => True
    | p :: ps' => planInit p = None /\ wt p /\ all ps'
    end.

(** Element plans that satisfy [wt] and hold, from index [i] on, the
    element initializations at their index. *)
Definition allWithEltInit (wt : ResultPlan -> Prop)
           (eltInits : list Initialization)
  : list ResultPlan -> nat -> Prop :=
  fix all (ps : list ResultPlan) (i : nat) : Prop :=
    match ps with
    | [] => True
    | p :: ps' =>
        (exists e, nth_error eltInits i = Some e /\ planInit p = Some e) /\
        wt p /\ all ps' (S i)
    end.

(** Every node of the plan emits into the destination its parent gave
    it: the element plans of a TupleInitialization hold, by index, the
    element initializations of the split; those of a TupleRValue hold
    none; the sub-plan of InitFromTemporary holds the temporary and
    that of InitFromRValue holds none. *)
Fixpoint WellTargeted (plan : ResultPlan) : Prop :=
  match plan with
  | InPlaceInitializationResultPlan _ => True
  | ScalarResultPlan _ _ _ _ => True
  | InitValueFromTemporaryResultPlan _ subPlan temporary =>
      planInit subPlan = Some (asInitialization temporary) /\
      WellTargeted subPlan
  | InitValueFromRValueResultPlan _ subPlan =>
      planInit subPlan = None /\ WellTargeted subPlan
  | TupleRValueResultPlan eltPlans => allWithoutInit WellTargeted eltPlans
  | TupleInitializationResultPlan tupleInit eltInits eltPlans =>
      eltInits = splitIntoTupleElements tupleInit /\
      allWithEltInit WellTargeted eltInits eltPlans 0
  end.

(** The element plans of a tuple plan, through the plans that wrap it. *)
Fixpoint tupleEltPlans (plan : ResultPlan) : list ResultPlan :=
  match plan with
  | InitValueFromTemporaryResultPlan _ subPlan _ => tupleEltPlans subPlan
  | InitValueFromRValueResultPlan _ subPlan => tupleEltPlans subPlan
  | TupleRValueResultPlan eltPlans => eltPlans
  | TupleInitializationResultPlan _ _ eltPlans => eltPlans
  | _ => []
  end.

(** The temporaries held by the nodes of a plan, in the order in which
    the builder emitted them. *)
Fixpoint planTemporaries (plan : ResultPlan)
  : list TemporaryInitialization :=
  match plan with
  | InPlaceInitializationResultPlan _ => []
  | ScalarResultPlan temporary _ _ _ =>
      match temporary with Some t => [t] | None => [] end
  | InitValueFromTemporaryResultPlan _ subPlan temporary =>
      temporary :: planTemporaries subPlan
  | InitValueFromRValueResultPlan _ subPlan => planTemporaries subPlan
  | TupleRValueResultPlan eltPlans => flat_map planTemporaries eltPlans
  | TupleInitializationResultPlan _ _ eltPlans =>
      flat_map planTemporaries eltPlans
  end.

(** The tuple plans of the plan meet tuple types of their own arity. *)
Fixpoint arityFits (plan : ResultPlan) (substType : CanType) : bool :=
  match plan with
  | InPlaceInitializationResultPlan _ => true
  | ScalarResultPlan _ _ _ _ => true
  | InitValueFromTemporaryResultPlan _ subPlan _ => arityFits subPlan substType
  | InitValueFromRValueResultPlan _ subPlan => arityFits subPlan substType
  | TupleRValueResultPlan eltPlans =>
      match substType with
      | TupleType substElts => forallb2 arityFits eltPlans substElts
      | NominalType _ => false
      end
  | TupleInitializationResultPlan _ _ eltPlans =>
      match substType with
      | TupleType substElts => forallb2 arityFits eltPlans substElts
      | NominalType _ => false
      end
  end.

(** In a trace, every value copied into an initialization is followed
    at once by the finishInitialization of that initialization. *)
Fixpoint copiesCommitted (trace : list Event) : bool :=
  match trace with
  | [] => true
  | EvCopyOrInitValueInto init _ :: rest =>
      match rest with
      | EvFinishInitialization init' :: _ =>
          (init =? init') && copiesCommitted rest
      | _ => false
      end
  | _ :: rest => copiesCommitted rest
  end.

(** The copies into initializations in a trace. *)
Definition copiedInits (trace : list Event) : list nat :=
  flat_map (fun e => match e with
                     | EvCopyOrInitValueInto i _ => [i]
                     | _ => []
                     end) trace.

(** A run of finish returned, or stopped at an exhausted cursor of direct
    results. *)
Definition ReturnsOrExhausted {A : Type}
           (outcome : Outcome (A * FinishState)) : Prop :=
  (exists a st', outcome = Done (a, st')) \/
  outcome = Abort EmptyDirectResults.

(** A run of a finish action that took the direct results [taken] and
    emitted [events] does the same from any cursor that starts with
    [taken] and after any trace. *)
Definition Framed {A : Type} (m : Finisher A) (st : FinishState) (a : A)
           (st' : FinishState) : Prop :=
  exists taken events,
    directResults st = taken ++ directResults st' /\
    emitted st' = emitted st ++ events /\
    forall more trace,
      m (mkFinishState (taken ++ more) trace)
      = Done (a, mkFinishState more (trace ++ events)).

(** A piece of a finish appended operations among which every copy into
    an initialization is followed at once by its finishInitialization. *)
Definition Committed (st st' : FinishState) : Prop :=
  exists events,
    emitted st' = emitted st ++ events /\ copiesCommitted events = true.

(** A piece of a finish appended operations without any copy into an
    initialization. *)
Definition CopyFree (st st' : FinishState) : Prop :=
  exists events,
    emitted st' = emitted st ++ events /\ copiedInits events = [].

(** A run of a builder action that took the descriptors [descs] and
    appended the addresses [new] does the same on any queue that starts
    with [descs] and after any addresses, with the same temporaries
    emitted before. *)
Definition BuildFramed {A : Type} (m : Builder A) (st : BuilderState)
           (a : A) (st' : BuilderState) : Prop :=
  exists descs new,
    allResults st = descs ++ allResults st' /\
    indirectResultAddrs st' = indirectResultAddrs st ++ new /\
    forall more addrs,
      m (mkBuilderState (descs ++ more) addrs (temporaries st))
      = Done (a, mkBuilderState more (addrs ++ new) (temporaries st')).

(** ** Identity of initializations *)








(** ** The r-values that reach getAsSingleValue *)

(** The r-values (their values) handed to getAsSingleValue in a trace. *)
Definition singleValues (trace : list Event) : list (list ManagedValue) :=
  flat_map (fun e => match e with
                     | EvGetAsSingleValue values => [values]
                     | _ => []
                     end) trace.



(** A piece of a finish handed to getAsSingleValue r-values with the
    given numbers of values. *)
Definition SingleValued (groups : list nat) (st st' : FinishState) : Prop :=
  exists events,
    emitted st' = emitted st ++ events /\
    map (@length ManagedValue) (singleValues events) = groups.


(** The plan is a tuple plan, possibly wrapped by the plans that copy
    its result into a destination. *)
Fixpoint isTuplePlan (plan : ResultPlan) : bool :=
  match plan with
  | InitValueFromTemporaryResultPlan _ subPlan _ => isTuplePlan subPlan
  | InitValueFromRValueResultPlan _ subPlan => isTuplePlan subPlan
  | TupleRValueResultPlan _ => true
  | TupleInitializationResultPlan _ _ _ => true
  | _ => false
  end.

(** ** A concrete instance of the services, for the examples *)

Module Examples.

Definition exLowering (ty : CanType) : TypeLowering :=
  match ty with
  | NominalType n => mkTypeLowering n (100 <=? n)
  | TupleType elts =>
      mkTypeLowering 999
        (match elts with NominalType n :: _ => 100 <=? n | _ => false end)
  end.

(** Temporaries split into two element buffers. *)
Definition exTemporary (n : nat) (TL : TypeLowering)
  : TemporaryInitialization :=
  let addr := mkSILValue (500 + n) (getLoweredType TL) in
  mkTemporary addr
    (mkInitialization (500 + n) (Some addr) true
       [mkInitialization (600 + 2 * n)
          (Some (mkSILValue (600 + 2 * n) 100)) false [];
        mkInitialization (601 + 2 * n)
          (Some (mkSILValue (601 + 2 * n) 2)) false []]).

Definition exSGF : SILGenFunction :=
  mkSGF exLowering
        (fun a _ b => negb (a =? b))
        (fun rep => match rep with 0 => LangSwift | _ => LangC end)
        exTemporary
        (fun TL v =>
           mkManagedValue (mkSILValue (700 + valueId (mvValue v))
                                      (getLoweredType TL)) false)
        (fun v _ ty =>
           mkManagedValue (mkSILValue (800 + valueId (mvValue v))
                                      (getLoweredType (exLowering ty))) false)
        (fun v _ ty init =>
           match init with
           | Some i => mkManagedValue (mvValue v) (Nat.even (initId i))
           | None =>
               mkManagedValue (mkSILValue (900 + valueId (mvValue v))
                                          (getLoweredType (exLowering ty)))
                              false
           end)
        (fun rv => mkManagedValue (mkSILValue 950 999) false).

(** A destination that offers an address and cannot be split. *)
Definition dest (id : nat) (ty : SILType) : Initialization :=
  mkInitialization id (Some (mkSILValue id ty)) false [].

Definition indirectResult (n : nat) : SILResultInfo :=
  mkSILResultInfo (NominalType n) true n.

Definition directResult (n : nat) : SILResultInfo :=
  mkSILResultInfo (NominalType n) false n.

Definition value (id : nat) (ty : SILType) : ManagedValue :=
  mkManagedValue (mkSILValue id ty) false.

Definition pairPattern : AbstractionPattern :=
  TuplePattern [OpaquePattern 1; OpaquePattern 2].

Definition pairType (a b : nat) : CanType :=
  TupleType [NominalType a; NominalType b].

Definition splittable : Initialization :=
  mkInitialization 1 None true [dest 2 1; dest 3 2].

Definition unsplittable : Initialization :=
  mkInitialization 1 None false [].






End Examples.

(** * Properties *)

Ltac inv H := inversion H; subst; clear H.

(** ** The scalar step of the builder *)

Lemma build_leaf_eq SGF rep fuel init origType substType :
  isTuple origType = false ->
  build SGF rep (S fuel) init origType substType = buildLeaf SGF rep init origType.
Proof. intros H. simpl. rewrite H. reflexivity. Qed.

Lemma buildLeaf_fast SGF rep init origType result rest addrs temps i initAddr :
  init = Some i ->
  getAddressForInPlaceInitialization i = Some initAddr ->
  takesFastPath SGF rep init result = true ->
  buildLeaf SGF rep init origType (mkBuilderState (result :: rest) addrs temps)
  = Done (InPlaceInitializationResultPlan i,
          mkBuilderState rest (addrs ++ [initAddr]) temps).
Proof.
  intros -> Ha Hf. unfold takesFastPath in Hf. rewrite Ha in Hf.
  unfold buildLeaf, bind, popResult. simpl. rewrite Ha, Hf. reflexivity.
Qed.

Lemma buildLeaf_slow SGF rep init origType result rest addrs temps :
  takesFastPath SGF rep init result = false ->
  buildLeaf SGF rep init origType (mkBuilderState (result :: rest) addrs temps)
  = buildScalar SGF rep init origType result (mkBuilderState rest addrs temps).
Proof.
  intros Hf. unfold takesFastPath in Hf.
  unfold buildLeaf, bind, popResult. simpl.
  destruct init as [i|]; [|reflexivity].
  destruct (getAddressForInPlaceInitialization i); [|reflexivity].
  rewrite Hf. reflexivity.
Qed.

Lemma buildScalar_eq SGF rep init origType result rest addrs temps :
  buildScalar SGF rep init origType result (mkBuilderState rest addrs temps)
  = if isSILIndirect result then
      let temporary :=
        emitTemporary SGF (length temps)
                      (getTypeLowering SGF (resultType result)) in
      Done (ScalarResultPlan (Some temporary) origType init rep,
            mkBuilderState rest (addrs ++ [getAddress temporary])
                           (temps ++ [temporary]))
    else
      Done (ScalarResultPlan None origType init rep,
            mkBuilderState rest addrs temps).
Proof.
  unfold buildScalar, bind. destruct (isSILIndirect result); reflexivity.
Qed.

(** C2: a non-tuple leaf with a destination that yields an in-place
    address, an indirect descriptor and no abstraction difference between
    the address's type and the descriptor's storage type: the builder
    appends that address to the indirect-result addresses, allocates no
    temporary and produces an InPlaceInit plan, whose finish consumes no
    direct result, only calls the destination's finishInitialization and
    returns the used r-value. *)
Theorem C2_in_place_fast_path :
  forall SGF rep fuel i initAddr origType substType result rest addrs temps,
    isTuple origType = false ->
    getAddressForInPlaceInitialization i = Some initAddr ->
    isSILIndirect result = true ->
    hasAbstractionDifference SGF (valueType initAddr) rep
                             (getSILStorageType result) = false ->
    build SGF rep (S fuel) (Some i) origType substType
          (mkBuilderState (result :: rest) addrs temps)
    = Done (InPlaceInitializationResultPlan i,
            mkBuilderState rest (addrs ++ [initAddr]) temps)
    /\ forall finishType directs trace,
         finish SGF (InPlaceInitializationResultPlan i) finishType
                (mkFinishState directs trace)
         = Done (RValue_used,
                 mkFinishState directs
                   (trace ++ [EvFinishInitialization (initId i)])).
Proof.
  intros SGF rep fuel i initAddr origType substType result rest addrs temps
         Hleaf Haddr Hind Hdiff.
  split.
  - rewrite build_leaf_eq by assumption.
    apply buildLeaf_fast; auto.
    unfold takesFastPath. rewrite Haddr, Hind, Hdiff. reflexivity.
  - intros. reflexivity.
Qed.

Lemma C2_in_place_fast_path_witness :
  build Examples.exSGF 0 1 (Some (Examples.dest 1 7)) (OpaquePattern 7)
        (NominalType 7)
        (mkBuilderState [Examples.indirectResult 7] [] [])
  = Done (InPlaceInitializationResultPlan (Examples.dest 1 7),
          mkBuilderState [] [mkSILValue 1 7] []).
Proof.
  apply (C2_in_place_fast_path Examples.exSGF 0 0 (Examples.dest 1 7)
           (initAddr := mkSILValue 1 7) (OpaquePattern 7) (NominalType 7)
           (Examples.indirectResult 7) [] [] []); reflexivity.
Defined.

(** C4: a non-tuple leaf that does not take the in-place fast path: for
    an indirect descriptor the builder allocates a temporary for the
    lowering of the descriptor's type and appends its address to the
    indirect-result addresses; for a direct descriptor it allocates
    nothing and appends nothing; the plan is a Scalar plan holding the
    temporary (or none), the pattern, the destination and the
    representation. *)
Theorem C4_scalar_path :
  forall SGF rep fuel init origType substType result rest addrs temps,
    isTuple origType = false ->
    takesFastPath SGF rep init result = false ->
    build SGF rep (S fuel) init origType substType
          (mkBuilderState (result :: rest) addrs temps)
    = if isSILIndirect result then
        let temporary :=
          emitTemporary SGF (length temps)
                        (getTypeLowering SGF (resultType result)) in
        Done (ScalarResultPlan (Some temporary) origType init rep,
              mkBuilderState rest (addrs ++ [getAddress temporary])
                             (temps ++ [temporary]))
      else
        Done (ScalarResultPlan None origType init rep,
              mkBuilderState rest addrs temps).
Proof.
  intros. rewrite build_leaf_eq by assumption.
  rewrite buildLeaf_slow by assumption. apply buildScalar_eq.
Qed.

Lemma C4_scalar_path_witness :
  build Examples.exSGF 0 1 (Some (Examples.dest 1 7)) (OpaquePattern 7)
        (NominalType 8)
        (mkBuilderState [Examples.indirectResult 8] [] [])
  = Done (ScalarResultPlan
            (Some (Examples.exTemporary 0 (mkTypeLowering 8 false)))
            (OpaquePattern 7) (Some (Examples.dest 1 7)) 0,
          mkBuilderState [] [mkSILValue 500 8]
                         [Examples.exTemporary 0 (mkTypeLowering 8 false)]).
Proof.
  apply (C4_scalar_path Examples.exSGF 0 0 (Some (Examples.dest 1 7))
           (OpaquePattern 7) (NominalType 8) (Examples.indirectResult 8)
           [] [] []); reflexivity.
Defined.

(** C10: with a pattern that is not a tuple, the builder consumes exactly
    one result descriptor and produces an InPlaceInit or a Scalar plan
    even when the substituted type is a tuple; the substituted type plays
    no part, so that only the pattern's shape drives the recursion into
    tuple elements. *)
Theorem C10_opaque_pattern_takes_one_descriptor :
  forall SGF rep fuel init origType substElts result rest addrs temps,
    isTuple origType = false ->
    (exists plan addrs' temps',
        build SGF rep (S fuel) init origType (TupleType substElts)
              (mkBuilderState (result :: rest) addrs temps)
        = Done (plan, mkBuilderState rest addrs' temps')
        /\ isLeafPlan plan = true
        /\ leafPlans plan = [plan])
    /\ (forall substType st,
           build SGF rep (S fuel) init origType substType st
           = build SGF rep (S fuel) init origType (TupleType substElts) st).
Proof.
  intros SGF rep fuel init origType substElts result rest addrs temps Hleaf.
  split.
  - rewrite build_leaf_eq by assumption.
    destruct (takesFastPath SGF rep init result) eqn:Hfast.
    + unfold takesFastPath in Hfast.
      destruct init as [i|]; [|discriminate].
      destruct (getAddressForInPlaceInitialization i) as [a|] eqn:Ha;
        [|discriminate].
      exists (InPlaceInitializationResultPlan i), (addrs ++ [a]), temps.
      split; [|split; reflexivity].
      apply buildLeaf_fast; auto.
      unfold takesFastPath. rewrite Ha. exact Hfast.
    + rewrite buildLeaf_slow by assumption. rewrite buildScalar_eq.
      destruct (isSILIndirect result); eexists _, _, _;
        (split; [reflexivity | split; reflexivity]).
  - intros. rewrite !build_leaf_eq by assumption. reflexivity.
Qed.

Lemma C10_opaque_pattern_takes_one_descriptor_witness :
  exists plan addrs' temps',
    build Examples.exSGF 0 1 None (OpaquePattern 7) (Examples.pairType 1 2)
          (mkBuilderState [Examples.directResult 7] [] [])
    = Done (plan, mkBuilderState [] addrs' temps')
    /\ isLeafPlan plan = true
    /\ leafPlans plan = [plan].
Proof.
  apply (C10_opaque_pattern_takes_one_descriptor Examples.exSGF 0 0 None
           (OpaquePattern 7) [NominalType 1; NominalType 2]
           (Examples.directResult 7) [] [] []).
  reflexivity.
Defined.

(** ** Scalar finish *)

(** C3: in Scalar finish, when the claimed value's type has an abstraction
    difference from the lowered substituted type: for a C-language
    representation the value is bridged to native and then stored as
    usual; otherwise it is reabstracted from the pattern to the
    substituted type with the destination as context, and when the
    result is in the context, finish returns the used r-value right away,
    with no copy into the destination. *)
Theorem C3_scalar_reabstraction :
  forall SGF temporary origType init rep substType st value st1,
    claimValue SGF temporary origType (getTypeLowering SGF substType) st
    = Done (value, st1) ->
    hasAbstractionDifference SGF (getType value) rep
      (getLoweredType (getTypeLowering SGF substType)) = true ->
    match getSILFunctionLanguage SGF rep with
    | LangC =>
        finish SGF (ScalarResultPlan temporary origType init rep) substType st
        = storeValue init substType
            (emitBridgedToNativeValue SGF value rep substType)
            (mkFinishState (directResults st1)
                           (emitted st1 ++ [EvBridgedToNative value]))
    | LangSwift =>
        let value' :=
          emitOrigToSubstValue SGF value origType substType init in
        let called :=
          emitted st1 ++ [EvOrigToSubst value (option_map initId init)] in
        if isInContext value' then
          finish SGF (ScalarResultPlan temporary origType init rep)
                 substType st
          = Done (RValue_used,
                  mkFinishState (directResults st1)
                    match init with
                    | Some i => called ++ [EvFinishInitialization (initId i)]
                    | None => called
                    end)
        else
          finish SGF (ScalarResultPlan temporary origType init rep)
                 substType st
          = storeValue init substType value'
                       (mkFinishState (directResults st1) called)
    end.
Proof.
  intros SGF temporary origType init rep substType st value st1 Hclaim Hdiff.
  simpl. unfold finishScalar, bind. rewrite Hclaim, Hdiff.
  destruct (getSILFunctionLanguage SGF rep).
  - unfold emitOrigToSubstValueM, bind, emit, finishInitialization, emit, ret.
    simpl.
    destruct (isInContext (emitOrigToSubstValue SGF value origType substType
                                                init)) eqn:Hctx;
      destruct init; simpl; rewrite ?Hctx; reflexivity.
  - reflexivity.
Qed.

Lemma C3_scalar_reabstraction_witness :
  finish Examples.exSGF
         (ScalarResultPlan None (OpaquePattern 7)
                           (Some (Examples.dest 2 8)) 0)
         (NominalType 8)
         (mkFinishState [Examples.value 42 7] [])
  = Done (RValue_used,
          mkFinishState []
            [EvClaimDirectResult (OpaquePattern 7) (Examples.value 42 7);
             EvOrigToSubst (Examples.value 42 7) (Some 2);
             EvFinishInitialization 2]).
Proof.
  apply (C3_scalar_reabstraction Examples.exSGF None (OpaquePattern 7)
           (Some (Examples.dest 2 8)) 0 (NominalType 8)
           (mkFinishState [Examples.value 42 7] [])
           (value := Examples.value 42 7)
           (st1 := mkFinishState []
                     [EvClaimDirectResult (OpaquePattern 7)
                                          (Examples.value 42 7)]));
    reflexivity.
Defined.

(** ** Tuples *)

Lemma build_tuple_eq SGF rep fuel init origElts substElts :
  build SGF rep (S fuel) init (TuplePattern origElts) (TupleType substElts)
  = buildForTuple SGF rep fuel init (TuplePattern origElts) substElts.
Proof. reflexivity. Qed.

Lemma buildForTuple_none_plan SGF rep fuel origType substElts st plan st' :
  buildForTuple SGF rep fuel None origType substElts st = Done (plan, st') ->
  exists eltPlans, plan = TupleRValueResultPlan eltPlans.
Proof.
  destruct fuel as [|fuel]; simpl; [discriminate|].
  unfold bind.
  destruct (forEachElement _ 0 substElts st) as [[eltPlans st1]| |];
    try discriminate.
  intros H. inv H. eauto.
Qed.

(** C5: a tuple pattern built against a destination that cannot be split.
    When the lowering of the whole substituted tuple is address-only, the
    builder emits one temporary for the tuple, builds the tuple plan into
    that temporary and wraps it in InitFromTemporary with the original
    destination; otherwise it builds the tuple plan with no destination
    (a TupleRValue plan) and wraps it in InitFromRValue with the original
    destination.  Nothing but the address-only-ness of the tuple's
    lowering decides between the two. *)
Theorem C5_unsplittable_tuple_destination :
  forall SGF rep fuel init origElts substElts st,
    canSplitIntoTupleElements init = false ->
    let origType := TuplePattern origElts in
    let substTL := getTypeLowering SGF (TupleType substElts) in
    build SGF rep (S (S fuel)) (Some init) origType (TupleType substElts) st
    = (if isAddressOnly substTL then
         let temporary :=
           emitTemporary SGF (length (temporaries st)) substTL in
         match buildForTuple SGF rep fuel
                 (Some (asInitialization temporary)) origType substElts
                 (mkBuilderState (allResults st) (indirectResultAddrs st)
                                 (temporaries st ++ [temporary])) with
         | Done (subplan, st') =>
             Done (InitValueFromTemporaryResultPlan init subplan temporary,
                   st')
         | Abort d => Abort d
         | OutOfFuel => OutOfFuel
         end
       else
         match buildForTuple SGF rep fuel None origType substElts st with
         | Done (subplan, st') =>
             Done (InitValueFromRValueResultPlan init subplan, st')
         | Abort d => Abort d
         | OutOfFuel => OutOfFuel
         end)
    /\ (isAddressOnly substTL = false ->
        forall subplan st',
          buildForTuple SGF rep fuel None origType substElts st
          = Done (subplan, st') ->
          exists eltPlans, subplan = TupleRValueResultPlan eltPlans).
Proof.
  intros SGF rep fuel init origElts substElts st Hsplit origType substTL.
  subst origType substTL.
  split.
  - rewrite build_tuple_eq. simpl. rewrite Hsplit.
    destruct (isAddressOnly (getTypeLowering SGF (TupleType substElts))).
    + unfold bind, emitTemporaryM. simpl.
      destruct (buildForTuple SGF rep fuel _ _ substElts _)
        as [[subplan st']| |]; reflexivity.
    + unfold bind.
      destruct (buildForTuple SGF rep fuel None _ substElts st)
        as [[subplan st']| |]; reflexivity.
  - intros _ subplan st' H.
    eapply buildForTuple_none_plan; eauto.
Qed.

Lemma C5_unsplittable_tuple_destination_witness :
  build Examples.exSGF 0 4 (Some Examples.unsplittable) Examples.pairPattern
        (Examples.pairType 1 2)
        (mkBuilderState [Examples.directResult 1; Examples.directResult 2]
                        [] [])
  = Done (InitValueFromRValueResultPlan Examples.unsplittable
            (TupleRValueResultPlan
               [ScalarResultPlan None (OpaquePattern 1) None 0;
                ScalarResultPlan None (OpaquePattern 2) None 0]),
          mkBuilderState [] [] []).
Proof.
  pose proof (C5_unsplittable_tuple_destination Examples.exSGF 0 2
                Examples.unsplittable
                [OpaquePattern 1; OpaquePattern 2]
                [NominalType 1; NominalType 2]
                (mkBuilderState
                   [Examples.directResult 1; Examples.directResult 2] [] [])
                eq_refl) as [H _].
  exact H.
Defined.

Lemma finishInitElts_in_order SGF eltPlans eltTypes st st' :
  length eltTypes = length eltPlans ->
  finishInitElts (finish SGF) eltPlans eltTypes st = Done (tt, st') <->
  FinishedInOrder SGF eltPlans eltTypes st st'.
Proof.
  revert eltTypes st.
  induction eltPlans as [|p ps IH]; intros [|t ts] st Hlen;
    try discriminate Hlen.
  - simpl. unfold ret. split; intros H.
    + inv H. constructor.
    + inv H. reflexivity.
  - simpl in *. injection Hlen as Hlen. unfold bind, assertM.
    split; intros H.
    + destruct (finish SGF p t st) as [[rv st1]| |] eqn:Hp; try discriminate.
      destruct (isUsed rv) eqn:Hu; simpl in H; try discriminate.
      econstructor; eauto. apply IH; auto.
    + inversion H as [|? ? ? ? ? st1 ? rv Hp Hu Hrest]; subst.
      rewrite Hp, Hu. simpl. apply IH; auto.
Qed.

(** The element loop aborts at the first element plan that returns an
    r-value that is not used. *)
Lemma finishInitElts_not_used SGF done doneTypes p t rest restTypes st mid
      rv st1 :
  FinishedInOrder SGF done doneTypes st mid ->
  finish SGF p t mid = Done (rv, st1) ->
  isUsed rv = false ->
  finishInitElts (finish SGF) (done ++ p :: rest)
                 (doneTypes ++ t :: restTypes) st
  = Abort SubPlanNotUsed.
Proof.
  intros Hord Hp Hu. induction Hord as [st|q qs u us st st2 st3 rv' Hq Hq' _ IH].
  - simpl. unfold bind. rewrite Hp. unfold assertM. rewrite Hu. reflexivity.
  - simpl. unfold bind. rewrite Hq. unfold assertM. rewrite Hq'. simpl.
    apply IH; auto.
Qed.

(** C6: finish of a TupleInitialization plan finishes the element plans
    in element order, each of which must return a used r-value (the
    run aborts at the first one that does not), calls the tuple
    destination's finishInitialization only after all of them, and
    returns the used r-value. *)
Theorem C6_tuple_initialization_finish :
  forall SGF tupleInit eltInits eltPlans eltTypes st,
    length eltTypes = length eltPlans ->
    (forall rv st',
        finish SGF (TupleInitializationResultPlan tupleInit eltInits eltPlans)
               (TupleType eltTypes) st = Done (rv, st') <->
        exists mid,
          FinishedInOrder SGF eltPlans eltTypes st mid
          /\ rv = RValue_used
          /\ st' = mkFinishState (directResults mid)
                     (emitted mid
                        ++ [EvFinishInitialization (initId tupleInit)]))
    /\ (forall done p rest doneTypes t restTypes mid rv st1,
           eltPlans = done ++ p :: rest ->
           eltTypes = doneTypes ++ t :: restTypes ->
           FinishedInOrder SGF done doneTypes st mid ->
           finish SGF p t mid = Done (rv, st1) ->
           isUsed rv = false ->
           finish SGF
                  (TupleInitializationResultPlan tupleInit eltInits eltPlans)
                  (TupleType eltTypes) st
           = Abort SubPlanNotUsed).
Proof.
  intros SGF tupleInit eltInits eltPlans eltTypes st Hlen.
  split.
  - intros rv st'. simpl. unfold bind at 1. simpl.
    rewrite Hlen, Nat.eqb_refl. unfold bind. simpl.
    split.
    + destruct (finishInitElts (finish SGF) eltPlans eltTypes st)
        as [[[] mid]| |] eqn:Hloop; try discriminate.
      intros H. inv H. exists mid. split; [|split; reflexivity].
      apply finishInitElts_in_order; auto.
    + intros (mid & Hord & -> & ->).
      apply finishInitElts_in_order in Hord; auto.
      rewrite Hord. reflexivity.
  - intros done p rest doneTypes t restTypes mid rv st1 -> -> Hord Hp Hu.
    simpl. unfold bind at 1. simpl.
    rewrite Hlen, Nat.eqb_refl. unfold bind at 1. simpl.
    unfold bind at 1.
    rewrite (@finishInitElts_not_used SGF done doneTypes p t rest restTypes
               st mid rv st1 Hord Hp Hu).
    reflexivity.
Qed.

Lemma C6_tuple_initialization_finish_witness :
  exists mid,
    FinishedInOrder Examples.exSGF
      [InPlaceInitializationResultPlan (Examples.dest 2 1);
       ScalarResultPlan None (OpaquePattern 2) (Some (Examples.dest 3 2)) 0]
      [NominalType 1; NominalType 2]
      (mkFinishState [Examples.value 42 2] []) mid
    /\ RValue_used = RValue_used
    /\ mkFinishState []
         [EvFinishInitialization 2;
          EvClaimDirectResult (OpaquePattern 2) (Examples.value 42 2);
          EvCopyOrInitValueInto 3 (Examples.value 42 2);
          EvFinishInitialization 3;
          EvFinishInitialization 1]
       = mkFinishState (directResults mid)
           (emitted mid ++ [EvFinishInitialization 1]).
Proof.
  apply (proj1 (C6_tuple_initialization_finish Examples.exSGF
                  Examples.splittable
                  [Examples.dest 2 1; Examples.dest 3 2]
                  [InPlaceInitializationResultPlan (Examples.dest 2 1);
                   ScalarResultPlan None (OpaquePattern 2)
                                    (Some (Examples.dest 3 2)) 0]
                  [NominalType 1; NominalType 2]
                  (mkFinishState [Examples.value 42 2] [])
                  eq_refl)).
  reflexivity.
Defined.

(** ** What a build does to the builder *)

Lemma skipn_nth_error_cons {A : Type} (l : list A) i x :
  nth_error l i = Some x -> skipn i l = x :: skipn (S i) l.
Proof.
  revert i. induction l as [|y l IH]; intros [|i] H; simpl in *;
    try discriminate.
  - congruence.
  - apply IH. exact H.
Qed.

Lemma combine_app_same {A B : Type} (xs1 xs2 : list A) (ys1 ys2 : list B) :
  length xs1 = length ys1 ->
  combine (xs1 ++ xs2) (ys1 ++ ys2) = combine xs1 ys1 ++ combine xs2 ys2.
Proof.
  revert ys1. induction xs1 as [|x xs1 IH]; intros [|y ys1] H;
    simpl in *; try discriminate; auto.
  f_equal. apply IH. congruence.
Qed.

Lemma BuildSpec_nil st : BuildSpec [] st [] st.
Proof.
  exists []. simpl. rewrite app_nil_r. repeat split. constructor.
Qed.

Lemma BuildSpec_app os1 os2 st st1 st2 ls1 ls2 :
  BuildSpec os1 st ls1 st1 ->
  BuildSpec os2 st1 ls2 st2 ->
  BuildSpec (os1 ++ os2) st (ls1 ++ ls2) st2.
Proof.
  intros (d1 & Hq1 & Hl1 & Ha1 & Hf1) (d2 & Hq2 & Hl2 & Ha2 & Hf2).
  exists (d1 ++ d2). repeat split.
  - rewrite Hq1, Hq2, app_assoc. reflexivity.
  - rewrite !length_app. congruence.
  - rewrite Ha2, Ha1, flat_map_app, app_assoc. reflexivity.
  - rewrite combine_app_same by (symmetry; exact Hl1).
    apply Forall2_app; assumption.
Qed.

Lemma forEachElement_cons_inv {St A : Type} (body : nat -> CanType -> M St A)
      i t ts st r st' :
  forEachElement body i (t :: ts) st = Done (r, st') ->
  exists a st1 rest,
    body i t st = Done (a, st1) /\
    forEachElement body (S i) ts st1 = Done (rest, st') /\
    r = a :: rest.
Proof.
  simpl. unfold bind.
  destruct (body i t st) as [[a st1]| |]; try discriminate.
  destruct (forEachElement body (S i) ts st1) as [[rest st2]| |] eqn:Hrest;
    try discriminate.
  unfold ret. intros H. inv H. exists a, st1, rest. auto.
Qed.

(** The element loop of the two tuple plans. *)
Lemma forEachElement_spec (body : nat -> CanType -> Builder ResultPlan)
      (origElts : list AbstractionPattern) (Q : ResultPlan -> bool) :
  (forall i t st p st',
      body i t st = Done (p, st') ->
      exists o,
        nth_error origElts i = Some o /\
        BuildSpec (map fst (flattenAlong o t)) st (leafPlans p) st' /\
        planFits p t = true /\ Q p = true) ->
  forall ts i st plans st',
    forEachElement body i ts st = Done (plans, st') ->
    BuildSpec (map fst (flatZipWith flattenAlong (skipn i origElts) ts))
              st (flat_map leafPlans plans) st' /\
    forallb2 planFits plans ts = true /\
    forallb Q plans = true.
Proof.
  intros Hbody. induction ts as [|t ts IH]; intros i st plans st' H.
  - simpl in H. unfold ret in H. inv H.
    replace (flatZipWith flattenAlong (skipn i origElts) []) with
      (@nil (AbstractionPattern * CanType)) by (destruct (skipn i origElts); reflexivity).
    simpl. repeat split. apply BuildSpec_nil.
  - apply forEachElement_cons_inv in H.
    destruct H as (p & st1 & rest & Hp & Hrest & ->).
    apply Hbody in Hp. destruct Hp as (o & Ho & Hspec & Hfit & HQ).
    apply IH in Hrest. destruct Hrest as (Hspec' & Hfits & HQs).
    rewrite (skipn_nth_error_cons _ _ Ho). simpl.
    rewrite map_app. rewrite Hfit, Hfits, HQ, HQs.
    repeat split. eapply BuildSpec_app; eauto.
Qed.

Lemma leafFor_inPlace i initAddr result o :
  getAddressForInPlaceInitialization i = Some initAddr ->
  isSILIndirect result = true ->
  leafFor (InPlaceInitializationResultPlan i) (o, result).
Proof.
  intros Ha Hi. unfold leafFor. simpl. rewrite Ha, Hi. auto.
Qed.

Lemma buildLeaf_spec SGF rep init origType st plan st' :
  isTuple origType = false ->
  buildLeaf SGF rep init origType st = Done (plan, st') ->
  BuildSpec [origType] st (leafPlans plan) st' /\
  isLeafPlan plan = true /\
  leafInit plan = init.
Proof.
  intros Hleaf H.
  destruct st as [results addrs temps].
  destruct results as [|result rest]; [discriminate|].
  destruct (takesFastPath SGF rep init result) eqn:Hfast.
  - pose proof Hfast as Hfast'. unfold takesFastPath in Hfast'.
    destruct init as [i|]; [|discriminate].
    destruct (getAddressForInPlaceInitialization i) as [a|] eqn:Ha;
      [|discriminate].
    rewrite (buildLeaf_fast SGF rep origType result rest addrs temps
               eq_refl Ha Hfast) in H.
    inv H. split; [|split; reflexivity].
    exists [result]. simpl. rewrite Ha. repeat split.
    constructor; [|constructor].
    apply andb_prop in Hfast'. destruct Hfast' as [Hi _].
    eapply leafFor_inPlace; eauto.
  - rewrite buildLeaf_slow, buildScalar_eq in H by assumption.
    destruct (isSILIndirect result) eqn:Hi; simpl in H; inv H;
      (split; [|split; reflexivity]);
      exists [result]; simpl; repeat split;
      try (rewrite app_nil_r; reflexivity);
      (constructor; [|constructor]); unfold leafFor; simpl; rewrite Hi; auto.
Qed.

Lemma leaf_plan_shape plan init substType :
  isLeafPlan plan = true ->
  leafInit plan = init ->
  planFits plan substType = true /\
  match init with
  | Some _ => hasDestination plan = true
  | None => isRValuePlan plan = true
  end.
Proof.
  intros Hleaf <-. destruct plan; try discriminate; simpl; auto.
  destruct init; auto.
Qed.

(** A successful build took one descriptor per leaf of the flattening and
    produced a plan of the right shape. *)
Lemma build_spec SGF rep fuel :
  (forall init o s st plan st',
      build SGF rep fuel init o s st = Done (plan, st') ->
      BuildSpec (map fst (flattenAlong o s)) st (leafPlans plan) st' /\
      planFits plan s = true /\
      match init with
      | Some _ => hasDestination plan = true
      | None => isRValuePlan plan = true
      end)
  /\
  (forall init os ss st plan st',
      buildForTuple SGF rep fuel init (TuplePattern os) ss st
      = Done (plan, st') ->
      BuildSpec (map fst (flatZipWith flattenAlong os ss)) st
                (leafPlans plan) st' /\
      planFits plan (TupleType ss) = true /\
      match init with
      | Some _ => hasDestination plan = true
      | None => isRValuePlan plan = true
      end).
Proof.
  induction fuel as [|fuel [IHb IHt]].
  - split; intros; discriminate.
  - split.
    + intros init o s st plan st' H. destruct o as [name|os].
      * rewrite build_leaf_eq in H by reflexivity.
        apply buildLeaf_spec in H; [|reflexivity].
        destruct H as (Hspec & Hleaf & Hinit).
        destruct (leaf_plan_shape plan s Hleaf Hinit). auto.
      * destruct s as [n|ss]; [discriminate|].
        rewrite build_tuple_eq in H. apply IHt in H. exact H.
    + intros init os ss st plan st' H. simpl in H.
      destruct init as [tupleInit|].
      * destruct (canSplitIntoTupleElements tupleInit).
        -- unfold bind in H.
           destruct (forEachElement _ 0 ss st) as [[plans st1]| |] eqn:Hloop;
             try discriminate.
           inv H.
           eapply (forEachElement_spec _ os hasDestination) in Hloop.
           ++ destruct Hloop as (Hspec & Hfits & Hdest). simpl.
              rewrite Hfits, Hdest. auto.
           ++ intros i t s0 p s1 H. unfold bind in H.
              simpl in H.
              destruct (nth_error os i) as [o|]; [|discriminate].
              simpl in H.
              destruct (nth_error (splitIntoTupleElements tupleInit) i)
                as [e|]; [|discriminate].
              simpl in H. apply IHb in H. destruct H as (? & ? & ?).
              exists o. auto.
        -- destruct (isAddressOnly (getTypeLowering SGF (TupleType ss))).
           ++ unfold bind, emitTemporaryM in H.
              destruct (buildForTuple SGF rep fuel _ _ ss _)
                as [[subplan st1]| |] eqn:Hsub; try discriminate.
              inv H. apply IHt in Hsub.
              destruct Hsub as (Hspec & Hfits & Hdest). simpl.
              rewrite Hfits, Hdest. auto.
           ++ unfold bind in H.
              destruct (buildForTuple SGF rep fuel None _ ss st)
                as [[subplan st1]| |] eqn:Hsub; try discriminate.
              inv H. apply IHt in Hsub.
              destruct Hsub as (Hspec & Hfits & Hdest). simpl. auto.
      * unfold bind in H.
        destruct (forEachElement _ 0 ss st) as [[plans st1]| |] eqn:Hloop;
          try discriminate.
        inv H.
        eapply (forEachElement_spec _ os isRValuePlan) in Hloop.
        -- destruct Hloop as (Hspec & Hfits & Hdest). simpl. auto.
        -- intros i t s0 p s1 H. unfold bind in H. simpl in H.
           destruct (nth_error os i) as [o|]; [|discriminate].
           simpl in H. apply IHb in H. destruct H as (? & ? & ?).
           exists o. auto.
Qed.

(** ** What a finish does to the cursor and the trace *)

Lemma flat_map_nested {A B C : Type} (f : B -> list C) (g : A -> list B) l :
  flat_map f (flat_map g l) = flat_map (fun x => flat_map f (g x)) l.
Proof.
  induction l as [|x l IH]; simpl; [reflexivity|].
  rewrite flat_map_app, IH. reflexivity.
Qed.

Lemma finishedInits_app t1 t2 :
  finishedInits (t1 ++ t2) = finishedInits t1 ++ finishedInits t2.
Proof. apply flat_map_app. Qed.

Lemma claimedResults_app t1 t2 :
  claimedResults (t1 ++ t2) = claimedResults t1 ++ claimedResults t2.
Proof. apply flat_map_app. Qed.

Lemma FinishStep_refl st : FinishStep [] [] st st.
Proof.
  exists [], []. simpl. rewrite app_nil_r. auto.
Qed.

Lemma FinishStep_seq o1 i1 o2 i2 origs inits st st1 st2 :
  FinishStep o1 i1 st st1 ->
  FinishStep o2 i2 st1 st2 ->
  origs = o1 ++ o2 ->
  inits = i1 ++ i2 ->
  FinishStep origs inits st st2.
Proof.
  intros (k1 & e1 & Hd1 & Hl1 & He1 & Hc1 & Hf1)
         (k2 & e2 & Hd2 & Hl2 & He2 & Hc2 & Hf2) -> ->.
  exists (k1 ++ k2), (e1 ++ e2). repeat split.
  - rewrite Hd1, Hd2, app_assoc. reflexivity.
  - rewrite !length_app. congruence.
  - rewrite He2, He1, app_assoc. reflexivity.
  - rewrite claimedResults_app, Hc1, Hc2.
    symmetry. apply combine_app_same. congruence.
  - rewrite finishedInits_app. congruence.
Qed.

Lemma FinishStep_emit e st r st' :
  emit e st = Done (r, st') ->
  claimedResults [e] = [] ->
  FinishStep [] (finishedInits [e]) st st'.
Proof.
  unfold emit. intros H Hc. inv H.
  exists [], [e]. simpl. auto.
Qed.

Lemma finishInitialization_step init st r st' :
  finishInitialization init st = Done (r, st') ->
  FinishStep [] [initId init] st st'.
Proof.
  intros H. apply FinishStep_emit in H; auto.
Qed.

Lemma copyOrInitValueInto_step init value st r st' :
  copyOrInitValueInto init value st = Done (r, st') ->
  FinishStep [] [] st st'.
Proof.
  intros H. apply FinishStep_emit in H; auto.
Qed.

Lemma claimDirectResult_step origType st value st' :
  claimDirectResult origType st = Done (value, st') ->
  FinishStep [origType] [] st st'.
Proof.
  unfold claimDirectResult. destruct (directResults st) as [|v rest] eqn:Hd;
    [discriminate|].
  intros H. inv H.
  exists [value], [EvClaimDirectResult origType value]. simpl. auto.
Qed.

Lemma bind_inv {St A B : Type} (m : M St A) (k : A -> M St B) st b st' :
  bind m k st = Done (b, st') ->
  exists a st1, m st = Done (a, st1) /\ k a st1 = Done (b, st').
Proof.
  unfold bind. destruct (m st) as [[a st1]| |]; try discriminate.
  eauto.
Qed.

Lemma claimValue_step SGF temporary origType substTL st value st' :
  claimValue SGF temporary origType substTL st = Done (value, st') ->
  FinishStep (match temporary with Some _ => [] | None => [origType] end)
             (match temporary with
              | Some t => [initId (asInitialization t)]
              | None => []
              end) st st'.
Proof.
  destruct temporary as [t|]; simpl.
  - intros H. apply bind_inv in H. destruct H as ([] & st1 & Hf & H).
    apply finishInitialization_step in Hf.
    eapply FinishStep_seq; [exact Hf| |reflexivity|reflexivity].
    destruct (isAddressOnly substTL); simpl in H.
    + inv H. apply FinishStep_refl.
    + unfold emitLoadM in H. apply bind_inv in H.
      destruct H as ([] & st2 & He & H). inv H.
      apply FinishStep_emit in He; auto.
  - apply claimDirectResult_step.
Qed.

Lemma storeValue_step init substType value st rv st' :
  storeValue init substType value st = Done (rv, st') ->
  FinishStep [] (match init with Some i => [initId i] | None => [] end)
             st st' /\
  match init with
  | Some _ => rv = RValue_used
  | None => rv = RValue_ofValue substType value
  end.
Proof.
  destruct init as [i|]; simpl; intros H.
  - apply bind_inv in H. destruct H as ([] & st1 & Hc & H).
    apply bind_inv in H. destruct H as ([] & st2 & Hf & H). inv H.
    split; [|reflexivity].
    apply copyOrInitValueInto_step in Hc.
    apply finishInitialization_step in Hf.
    eapply FinishStep_seq; eauto.
  - inv H. split; [apply FinishStep_refl | reflexivity].
Qed.

Lemma emitOrigToSubstValueM_step SGF value origType substType init st
      value' st' :
  emitOrigToSubstValueM SGF value origType substType init st
  = Done (value', st') ->
  value' = emitOrigToSubstValue SGF value origType substType init /\
  FinishStep []
    (match init with
     | Some i => if isInContext value' then [initId i] else []
     | None => []
     end) st st'.
Proof.
  unfold emitOrigToSubstValueM. intros H.
  apply bind_inv in H. destruct H as ([] & st1 & He & H).
  apply bind_inv in H. destruct H as ([] & st2 & Hf & H). inv H.
  split; [reflexivity|].
  apply FinishStep_emit in He; auto. simpl in He.
  eapply FinishStep_seq; [exact He| |reflexivity|reflexivity].
  destruct init as [i|].
  - destruct (isInContext _).
    + apply finishInitialization_step in Hf. exact Hf.
    + inv Hf. apply FinishStep_refl.
  - inv Hf. apply FinishStep_refl.
Qed.

Lemma finishScalar_spec SGF temporary origType init rep substType st rv st' :
  finishScalar SGF temporary origType init rep substType st = Done (rv, st') ->
  FinishSpec (ScalarResultPlan temporary origType init rep) st rv st'.
Proof.
  unfold finishScalar. intros H.
  apply bind_inv in H. destruct H as (value & st1 & Hclaim & H).
  apply claimValue_step in Hclaim.
  assert (Hrest :
            FinishStep [] (match init with
                           | Some i => [initId i]
                           | None => []
                           end) st1 st' /\
            (hasDestination (ScalarResultPlan temporary origType init rep)
             = true -> isUsed rv = true)).
  { destruct (hasAbstractionDifference SGF _ rep _).
    - destruct (getSILFunctionLanguage SGF rep).
      + apply bind_inv in H. destruct H as (value' & st2 & Hr & H).
        apply emitOrigToSubstValueM_step in Hr. destruct Hr as [Hv Hr].
        destruct (isInContext value') eqn:Hctx.
        * inv H. split; [|reflexivity].
          destruct init; [exact Hr|]. exact Hr.
        * apply storeValue_step in H. destruct H as [Hs Hrv].
          split.
          -- eapply FinishStep_seq; [exact Hr|exact Hs|reflexivity|].
             destruct init; reflexivity.
          -- destruct init; [subst; reflexivity|discriminate].
      + apply bind_inv in H. destruct H as (value' & st2 & Hb & H).
        unfold emitBridgedToNativeValueM in Hb.
        apply bind_inv in Hb. destruct Hb as ([] & st3 & He & Hb). inv Hb.
        apply FinishStep_emit in He; auto. simpl in He.
        apply storeValue_step in H. destruct H as [Hs Hrv].
        split.
        * eapply FinishStep_seq; [exact He|exact Hs|reflexivity|reflexivity].
        * destruct init; [subst; reflexivity|discriminate].
    - apply storeValue_step in H. destruct H as [Hs Hrv].
      split; [exact Hs|].
      destruct init; [subst; reflexivity|discriminate]. }
  destruct Hrest as [Hrest Hused]. split; [|exact Hused].
  eapply FinishStep_seq; [exact Hclaim|exact Hrest| |].
  - unfold directOrigs. simpl. destruct temporary; reflexivity.
  - simpl. reflexivity.
Qed.

Lemma assertM_inv {St : Type} (cond : bool) d (st : St) r st' :
  assertM cond d st = Done (r, st') -> cond = true /\ st' = st.
Proof.
  unfold assertM. destruct cond; [|discriminate].
  intros H. inv H. auto.
Qed.

Lemma orAbort_inv {St A : Type} d (o : option A) (st : St) a st' :
  orAbort d o st = Done (a, st') -> o = Some a /\ st' = st.
Proof.
  destruct o; [|discriminate]. intros H. inv H. auto.
Qed.

Lemma finishRValueElts_spec SGF eltPlans :
  Forall (fun p => forall ty st rv st',
              finish SGF p ty st = Done (rv, st') -> FinishSpec p st rv st')
         eltPlans ->
  forall eltTypes tupleRV st rv st',
    length eltTypes = length eltPlans ->
    finishRValueElts (finish SGF) eltPlans eltTypes tupleRV st
    = Done (rv, st') ->
    FinishStep (flat_map directOrigs eltPlans)
               (flat_map planFinishes eltPlans) st st'.
Proof.
  induction 1 as [|p ps Hp _ IH]; intros [|t ts] tupleRV st rv st' Hlen H;
    try discriminate Hlen.
  - inv H. apply FinishStep_refl.
  - simpl in H. apply bind_inv in H. destruct H as (eltRV & st1 & He & H).
    apply Hp in He. destruct He as [He _].
    apply IH in H; [|simpl in Hlen; congruence].
    eapply FinishStep_seq; eauto.
Qed.

Lemma finishInitElts_spec SGF eltPlans :
  Forall (fun p => forall ty st rv st',
              finish SGF p ty st = Done (rv, st') -> FinishSpec p st rv st')
         eltPlans ->
  forall eltTypes st r st',
    length eltTypes = length eltPlans ->
    finishInitElts (finish SGF) eltPlans eltTypes st = Done (r, st') ->
    FinishStep (flat_map directOrigs eltPlans)
               (flat_map planFinishes eltPlans) st st'.
Proof.
  induction 1 as [|p ps Hp _ IH]; intros [|t ts] st r st' Hlen H;
    try discriminate Hlen.
  - inv H. apply FinishStep_refl.
  - simpl in H. apply bind_inv in H. destruct H as (eltRV & st1 & He & H).
    apply bind_inv in H. destruct H as ([] & st2 & Ha & H).
    apply assertM_inv in Ha. destruct Ha as [_ ->].
    apply Hp in He. destruct He as [He _].
    apply IH in H; [|simpl in Hlen; congruence].
    eapply FinishStep_seq; eauto.
Qed.

(** A successful finish took one direct result per direct leaf, in the
    order of the leaves, finished each initialization of the plan once,
    and returned a used r-value if the plan has a destination. *)
Lemma finish_spec SGF plan :
  forall ty st rv st',
    finish SGF plan ty st = Done (rv, st') -> FinishSpec plan st rv st'.
Proof.
  induction plan using ResultPlan_nested_ind; intros ty st rv st' Hfin.
  - simpl in Hfin. apply bind_inv in Hfin.
    destruct Hfin as ([] & st1 & Hf & Hfin). inv Hfin.
    split; [|reflexivity]. apply finishInitialization_step in Hf. exact Hf.
  - apply finishScalar_spec in Hfin. exact Hfin.
  - simpl in Hfin. apply bind_inv in Hfin.
    destruct Hfin as (subResult & st1 & Hsub & Hfin).
    apply bind_inv in Hfin. destruct Hfin as ([] & st2 & Ha & Hfin).
    apply assertM_inv in Ha. destruct Ha as [_ ->].
    apply bind_inv in Hfin. destruct Hfin as ([] & st3 & Hc & Hfin).
    apply bind_inv in Hfin. destruct Hfin as ([] & st4 & Hf & Hfin).
    inv Hfin. split; [|reflexivity].
    apply IHplan in Hsub. destruct Hsub as [Hsub _].
    apply copyOrInitValueInto_step in Hc.
    apply finishInitialization_step in Hf.
    eapply FinishStep_seq; [exact Hsub| |symmetry; apply app_nil_r|reflexivity].
    eapply FinishStep_seq; eauto.
  - simpl in Hfin. apply bind_inv in Hfin.
    destruct Hfin as (subResult & st1 & Hsub & Hfin).
    apply bind_inv in Hfin. destruct Hfin as ([] & st2 & He & Hfin).
    apply bind_inv in Hfin. destruct Hfin as ([] & st3 & Hc & Hfin).
    apply bind_inv in Hfin. destruct Hfin as ([] & st4 & Hf & Hfin).
    inv Hfin. split; [|reflexivity].
    apply IHplan in Hsub. destruct Hsub as [Hsub _].
    apply FinishStep_emit in He; auto. simpl in He.
    apply copyOrInitValueInto_step in Hc.
    apply finishInitialization_step in Hf.
    eapply FinishStep_seq; [exact Hsub| |symmetry; apply app_nil_r|reflexivity].
    eapply FinishStep_seq; [exact He| |reflexivity|reflexivity].
    eapply FinishStep_seq; eauto.
  - simpl in Hfin. apply bind_inv in Hfin.
    destruct Hfin as (tys & st1 & Hc & Hfin).
    apply orAbort_inv in Hc. destruct Hc as [Hc ->].
    apply bind_inv in Hfin. destruct Hfin as ([] & st2 & Ha & Hfin).
    apply assertM_inv in Ha. destruct Ha as [Hlen ->].
    apply Nat.eqb_eq in Hlen.
    split; [|discriminate].
    eapply finishRValueElts_spec in Hfin; eauto.
    unfold directOrigs. simpl. rewrite flat_map_nested. exact Hfin.
  - simpl in Hfin. apply bind_inv in Hfin.
    destruct Hfin as (tys & st1 & Hc & Hfin).
    apply orAbort_inv in Hc. destruct Hc as [Hc ->].
    apply bind_inv in Hfin. destruct Hfin as ([] & st2 & Ha & Hfin).
    apply assertM_inv in Ha. destruct Ha as [Hlen ->].
    apply Nat.eqb_eq in Hlen.
    apply bind_inv in Hfin. destruct Hfin as ([] & st3 & Hloop & Hfin).
    apply bind_inv in Hfin. destruct Hfin as ([] & st4 & Hf & Hfin).
    inv Hfin. split; [|reflexivity].
    eapply finishInitElts_spec in Hloop; eauto.
    apply finishInitialization_step in Hf.
    eapply FinishStep_seq; [exact Hloop|exact Hf| |reflexivity].
    unfold directOrigs. simpl. rewrite flat_map_nested, app_nil_r.
    reflexivity.
Qed.

(** ** Plans built without a destination *)



(** ** Finishing a plan of the right shape returns *)

Lemma forallb2_length {A B : Type} (f : A -> B -> bool) xs ys :
  forallb2 f xs ys = true -> length xs = length ys.
Proof.
  revert ys. induction xs as [|x xs IH]; intros [|y ys] H; simpl in *;
    try discriminate; auto.
  apply andb_prop in H. destruct H. f_equal. auto.
Qed.

Lemma finishScalar_total SGF temporary origType init rep substType st :
  length (directOrigs (ScalarResultPlan temporary origType init rep))
  <= length (directResults st) ->
  exists rv st',
    finishScalar SGF temporary origType init rep substType st
    = Done (rv, st').
Proof.
  intros Hlen. unfold finishScalar, bind.
  assert (Hclaim : exists value st1,
             claimValue SGF temporary origType
                        (getTypeLowering SGF substType) st
             = Done (value, st1)).
  { destruct temporary as [t|]; simpl.
    - unfold bind, finishInitialization, emit. simpl.
      destruct (isAddressOnly (getTypeLowering SGF substType)); simpl;
        unfold emitLoadM, bind, emit, ret; simpl; eauto.
    - unfold claimDirectResult.
      destruct (directResults st); [simpl in Hlen; lia|]. eauto. }
  destruct Hclaim as (value & st1 & ->).
  assert (Hstore : forall v s, exists rv st',
               storeValue init substType v s = Done (rv, st')).
  { intros v s. destruct init; simpl;
      unfold bind, copyOrInitValueInto, finishInitialization, emit, ret;
      simpl; eauto. }
  destruct (hasAbstractionDifference SGF _ rep _); [|apply Hstore].
  destruct (getSILFunctionLanguage SGF rep).
  - unfold emitOrigToSubstValueM, bind, finishInitialization, emit, ret.
    simpl.
    destruct init as [i|]; simpl.
    + destruct (isInContext _) eqn:Hc; simpl; rewrite ?Hc; eauto.
    + destruct (isInContext _) eqn:Hc; simpl; eauto.
  - unfold emitBridgedToNativeValueM, bind, emit, ret. simpl. apply Hstore.
Qed.

Lemma FinishStep_remaining origs inits st st' :
  FinishStep origs inits st st' ->
  length (directResults st) = length origs + length (directResults st').
Proof.
  intros (taken & events & Hd & Hl & _). rewrite Hd, length_app. lia.
Qed.

Lemma finishRValueElts_total SGF eltPlans :
  Forall (FinishReturns SGF) eltPlans ->
  forall eltTypes tupleRV st,
    forallb2 planFits eltPlans eltTypes = true ->
    length (flat_map directOrigs eltPlans) <= length (directResults st) ->
    exists rv st',
      finishRValueElts (finish SGF) eltPlans eltTypes tupleRV st
      = Done (rv, st').
Proof.
  induction 1 as [|p ps Hp _ IH]; intros [|t ts] tupleRV st Hfits Hlen;
    try discriminate Hfits.
  - simpl. unfold ret. eauto.
  - simpl in Hfits. apply andb_prop in Hfits. destruct Hfits as [Hfit Hfits].
    simpl in Hlen. rewrite length_app in Hlen.
    destruct (Hp t st Hfit) as (eltRV & st1 & He); [lia|].
    simpl. unfold bind. rewrite He.
    apply finish_spec in He. destruct He as [He _].
    apply FinishStep_remaining in He.
    apply IH; auto. lia.
Qed.

Lemma finishInitElts_total SGF eltPlans :
  Forall (FinishReturns SGF) eltPlans ->
  forall eltTypes st,
    forallb hasDestination eltPlans = true ->
    forallb2 planFits eltPlans eltTypes = true ->
    length (flat_map directOrigs eltPlans) <= length (directResults st) ->
    exists st',
      finishInitElts (finish SGF) eltPlans eltTypes st = Done (tt, st').
Proof.
  induction 1 as [|p ps Hp _ IH]; intros [|t ts] st Hdest Hfits Hlen;
    try discriminate Hfits.
  - simpl. unfold ret. eauto.
  - simpl in Hfits. apply andb_prop in Hfits. destruct Hfits as [Hfit Hfits].
    simpl in Hdest. apply andb_prop in Hdest. destruct Hdest as [Hd Hdest].
    simpl in Hlen. rewrite length_app in Hlen.
    destruct (Hp t st Hfit) as (eltRV & st1 & He); [lia|].
    simpl. unfold bind. rewrite He.
    apply finish_spec in He. destruct He as [He Hused].
    apply FinishStep_remaining in He.
    rewrite (Hused Hd). simpl.
    apply IH; auto. lia.
Qed.

(** Finishing a plan of the right shape for the type, with a direct
    result for each direct leaf, returns. *)
Lemma finish_total SGF plan : FinishReturns SGF plan.
Proof.
  induction plan using ResultPlan_nested_ind; intros ty st Hfits Hlen.
  - simpl. unfold bind, finishInitialization, emit, ret. simpl. eauto.
  - apply finishScalar_total. exact Hlen.
  - simpl in Hfits. apply andb_prop in Hfits. destruct Hfits as [Hd Hfits].
    destruct (IHplan ty st Hfits Hlen) as (subResult & st1 & Hsub).
    simpl. unfold bind. rewrite Hsub.
    apply finish_spec in Hsub. destruct Hsub as [_ Hused].
    rewrite (Hused Hd). simpl.
    unfold copyOrInitValueInto, finishInitialization, emit, ret. simpl. eauto.
  - simpl in Hfits.
    destruct (IHplan ty st Hfits Hlen) as (subResult & st1 & Hsub).
    simpl. unfold bind. rewrite Hsub.
    unfold copyOrInitValueInto, finishInitialization, emit, ret. simpl. eauto.
  - simpl in Hfits. destruct ty as [n|tys]; [discriminate|].
    simpl. unfold bind. simpl.
    rewrite <- (forallb2_length _ _ _ Hfits), Nat.eqb_refl. simpl.
    apply finishRValueElts_total; auto.
    unfold directOrigs in Hlen. simpl in Hlen.
    rewrite flat_map_nested in Hlen. exact Hlen.
  - simpl in Hfits. destruct ty as [n|tys]; [discriminate|].
    apply andb_prop in Hfits. destruct Hfits as [Hdest Hfits].
    simpl. unfold bind. simpl.
    rewrite <- (forallb2_length _ _ _ Hfits), Nat.eqb_refl. simpl.
    destruct (finishInitElts_total H tys st Hdest Hfits) as (st1 & ->).
    + unfold directOrigs in Hlen. simpl in Hlen.
      rewrite flat_map_nested in Hlen. exact Hlen.
    + unfold finishInitialization, emit, ret. simpl. eauto.
Qed.

(** ** Well-formed calls *)

Lemma flatZipWith_flattenOrig (origElts : list AbstractionPattern)
      (substElts : list CanType) :
  length origElts = length substElts ->
  (forall i o s,
      nth_error origElts i = Some o ->
      nth_error substElts i = Some s ->
      map fst (flattenAlong o s) = flattenOrig o) ->
  map fst (flatZipWith flattenAlong origElts substElts)
  = flat_map flattenOrig origElts.
Proof.
  revert substElts.
  induction origElts as [|o os IH]; intros [|s ss] Hlen H;
    try discriminate Hlen; [reflexivity|].
  simpl. rewrite map_app. f_equal.
  - apply (H 0); reflexivity.
  - apply IH; [simpl in Hlen; congruence|].
    intros i o' s' Ho Hs. apply (H (S i)); assumption.
Qed.

Lemma nth_error_defined {A : Type} (l : list A) i :
  i < length l -> exists x, nth_error l i = Some x.
Proof.
  intros H. destruct (nth_error l i) as [x|] eqn:E; [eauto|].
  apply nth_error_None in E. lia.
Qed.

Lemma nth_error_bound {A : Type} (l : list A) i x :
  nth_error l i = Some x -> i < length l.
Proof.
  intros H. apply nth_error_Some. congruence.
Qed.

(** For a well-formed call the flattening along the pattern has exactly
    the pattern's leaves. *)
Lemma WellFormed_flatten SGF init o s :
  WellFormed SGF init o s ->
  map fst (flattenAlong o s) = flattenOrig o.
Proof.
  induction 1 as [init name s
                 |os ss Hlen _ IH
                 |init os ss Hsplit Hlen Hinits _ IH
                 |init os ss Hsplit Haddr Htemp _ IH
                 |init os ss Hsplit Haddr _ IH].
  - reflexivity.
  - simpl. apply flatZipWith_flattenOrig; auto.
  - simpl. apply flatZipWith_flattenOrig; auto.
    intros i o s Ho Hs.
    destruct (@nth_error_defined _ (splitIntoTupleElements init) i)
      as [e He].
    { apply nth_error_bound in Hs. lia. }
    eapply IH; eauto.
  - exact (IH 0).
  - exact IH.
Qed.

Lemma fuelFor_element os i o :
  nth_error os i = Some o ->
  fuelFor o <= list_max (map fuelFor os).
Proof.
  intros H.
  assert (Hall : Forall (fun k => k <= list_max (map fuelFor os))
                        (map fuelFor os)).
  { apply list_max_le. lia. }
  rewrite Forall_forall in Hall. apply Hall.
  apply in_map. eapply nth_error_In; eauto.
Qed.

Lemma BuildSpec_remaining os st leaves st' :
  BuildSpec os st leaves st' ->
  length (allResults st) = length os + length (allResults st').
Proof.
  intros (descs & Hq & Hl & _). rewrite Hq, length_app. lia.
Qed.

(** The element loop returns when each element build does. *)
Lemma forEachElement_total (body : nat -> CanType -> Builder ResultPlan)
      (origElts : list AbstractionPattern) :
  forall ts i st,
    (forall k t,
        nth_error ts k = Some t ->
        exists o,
          nth_error origElts (i + k) = Some o /\
          forall st0,
            length (flattenOrig o) <= length (allResults st0) ->
            exists p st1,
              body (i + k) t st0 = Done (p, st1) /\
              length (allResults st0)
              = length (flattenOrig o) + length (allResults st1)) ->
    length (flat_map flattenOrig (firstn (length ts) (skipn i origElts)))
    <= length (allResults st) ->
    exists plans st', forEachElement body i ts st = Done (plans, st').
Proof.
  induction ts as [|t ts IH]; intros i st Helt Hlen.
  - simpl. unfold ret. eauto.
  - destruct (Helt 0 t eq_refl) as (o & Ho & Hbody).
    rewrite Nat.add_0_r in Ho, Hbody.
    rewrite (skipn_nth_error_cons _ _ Ho) in Hlen.
    cbn [length firstn flat_map] in Hlen.
    rewrite length_app in Hlen.
    destruct (Hbody st) as (p & st1 & Hp & Hrem); [lia|].
    simpl. unfold bind. rewrite Hp.
    destruct (IH (S i) st1) as (plans & st2 & Hloop).
    + intros k t' Ht'. destruct (Helt (S k) t' Ht') as (o' & Ho' & Hb').
      rewrite Nat.add_succ_r in Ho', Hb'. exists o'. auto.
    + lia.
    + rewrite Hloop. unfold ret. eauto.
Qed.

Lemma buildLeaf_total SGF rep init origType st :
  1 <= length (allResults st) ->
  exists plan st', buildLeaf SGF rep init origType st = Done (plan, st').
Proof.
  destruct st as [[|result rest] addrs temps]; simpl; [lia|]. intros _.
  destruct (takesFastPath SGF rep init result) eqn:Hfast.
  - pose proof Hfast as Hfast'. unfold takesFastPath in Hfast'.
    destruct init as [i|]; [|discriminate].
    destruct (getAddressForInPlaceInitialization i) as [a|] eqn:Ha;
      [|discriminate].
    rewrite (buildLeaf_fast SGF rep origType result rest addrs temps
               eq_refl Ha Hfast). eauto.
  - rewrite buildLeaf_slow, buildScalar_eq by assumption.
    destruct (isSILIndirect result); simpl; eauto.
Qed.

Lemma firstn_length_all {A : Type} (l : list A) n :
  n = length l -> firstn n (skipn 0 l) = l.
Proof. intros ->. simpl. apply firstn_all. Qed.

(** For a well-formed call, build returns once the fuel covers the depth
    of the pattern and the queue holds a descriptor for each leaf. *)
Lemma build_total SGF rep init o s :
  WellFormed SGF init o s -> BuildReturns SGF rep init o s.
Proof.
  induction 1 as [init name s
                 |os ss Hlen Hwf IH
                 |init os ss Hsplit Hlen Hinits Hwf IH
                 |init os ss Hsplit Haddr Htemp Hwf IH
                 |init os ss Hsplit Haddr Hwf IH];
    intros fuel st Hfuel Hres.
  - destruct fuel as [|fuel]; [simpl in Hfuel; lia|].
    rewrite build_leaf_eq by reflexivity.
    apply buildLeaf_total. exact Hres.
  - simpl in Hfuel. destruct fuel as [|[|fuel]]; try lia.
    rewrite build_tuple_eq. simpl. unfold bind.
    match goal with
    | |- context [forEachElement ?body 0 ss st] =>
        destruct (forEachElement_total body os ss 0 st)
          as (plans & st' & ->)
    end.
    + intros k t Ht.
      destruct (@nth_error_defined _ os k) as [o Ho].
      { apply nth_error_bound in Ht. lia. }
      exists o. split; [exact Ho|]. intros st0 Hst0.
      unfold bind. simpl. rewrite Ho. simpl.
      destruct (IH k o t Ho Ht fuel st0) as (p & st1 & Hp); auto.
      { pose proof (fuelFor_element _ _ Ho). lia. }
      exists p, st1. split; [exact Hp|].
      apply build_spec in Hp. destruct Hp as [Hp _].
      apply BuildSpec_remaining in Hp.
      rewrite (WellFormed_flatten (Hwf k o t Ho Ht)) in Hp. exact Hp.
    + rewrite firstn_length_all by congruence. exact Hres.
    + unfold ret. eauto.
  - simpl in Hfuel. rewrite Hsplit in Hfuel.
    destruct fuel as [|[|fuel]]; try lia.
    rewrite build_tuple_eq. simpl. rewrite Hsplit. unfold bind.
    match goal with
    | |- context [forEachElement ?body 0 ss st] =>
        destruct (forEachElement_total body os ss 0 st)
          as (plans & st' & ->)
    end.
    + intros k t Ht.
      destruct (@nth_error_defined _ os k) as [o Ho].
      { apply nth_error_bound in Ht. lia. }
      destruct (@nth_error_defined _ (splitIntoTupleElements init) k)
        as [e He].
      { apply nth_error_bound in Ht. lia. }
      exists o. split; [exact Ho|]. intros st0 Hst0.
      unfold bind. simpl. rewrite Ho. simpl. rewrite He. simpl.
      destruct (IH k e o t He Ho Ht fuel st0) as (p & st1 & Hp); auto.
      { pose proof (fuelFor_element _ _ Ho). lia. }
      exists p, st1. split; [exact Hp|].
      apply build_spec in Hp. destruct Hp as [Hp _].
      apply BuildSpec_remaining in Hp.
      rewrite (WellFormed_flatten (Hwf k e o t He Ho Ht)) in Hp. exact Hp.
    + rewrite firstn_length_all by congruence. exact Hres.
    + unfold ret. eauto.
  - simpl in Hfuel. rewrite Hsplit in Hfuel.
    destruct fuel as [|[|fuel]]; try lia.
    rewrite build_tuple_eq. simpl. rewrite Hsplit, Haddr.
    unfold bind, emitTemporaryM.
    rewrite <- build_tuple_eq.
    destruct (IH (length (temporaries st)) (S fuel)
                 (mkBuilderState (allResults st) (indirectResultAddrs st)
                    (temporaries st ++
                       [emitTemporary SGF (length (temporaries st))
                          (getTypeLowering SGF (TupleType ss))])))
      as (subplan & st' & ->).
    + simpl. rewrite Htemp. lia.
    + exact Hres.
    + unfold ret. eauto.
  - simpl in Hfuel. rewrite Hsplit in Hfuel.
    destruct fuel as [|[|fuel]]; try lia.
    rewrite build_tuple_eq. simpl. rewrite Hsplit, Haddr.
    unfold bind. rewrite <- build_tuple_eq.
    destruct (IH (S fuel) st) as (subplan & st' & ->).
    + simpl. lia.
    + exact Hres.
    + unfold ret. eauto.
Qed.

(** ** Whole calls *)

Lemma app_inv_length {A : Type} (a a' b b' : list A) :
  length a = length a' -> a ++ b = a' ++ b' -> a = a' /\ b = b'.
Proof.
  revert a'. induction a as [|x a IH]; intros [|x' a'] Hlen H;
    simpl in *; try discriminate; auto.
  injection H as -> H. destruct (IH a') as [-> ->]; auto.
Qed.

Lemma directLeaves_length os descs :
  length os = length descs ->
  length (directLeaves os descs) = length (directDescriptors descs).
Proof.
  unfold directLeaves, directDescriptors. rewrite length_map.
  revert descs. induction os as [|o os IH]; intros [|d descs] H;
    simpl in *; try discriminate; auto.
  destruct (isSILIndirect d); simpl; auto.
Qed.

Lemma leafFor_directOrigs leaves positions :
  Forall2 leafFor leaves positions ->
  flat_map leafDirectOrig leaves
  = map fst (filter (fun p => negb (isSILIndirect (snd p))) positions).
Proof.
  induction 1 as [|leaf [o d] leaves positions (Hi & _ & Hk) _ IH];
    [reflexivity|].
  simpl in *. rewrite IH.
  destruct leaf as [i|[t|] o' i r| | | |]; simpl in *; try contradiction;
    rewrite <- Hi; simpl; congruence.
Qed.

(** A well-formed call with a descriptor for each leaf: build returns, it
    has taken exactly these descriptors, one per leaf and in the order of
    the leaves, and the plan has the shape finish expects. *)
Lemma build_call SGF rep init o s descs rest addrs temps fuel :
  WellFormed SGF init o s ->
  length descs = length (flattenOrig o) ->
  fuelFor o <= fuel ->
  exists plan st',
    build SGF rep fuel init o s (mkBuilderState (descs ++ rest) addrs temps)
    = Done (plan, st') /\
    allResults st' = rest /\
    indirectResultAddrs st' = addrs ++ flat_map leafAddr (leafPlans plan) /\
    Forall2 leafFor (leafPlans plan) (combine (flattenOrig o) descs) /\
    directOrigs plan = directLeaves (flattenOrig o) descs /\
    planFits plan s = true.
Proof.
  intros Hwf Hlen Hfuel.
  destruct (build_total rep Hwf fuel
              (mkBuilderState (descs ++ rest) addrs temps))
    as (plan & st' & Hbuild).
  { lia. }
  { simpl. rewrite length_app. lia. }
  exists plan, st'. split; [exact Hbuild|].
  apply build_spec in Hbuild. destruct Hbuild as (Hspec & Hfits & _).
  rewrite (WellFormed_flatten Hwf) in Hspec.
  destruct Hspec as (descs' & Hq & Hl & Ha & Hleaves). simpl in Hq, Ha.
  apply app_inv_length in Hq; [|congruence]. destruct Hq as [<- <-].
  repeat split; auto.
  unfold directOrigs, directLeaves. apply leafFor_directOrigs. exact Hleaves.
Qed.

(** C1: for a call whose pattern flattens to K leaves, build consumes
    exactly K descriptors from the queue, and finish consumes exactly one
    direct result for each of them that is marked direct: what follows
    the K descriptors in the queue and what follows these direct results
    in the cursor is left untouched, so that nothing is left over when
    nothing follows. *)
Theorem C1_descriptor_result_balance :
  forall SGF rep init origType substType descs rest addrs temps fuel,
    WellFormed SGF init origType substType ->
    length descs = length (flattenOrig origType) ->
    fuelFor origType <= fuel ->
    exists plan st',
      build SGF rep fuel init origType substType
            (mkBuilderState (descs ++ rest) addrs temps)
      = Done (plan, st') /\
      allResults st' = rest /\
      forall directs more trace,
        length directs = length (directDescriptors descs) ->
        exists rv trace',
          finish SGF plan substType (mkFinishState (directs ++ more) trace)
          = Done (rv, mkFinishState more trace').
Proof.
  intros SGF rep init origType substType descs rest addrs temps fuel
         Hwf Hlen Hfuel.
  destruct (@build_call SGF rep init origType substType descs rest addrs
              temps fuel Hwf Hlen Hfuel)
    as (plan & st' & Hbuild & Hrest & _ & _ & Hdirect & Hfits).
  exists plan, st'. split; [exact Hbuild|]. split; [exact Hrest|].
  intros directs more trace Hd.
  assert (Hcount : length (directOrigs plan) = length directs).
  { rewrite Hdirect, directLeaves_length by congruence. congruence. }
  destruct (@finish_total SGF plan substType
              (mkFinishState (directs ++ more) trace) Hfits)
    as (rv & [ds' trace'] & Hfin).
  { simpl. rewrite length_app. lia. }
  exists rv, trace'. rewrite Hfin.
  apply finish_spec in Hfin. destruct Hfin as [(taken & ev & Ht & Hl & _) _].
  simpl in Ht. apply app_inv_length in Ht; [|congruence].
  destruct Ht as [_ <-]. reflexivity.
Qed.

Lemma wellFormed_split_pair :
  WellFormed Examples.exSGF (Some Examples.splittable) Examples.pairPattern
             (Examples.pairType 1 2).
Proof.
  apply WellFormed_split.
  - reflexivity.
  - reflexivity.
  - simpl. lia.
  - intros [|[|[|i]]] e o s He Ho Hs; simpl in *; try discriminate;
      injection Ho as <-; apply WellFormed_leaf.
Qed.

Lemma noContextNoDeposit_example : NoContextNoDeposit Examples.exSGF.
Proof. intros v o s. reflexivity. Qed.

Lemma C1_descriptor_result_balance_witness :
  exists plan st',
    build Examples.exSGF 0 4 (Some Examples.splittable) Examples.pairPattern
          (Examples.pairType 1 2)
          (mkBuilderState
             ([Examples.indirectResult 1; Examples.directResult 2] ++ [])
             [] [])
    = Done (plan, st') /\
    allResults st' = [] /\
    forall directs more trace,
      length directs
      = length (directDescriptors
                  [Examples.indirectResult 1; Examples.directResult 2]) ->
      exists rv trace',
        finish Examples.exSGF plan (Examples.pairType 1 2)
               (mkFinishState (directs ++ more) trace)
        = Done (rv, mkFinishState more trace').
Proof.
  apply (@C1_descriptor_result_balance Examples.exSGF 0
           (Some Examples.splittable) Examples.pairPattern
           (Examples.pairType 1 2)
           [Examples.indirectResult 1; Examples.directResult 2] [] [] [] 4).
  - apply wellFormed_split_pair.
  - reflexivity.
  - simpl. lia.
Defined.

(** Counterexample to C7 for the substituted type flattened along its own
    tuple structure: for a well-formed call with a non-tuple pattern over
    a pair type build returns, the pattern has one leaf and the type has
    two. *)
Lemma C7_flattening_counterexample :
  WellFormed Examples.exSGF None (OpaquePattern 7) (Examples.pairType 1 2) /\
  build Examples.exSGF 0 1 None (OpaquePattern 7) (Examples.pairType 1 2)
        (mkBuilderState [Examples.directResult 7] [] [])
  = Done (ScalarResultPlan None (OpaquePattern 7) None 0,
          mkBuilderState [] [] []) /\
  flattenOrig (OpaquePattern 7) = [OpaquePattern 7] /\
  flattenSubst (Examples.pairType 1 2) = [NominalType 1; NominalType 2] /\
  length (flattenSubst (Examples.pairType 1 2))
  <> length (flattenOrig (OpaquePattern 7)).
Proof.
  repeat split.
  - apply WellFormed_leaf.
  - simpl. discriminate.
Qed.

(** C7: flattening the substituted type along the tuple structure of the
    pattern, where a tuple type under a non-tuple pattern is one leaf,
    gives one part per leaf of the flattened pattern, in the same order.  The leaf plans stand in that order, each
    having taken the descriptor at its position; the addresses appended
    during the build are those of the leaves with an indirect
    descriptor, in that order; and finish hands the direct results, in
    order, to the leaves with a direct descriptor, in that order. *)
Theorem C7_order_along_pattern :
  forall SGF rep init origType substType descs rest addrs temps fuel,
    WellFormed SGF init origType substType ->
    length descs = length (flattenOrig origType) ->
    fuelFor origType <= fuel ->
    map fst (flattenAlong origType substType) = flattenOrig origType /\
    exists plan st',
      build SGF rep fuel init origType substType
            (mkBuilderState (descs ++ rest) addrs temps)
      = Done (plan, st') /\
      Forall2 leafFor (leafPlans plan)
              (combine (flattenOrig origType) descs) /\
      indirectResultAddrs st'
      = addrs ++ flat_map leafAddr (leafPlans plan) /\
      forall st rv st'',
        finish SGF plan substType st = Done (rv, st'') ->
        exists taken events,
          directResults st = taken ++ directResults st'' /\
          length taken = length (directDescriptors descs) /\
          emitted st'' = emitted st ++ events /\
          claimedResults events
          = combine (directLeaves (flattenOrig origType) descs) taken.
Proof.
  intros SGF rep init origType substType descs rest addrs temps fuel
         Hwf Hlen Hfuel.
  split; [apply (WellFormed_flatten Hwf)|].
  destruct (@build_call SGF rep init origType substType descs rest addrs
              temps fuel Hwf Hlen Hfuel)
    as (plan & st' & Hbuild & _ & Haddrs & Hleaves & Hdirect & _).
  exists plan, st'. repeat split; auto.
  intros st rv st'' Hfin.
  apply finish_spec in Hfin.
  destruct Hfin as [(taken & events & Ht & Hl & He & Hc & _) _].
  exists taken, events. rewrite Hdirect in Hl, Hc.
  rewrite directLeaves_length in Hl by congruence. auto.
Qed.

Lemma C7_order_along_pattern_witness :
  map fst (flattenAlong Examples.pairPattern (Examples.pairType 1 2))
  = flattenOrig Examples.pairPattern.
Proof.
  apply (@C7_order_along_pattern Examples.exSGF 0
           (Some Examples.splittable) Examples.pairPattern
           (Examples.pairType 1 2)
           [Examples.indirectResult 1; Examples.directResult 2] [] [] [] 4).
  - apply wellFormed_split_pair.
  - reflexivity.
  - simpl. lia.
Defined.

(** ** Exactly-once deposit *)



(** ** Internal defects *)

(** C9: a tuple pattern over a substituted type that is not a tuple, an
    empty descriptor queue at a non-tuple leaf, an exhausted cursor of
    direct results at a Scalar plan without temporary, and a sub-plan of
    InitFromTemporary or an element plan of TupleInitialization that
    returns a not-used r-value each abort the run at once.  For a
    well-formed call with a descriptor for each leaf and a direct result
    for each direct descriptor, build and finish return: none of these
    aborts is reached. *)
Theorem C9_internal_defects_abort :
  forall SGF rep,
    (forall fuel init origElts name st,
        build SGF rep (S fuel) init (TuplePattern origElts)
              (NominalType name) st
        = Abort BadCastToTupleType) /\
    (forall fuel init origType substType addrs temps,
        isTuple origType = false ->
        build SGF rep (S fuel) init origType substType
              (mkBuilderState [] addrs temps)
        = Abort EmptyAllResults) /\
    (forall origType init substType trace,
        finish SGF (ScalarResultPlan None origType init rep) substType
               (mkFinishState [] trace)
        = Abort EmptyDirectResults) /\
    (forall init subPlan temporary substType st rv st1,
        finish SGF subPlan substType st = Done (rv, st1) ->
        isUsed rv = false ->
        finish SGF (InitValueFromTemporaryResultPlan init subPlan temporary)
               substType st
        = Abort SubPlanNotUsed) /\
    (forall tupleInit eltInits done p rest doneTypes t restTypes st mid
            rv st1,
        length (doneTypes ++ t :: restTypes) = length (done ++ p :: rest) ->
        FinishedInOrder SGF done doneTypes st mid ->
        finish SGF p t mid = Done (rv, st1) ->
        isUsed rv = false ->
        finish SGF
               (TupleInitializationResultPlan tupleInit eltInits
                                              (done ++ p :: rest))
               (TupleType (doneTypes ++ t :: restTypes)) st
        = Abort SubPlanNotUsed) /\
    (forall init origType substType descs rest addrs temps fuel,
        WellFormed SGF init origType substType ->
        length descs = length (flattenOrig origType) ->
        fuelFor origType <= fuel ->
        exists plan st',
          build SGF rep fuel init origType substType
                (mkBuilderState (descs ++ rest) addrs temps)
          = Done (plan, st') /\
          forall st,
            length (directDescriptors descs) <= length (directResults st) ->
            exists rv st'',
              finish SGF plan substType st = Done (rv, st'')).
Proof.
  intros SGF rep.
  refine (conj _ (conj _ (conj _ (conj _ (conj _ _))))).
  - intros. reflexivity.
  - intros fuel init origType substType addrs temps Hleaf.
    rewrite build_leaf_eq by assumption. reflexivity.
  - intros. reflexivity.
  - intros init subPlan temporary substType st rv st1 Hsub Hu.
    simpl. unfold bind. rewrite Hsub. unfold assertM. rewrite Hu.
    reflexivity.
  - intros tupleInit eltInits done p rest doneTypes t restTypes st mid
           rv st1 Hlen Hord Hp Hu.
    simpl. unfold bind at 1. simpl.
    rewrite Hlen, Nat.eqb_refl. unfold bind at 1. simpl.
    unfold bind at 1.
    rewrite (@finishInitElts_not_used SGF done doneTypes p t rest restTypes
               st mid rv st1 Hord Hp Hu).
    reflexivity.
  - intros init origType substType descs rest addrs temps fuel
           Hwf Hlen Hfuel.
    destruct (@build_call SGF rep init origType substType descs rest addrs
                temps fuel Hwf Hlen Hfuel)
      as (plan & st' & Hbuild & _ & _ & _ & Hdirect & Hfits).
    exists plan, st'. split; [exact Hbuild|].
    intros st Hd. apply finish_total; [exact Hfits|].
    rewrite Hdirect, directLeaves_length by congruence. exact Hd.
Qed.

Lemma C9_internal_defects_abort_witness :
  exists plan st',
    build Examples.exSGF 0 4 (Some Examples.splittable) Examples.pairPattern
          (Examples.pairType 1 2)
          (mkBuilderState
             ([Examples.indirectResult 1; Examples.directResult 2] ++ [])
             [] [])
    = Done (plan, st') /\
    forall st,
      length (directDescriptors
                [Examples.indirectResult 1; Examples.directResult 2])
      <= length (directResults st) ->
      exists rv st'',
        finish Examples.exSGF plan (Examples.pairType 1 2) st
        = Done (rv, st'').
Proof.
  apply (proj2 (proj2 (proj2 (proj2 (proj2
           (C9_internal_defects_abort Examples.exSGF 0)))))
           (Some Examples.splittable) Examples.pairPattern
           (Examples.pairType 1 2)
           [Examples.indirectResult 1; Examples.directResult 2] [] [] [] 4).
  - apply wellFormed_split_pair.
  - reflexivity.
  - simpl. lia.
Defined.

(** ** Scenarios *)

(** A direct result that needs reabstraction, without destination: the
    Scalar plan takes the one direct result, reabstracts it and returns
    it as an r-value that is not used. *)
Example scenario_direct_reabstracted_rvalue :
  finish Examples.exSGF (ScalarResultPlan None (OpaquePattern 7) None 0)
         (NominalType 8) (mkFinishState [Examples.value 42 7] [])
  = Done (RValue_ofValue (NominalType 8) (Examples.value 942 8),
          mkFinishState []
            [EvClaimDirectResult (OpaquePattern 7) (Examples.value 42 7);
             EvOrigToSubst (Examples.value 42 7) None]).
Proof. reflexivity. Qed.

(** An address-only pair into a destination that cannot be split: the
    plan is InitFromTemporary around a TupleInitialization built into the
    one temporary, three units of fuel are not enough, and finish
    finishes the inner plan before it copies the temporary into the
    destination. *)
Example scenario_address_only_pair :
  build Examples.exSGF 0 3 (Some Examples.unsplittable) Examples.pairPattern
        (Examples.pairType 100 2)
        (mkBuilderState [Examples.indirectResult 100; Examples.directResult 2]
                        [] [])
  = OutOfFuel /\
  exists inner temporary st',
    build Examples.exSGF 0 4 (Some Examples.unsplittable)
          Examples.pairPattern (Examples.pairType 100 2)
          (mkBuilderState
             [Examples.indirectResult 100; Examples.directResult 2] [] [])
    = Done (InitValueFromTemporaryResultPlan Examples.unsplittable
              (TupleInitializationResultPlan
                 (asInitialization temporary)
                 (splitIntoTupleElements (asInitialization temporary))
                 inner)
              temporary, st') /\
    indirectResultAddrs st' = [mkSILValue 600 100] /\
    temporaries st' = [temporary] /\
    finish Examples.exSGF
           (InitValueFromTemporaryResultPlan Examples.unsplittable
              (TupleInitializationResultPlan
                 (asInitialization temporary)
                 (splitIntoTupleElements (asInitialization temporary))
                 inner)
              temporary)
           (Examples.pairType 100 2)
           (mkFinishState [Examples.value 42 2] [])
    = Done (RValue_used,
            mkFinishState []
              [EvFinishInitialization 600;
               EvClaimDirectResult (OpaquePattern 2) (Examples.value 42 2);
               EvCopyOrInitValueInto 601 (Examples.value 42 2);
               EvFinishInitialization 601;
               EvFinishInitialization 500;
               EvCopyOrInitValueInto 1 (Examples.value 500 999);
               EvFinishInitialization 1]).
Proof.
  split; [reflexivity|].
  exists [InPlaceInitializationResultPlan
            (mkInitialization 600 (Some (mkSILValue 600 100)) false []);
          ScalarResultPlan None (OpaquePattern 2)
            (Some (mkInitialization 601 (Some (mkSILValue 601 2)) false []))
            0],
         (Examples.exTemporary 0 (mkTypeLowering 999 true)).
  eexists. split; [vm_compute; reflexivity|].
  split; [reflexivity|]. split; reflexivity.
Qed.

(** A loadable pair into a destination that cannot be split: the plan is
    InitFromRValue around a TupleRValue; the first element is loaded from
    its temporary, the second is the direct result, and the single value
    made of both is copied into the destination. *)
Example scenario_loadable_pair :
  exists plan st',
    build Examples.exSGF 0 4 (Some Examples.unsplittable)
          Examples.pairPattern (Examples.pairType 1 2)
          (mkBuilderState
             [Examples.indirectResult 1; Examples.directResult 2] [] [])
    = Done (plan, st') /\
    indirectResultAddrs st' = [mkSILValue 500 1] /\
    finish Examples.exSGF plan (Examples.pairType 1 2)
           (mkFinishState [Examples.value 42 2] [])
    = Done (RValue_used,
            mkFinishState []
              [EvFinishInitialization 500;
               EvLoad (Examples.value 500 1);
               EvClaimDirectResult (OpaquePattern 2) (Examples.value 42 2);
               EvGetAsSingleValue
                 [Examples.value 1200 1; Examples.value 42 2];
               EvCopyOrInitValueInto 1 (Examples.value 950 999);
               EvFinishInitialization 1]).
Proof.
  eexists _, _. split; [vm_compute; reflexivity|]. split; reflexivity.
Qed.

(** * Further properties of the builder and of finish *)

(** ** What any successful build takes and appends *)

Lemma leafFor_accounting leaves positions :
  Forall2 leafFor leaves positions ->
  map leafIndirect leaves = map (fun p => isSILIndirect (snd p)) positions /\
  length (flat_map leafAddr leaves)
  = length (filter (fun p => isSILIndirect (snd p)) positions).
Proof.
  induction 1 as [|leaf [o d] leaves positions (Hi & Ha & _) _ [IHm IHa]];
    [auto|].
  simpl in *. split.
  - congruence.
  - rewrite length_app, Ha, IHa. destruct (isSILIndirect d); reflexivity.
Qed.

Lemma combine_snd_map {A B C : Type} (f : B -> C) (xs : list A)
      (ys : list B) :
  length xs = length ys ->
  map (fun p => f (snd p)) (combine xs ys) = map f ys.
Proof.
  revert ys. induction xs as [|x xs IH]; intros [|y ys] H; simpl in *;
    try discriminate; auto.
  f_equal. apply IH. congruence.
Qed.

Lemma combine_snd_filter_length {A B : Type} (f : B -> bool) (xs : list A)
      (ys : list B) :
  length xs = length ys ->
  length (filter (fun p => f (snd p)) (combine xs ys))
  = length (filter f ys).
Proof.
  revert ys. induction xs as [|x xs IH]; intros [|y ys] H; simpl in *;
    try discriminate; auto.
  destruct (f y); simpl; rewrite IH by congruence; reflexivity.
Qed.

(** X1: whatever the pattern, the type and the destination, a build that
    returns has taken a prefix of the descriptor queue, one descriptor
    for each leaf plan and in the order of the leaf plans, and has
    appended to the indirect-result addresses exactly one address for
    each indirect descriptor it took and none for a direct one. *)
Theorem build_takes_prefix :
  forall SGF rep fuel init origType substType st plan st',
    build SGF rep fuel init origType substType st = Done (plan, st') ->
    exists descs new,
      allResults st = descs ++ allResults st' /\
      length descs = length (leafPlans plan) /\
      map isSILIndirect descs = map leafIndirect (leafPlans plan) /\
      indirectResultAddrs st' = indirectResultAddrs st ++ new /\
      new = flat_map leafAddr (leafPlans plan) /\
      length new = length (filter isSILIndirect descs).
Proof.
  intros SGF rep fuel init origType substType st plan st' Hbuild.
  apply build_spec in Hbuild.
  destruct Hbuild as ((descs & Hq & Hl & Ha & Hleaves) & _ & _).
  exists descs, (flat_map leafAddr (leafPlans plan)).
  destruct (leafFor_accounting Hleaves) as [Hm Hn].
  rewrite combine_snd_map in Hm by (symmetry; exact Hl).
  rewrite combine_snd_filter_length in Hn by (symmetry; exact Hl).
  repeat split; auto.
  rewrite <- (length_map leafIndirect), Hm, length_map. reflexivity.
Qed.

Lemma build_takes_prefix_witness :
  exists descs new,
    [Examples.indirectResult 1; Examples.directResult 2;
     Examples.directResult 9]
    = descs ++ [Examples.directResult 9] /\
    length descs
    = length (leafPlans
                (TupleRValueResultPlan
                   [ScalarResultPlan
                      (Some (Examples.exTemporary 0 (mkTypeLowering 1 false)))
                      (OpaquePattern 1) None 0;
                    ScalarResultPlan None (OpaquePattern 2) None 0])) /\
    map isSILIndirect descs
    = [true; false] /\
    [mkSILValue 500 1] = [] ++ new /\
    new = [mkSILValue 500 1] /\
    length new = length (filter isSILIndirect descs).
Proof.
  apply (@build_takes_prefix Examples.exSGF 0 3 None
           (TuplePattern [OpaquePattern 1; OpaquePattern 2; OpaquePattern 3])
           (Examples.pairType 1 2)
           (mkBuilderState
              [Examples.indirectResult 1; Examples.directResult 2;
               Examples.directResult 9] [] [])
           (TupleRValueResultPlan
              [ScalarResultPlan
                 (Some (Examples.exTemporary 0 (mkTypeLowering 1 false)))
                 (OpaquePattern 1) None 0;
               ScalarResultPlan None (OpaquePattern 2) None 0])
           (mkBuilderState [Examples.directResult 9] [mkSILValue 500 1]
              [Examples.exTemporary 0 (mkTypeLowering 1 false)])).
  reflexivity.
Defined.

(** ** The element loops follow the substituted tuple *)

Lemma forEachElement_length {St A : Type}
      (body : nat -> CanType -> M St A) ts :
  forall i st r st',
    forEachElement body i ts st = Done (r, st') -> length r = length ts.
Proof.
  induction ts as [|t ts IH]; intros i st r st' H.
  - inv H. reflexivity.
  - apply forEachElement_cons_inv in H.
    destruct H as (a & st1 & rest & _ & Hrest & ->).
    simpl. f_equal. eapply IH; eauto.
Qed.

Lemma forEachElement_indices {St A : Type}
      (body : nat -> CanType -> M St A) (Q : nat -> Prop) :
  (forall i t st r, body i t st = Done r -> Q i) ->
  forall ts i st r,
    forEachElement body i ts st = Done r ->
    forall k, k < length ts -> Q (i + k).
Proof.
  intros Hbody. induction ts as [|t ts IH]; intros i st [r st'] H k Hk.
  - simpl in Hk. lia.
  - apply forEachElement_cons_inv in H.
    destruct H as (a & st1 & rest & Ha & Hrest & ->).
    destruct k as [|k].
    + rewrite Nat.add_0_r. eapply Hbody; eauto.
    + rewrite Nat.add_succ_r. apply (IH (S i) st1 (rest, st') Hrest k).
      simpl in Hk. lia.
Qed.

Lemma forEachElement_ext {St A : Type}
      (body1 body2 : nat -> CanType -> M St A) ts :
  forall i,
    (forall k t st, k < length ts ->
                    body1 (i + k) t st = body2 (i + k) t st) ->
    forall st, forEachElement body1 i ts st = forEachElement body2 i ts st.
Proof.
  induction ts as [|t ts IH]; intros i Hext st; [reflexivity|].
  simpl. unfold bind.
  assert (H0 : body1 i t st = body2 i t st).
  { rewrite <- (Nat.add_0_r i). apply Hext. simpl. lia. }
  rewrite <- H0.
  destruct (body1 i t st) as [[a st1]| |]; try reflexivity.
  rewrite (IH (S i)); [reflexivity|].
  intros k t' st0 Hk. replace (S i + k) with (i + S k) by lia.
  apply Hext. simpl. lia.
Qed.

Lemma loop_bound n m :
  (forall k, k < n -> 0 + k < m) -> n <= m.
Proof.
  intros H. destruct n as [|n]; [lia|]. specialize (H n). lia.
Qed.

Lemma buildForTuple_arity SGF rep fuel :
  forall init os ss st plan st',
    buildForTuple SGF rep fuel init (TuplePattern os) ss st
    = Done (plan, st') ->
    length (tupleEltPlans plan) = length ss /\ length ss <= length os.
Proof.
  induction fuel as [|fuel IH]; intros init os ss st plan st' H;
    [discriminate|].
  simpl in H. destruct init as [tupleInit|].
  - destruct (canSplitIntoTupleElements tupleInit).
    + apply bind_inv in H. destruct H as (plans & st1 & Hloop & H). inv H.
      simpl. split; [eapply forEachElement_length; eauto|].
      apply loop_bound. intros k Hk.
      eapply (@forEachElement_indices _ _ _ (fun i => i < length os));
        [|exact Hloop|exact Hk].
      intros i t s0 [p s2] Hb. cbv beta in Hb. apply bind_inv in Hb.
      destruct Hb as (o & s1 & Ho & _).
      apply orAbort_inv in Ho. destruct Ho as [Ho _].
      eapply nth_error_bound; eauto.
    + destruct (isAddressOnly (getTypeLowering SGF (TupleType ss))).
      * apply bind_inv in H. destruct H as (t & st1 & _ & H).
        apply bind_inv in H. destruct H as (sub & st2 & Hsub & H). inv H.
        simpl. eapply IH; eauto.
      * apply bind_inv in H. destruct H as (sub & st2 & Hsub & H). inv H.
        simpl. eapply IH; eauto.
  - apply bind_inv in H. destruct H as (plans & st1 & Hloop & H). inv H.
    simpl. split; [eapply forEachElement_length; eauto|].
    apply loop_bound. intros k Hk.
    eapply (@forEachElement_indices _ _ _ (fun i => i < length os));
      [|exact Hloop|exact Hk].
    intros i t s0 [p s2] Hb. cbv beta in Hb. apply bind_inv in Hb.
    destruct Hb as (o & s1 & Ho & _).
    apply orAbort_inv in Ho. destruct Ho as [Ho _].
    eapply nth_error_bound; eauto.
Qed.

(** X2: a build on a tuple pattern over a tuple type returns only if the
    type has no more elements than the pattern, and the tuple plan it
    returns (under the plans that wrap it) then has exactly one element
    plan for each element of the type. *)
Theorem build_tuple_arity :
  forall SGF rep fuel init origElts substElts st plan st',
    build SGF rep fuel init (TuplePattern origElts) (TupleType substElts) st
    = Done (plan, st') ->
    length (tupleEltPlans plan) = length substElts /\
    length substElts <= length origElts.
Proof.
  intros SGF rep [|fuel] init origElts substElts st plan st' H;
    [discriminate|].
  rewrite build_tuple_eq in H. eapply buildForTuple_arity; eauto.
Qed.

Lemma build_tuple_arity_witness :
  length (tupleEltPlans
            (TupleRValueResultPlan
               [ScalarResultPlan None (OpaquePattern 1) None 0;
                ScalarResultPlan None (OpaquePattern 2) None 0]))
  = length [NominalType 1; NominalType 2] /\
  length [NominalType 1; NominalType 2]
  <= length [OpaquePattern 1; OpaquePattern 2; OpaquePattern 3].
Proof.
  apply (@build_tuple_arity Examples.exSGF 0 3 None
           [OpaquePattern 1; OpaquePattern 2; OpaquePattern 3]
           [NominalType 1; NominalType 2]
           (mkBuilderState
              [Examples.directResult 1; Examples.directResult 2] [] [])
           (TupleRValueResultPlan
              [ScalarResultPlan None (OpaquePattern 1) None 0;
               ScalarResultPlan None (OpaquePattern 2) None 0])
           (mkBuilderState [] [] [])).
  reflexivity.
Defined.

Lemma buildForTuple_truncate SGF rep fuel :
  forall init os ss st,
    buildForTuple SGF rep fuel init (TuplePattern os) ss st
    = buildForTuple SGF rep fuel init
                    (TuplePattern (firstn (length ss) os)) ss st.
Proof.
  induction fuel as [|fuel IH]; intros init os ss st; [reflexivity|].
  assert (Hnth : forall k, k < length ss ->
                   nth_error (firstn (length ss) os) (0 + k)
                   = nth_error os (0 + k)).
  { intros k Hk. rewrite nth_error_firstn. simpl.
    apply Nat.ltb_lt in Hk. rewrite Hk. reflexivity. }
  simpl. destruct init as [tupleInit|].
  - destruct (canSplitIntoTupleElements tupleInit).
    + unfold bind at 1 5.
      rewrite (forEachElement_ext _
                 (fun i substEltType =>
                    origEltType <-
                      orAbort TupleElementOutOfRange
                        (nth_error (firstn (length ss) os) i) ;;
                    eltInit <-
                      orAbort EltInitOutOfRange
                        (nth_error (splitIntoTupleElements tupleInit) i) ;;
                    build SGF rep fuel (Some eltInit) origEltType
                          substEltType)); [reflexivity|].
      intros k t s0 Hk. rewrite Hnth by assumption. reflexivity.
    + destruct (isAddressOnly (getTypeLowering SGF (TupleType ss))).
      * unfold bind, emitTemporaryM. rewrite IH. reflexivity.
      * unfold bind. rewrite IH. reflexivity.
  - unfold bind at 1 4.
    rewrite (forEachElement_ext _
               (fun i substEltType =>
                  origEltType <-
                    orAbort TupleElementOutOfRange
                      (nth_error (firstn (length ss) os) i) ;;
                  build SGF rep fuel None origEltType substEltType));
      [reflexivity|].
    intros k t s0 Hk. rewrite Hnth by assumption. reflexivity.
Qed.

(** X3: the elements of a tuple pattern beyond the arity of the
    substituted tuple are never looked at: dropping them changes
    nothing in what build does, whether it returns or aborts. *)
Theorem build_ignores_surplus_pattern_elements :
  forall SGF rep fuel init origElts substElts st,
    build SGF rep fuel init (TuplePattern origElts) (TupleType substElts) st
    = build SGF rep fuel init
            (TuplePattern (firstn (length substElts) origElts))
            (TupleType substElts) st.
Proof.
  intros SGF rep [|fuel] init origElts substElts st; [reflexivity|].
  rewrite !build_tuple_eq. apply buildForTuple_truncate.
Qed.

(** ** Temporaries *)

Lemma forEachElement_appends {T : Type}
      (body : nat -> CanType -> Builder ResultPlan)
      (proj : BuilderState -> list T) (delta : ResultPlan -> list T) :
  (forall i t st p st',
      body i t st = Done (p, st') -> proj st' = proj st ++ delta p) ->
  forall ts i st plans st',
    forEachElement body i ts st = Done (plans, st') ->
    proj st' = proj st ++ flat_map delta plans.
Proof.
  intros Hbody. induction ts as [|t ts IH]; intros i st plans st' H.
  - inv H. simpl. symmetry. apply app_nil_r.
  - apply forEachElement_cons_inv in H.
    destruct H as (p & st1 & rest & Hp & Hrest & ->).
    apply Hbody in Hp. apply IH in Hrest.
    simpl. rewrite Hrest, Hp, app_assoc. reflexivity.
Qed.

Lemma buildLeaf_temporaries SGF rep init origType st plan st' :
  buildLeaf SGF rep init origType st = Done (plan, st') ->
  temporaries st' = temporaries st ++ planTemporaries plan.
Proof.
  intros H. destruct st as [[|result rest] addrs temps]; [discriminate|].
  destruct (takesFastPath SGF rep init result) eqn:Hfast.
  - pose proof Hfast as Hfast'. unfold takesFastPath in Hfast'.
    destruct init as [i|]; [|discriminate].
    destruct (getAddressForInPlaceInitialization i) as [a|] eqn:Ha;
      [|discriminate].
    rewrite (buildLeaf_fast SGF rep origType result rest addrs temps
               eq_refl Ha Hfast) in H.
    inv H. simpl. symmetry. apply app_nil_r.
  - rewrite buildLeaf_slow, buildScalar_eq in H by assumption.
    destruct (isSILIndirect result); simpl in H; inv H; simpl;
      [reflexivity | symmetry; apply app_nil_r].
Qed.

Lemma build_temporaries SGF rep fuel :
  (forall init o s st plan st',
      build SGF rep fuel init o s st = Done (plan, st') ->
      temporaries st' = temporaries st ++ planTemporaries plan)
  /\
  (forall init o ss st plan st',
      buildForTuple SGF rep fuel init o ss st = Done (plan, st') ->
      temporaries st' = temporaries st ++ planTemporaries plan).
Proof.
  induction fuel as [|fuel [IHb IHt]]; [split; intros; discriminate|].
  split.
  - intros init o s st plan st' H. simpl in H.
    destruct (isTuple o).
    + apply bind_inv in H. destruct H as (ss & st1 & Hc & H).
      apply orAbort_inv in Hc. destruct Hc as [_ ->]. eauto.
    + eapply buildLeaf_temporaries; eauto.
  - intros init o ss st plan st' H. simpl in H.
    destruct init as [tupleInit|].
    + destruct (canSplitIntoTupleElements tupleInit).
      * apply bind_inv in H. destruct H as (plans & st1 & Hloop & H). inv H.
        simpl.
        eapply (forEachElement_appends _ temporaries planTemporaries);
          [|exact Hloop].
        intros i t s0 p s1 Hb. cbv beta in Hb.
        apply bind_inv in Hb. destruct Hb as (oe & s2 & Ho & Hb).
        apply orAbort_inv in Ho. destruct Ho as [_ ->].
        apply bind_inv in Hb. destruct Hb as (e & s3 & He & Hb).
        apply orAbort_inv in He. destruct He as [_ ->]. eauto.
      * destruct (isAddressOnly (getTypeLowering SGF (TupleType ss))).
        -- apply bind_inv in H. destruct H as (t & st1 & Ht & H).
           apply bind_inv in H. destruct H as (sub & st2 & Hsub & H). inv H.
           unfold emitTemporaryM in Ht. inv Ht.
           apply IHt in Hsub. simpl in *. rewrite Hsub, <- app_assoc.
           reflexivity.
        -- apply bind_inv in H. destruct H as (sub & st2 & Hsub & H). inv H.
           simpl. eauto.
    + apply bind_inv in H. destruct H as (plans & st1 & Hloop & H). inv H.
      simpl.
      eapply (forEachElement_appends _ temporaries planTemporaries);
        [|exact Hloop].
      intros i t s0 p s1 Hb. cbv beta in Hb.
      apply bind_inv in Hb. destruct Hb as (oe & s2 & Ho & Hb).
      apply orAbort_inv in Ho. destruct Ho as [_ ->]. eauto.
Qed.

(** X4: the temporaries a build emits are exactly the temporaries held
    by the nodes of the plan it returns, in the order of emission: a
    build emits no temporary that it does not move into a plan node. *)
Theorem build_temporaries_owned :
  forall SGF rep fuel init origType substType st plan st',
    build SGF rep fuel init origType substType st = Done (plan, st') ->
    temporaries st' = temporaries st ++ planTemporaries plan.
Proof.
  intros SGF rep fuel init origType substType st plan st' H.
  apply (proj1 (build_temporaries SGF rep fuel)) in H. exact H.
Qed.

Lemma build_temporaries_owned_witness :
  [Examples.exTemporary 0 (mkTypeLowering 999 true)]
  = [] ++ planTemporaries
            (InitValueFromTemporaryResultPlan Examples.unsplittable
               (TupleInitializationResultPlan
                  (asInitialization
                     (Examples.exTemporary 0 (mkTypeLowering 999 true)))
                  (splitIntoTupleElements
                     (asInitialization
                        (Examples.exTemporary 0 (mkTypeLowering 999 true))))
                  [InPlaceInitializationResultPlan
                     (mkInitialization 600 (Some (mkSILValue 600 100))
                                       false []);
                   ScalarResultPlan None (OpaquePattern 2)
                     (Some (mkInitialization 601 (Some (mkSILValue 601 2))
                                             false []))
                     0])
               (Examples.exTemporary 0 (mkTypeLowering 999 true))).
Proof.
  apply (@build_temporaries_owned Examples.exSGF 0 4
           (Some Examples.unsplittable) Examples.pairPattern
           (Examples.pairType 100 2)
           (mkBuilderState
              [Examples.indirectResult 100; Examples.directResult 2] [] [])
           _
           (mkBuilderState [] [mkSILValue 600 100]
              [Examples.exTemporary 0 (mkTypeLowering 999 true)])).
  reflexivity.
Defined.

(** ** How finish of a built plan can fail *)

Lemma finishScalar_outcome SGF temporary origType init rep substType st :
  ReturnsOrExhausted
    (finishScalar SGF temporary origType init rep substType st).
Proof.
  destruct (directResults st) as [|v rest] eqn:Hd.
  - destruct temporary as [t|].
    + left. apply finishScalar_total. unfold directOrigs. simpl. lia.
    + right. unfold finishScalar, bind. simpl.
      unfold claimDirectResult. rewrite Hd. reflexivity.
  - left. apply finishScalar_total. rewrite Hd.
    unfold directOrigs. simpl. destruct temporary; simpl; lia.
Qed.

Lemma finishRValueElts_outcome SGF eltPlans :
  Forall (fun p => forall ty st,
              planFits p ty = true ->
              ReturnsOrExhausted (finish SGF p ty st)) eltPlans ->
  forall eltTypes tupleRV st,
    forallb2 planFits eltPlans eltTypes = true ->
    ReturnsOrExhausted
      (finishRValueElts (finish SGF) eltPlans eltTypes tupleRV st).
Proof.
  induction 1 as [|p ps Hp _ IH]; intros [|t ts] tupleRV st Hfits;
    try discriminate Hfits.
  - left. simpl. unfold ret. eauto.
  - simpl in Hfits. apply andb_prop in Hfits. destruct Hfits as [Hfit Hfits].
    simpl. unfold bind.
    destruct (Hp t st Hfit) as [(eltRV & st1 & ->)| ->].
    + apply IH. exact Hfits.
    + right. reflexivity.
Qed.

Lemma finishInitElts_outcome SGF eltPlans :
  Forall (fun p => forall ty st,
              planFits p ty = true ->
              ReturnsOrExhausted (finish SGF p ty st)) eltPlans ->
  forall eltTypes st,
    forallb hasDestination eltPlans = true ->
    forallb2 planFits eltPlans eltTypes = true ->
    ReturnsOrExhausted (finishInitElts (finish SGF) eltPlans eltTypes st).
Proof.
  induction 1 as [|p ps Hp _ IH]; intros [|t ts] st Hdest Hfits;
    try discriminate Hfits.
  - left. simpl. unfold ret. eauto.
  - simpl in Hfits. apply andb_prop in Hfits. destruct Hfits as [Hfit Hfits].
    simpl in Hdest. apply andb_prop in Hdest. destruct Hdest as [Hd Hdest].
    simpl. unfold bind.
    destruct (Hp t st Hfit) as [(eltRV & st1 & He)| ->].
    + rewrite He. apply finish_spec in He. destruct He as [_ Hused].
      rewrite (Hused Hd). simpl. apply IH; assumption.
    + right. reflexivity.
Qed.

Lemma finish_outcome SGF plan :
  forall ty st,
    planFits plan ty = true -> ReturnsOrExhausted (finish SGF plan ty st).
Proof.
  induction plan using ResultPlan_nested_ind; intros ty st Hfits.
  - left. simpl. unfold bind, finishInitialization, emit, ret. simpl. eauto.
  - apply finishScalar_outcome.
  - simpl in Hfits. apply andb_prop in Hfits. destruct Hfits as [Hd Hfits].
    simpl. unfold bind.
    destruct (IHplan ty st Hfits) as [(subResult & st1 & Hsub)| ->].
    + rewrite Hsub. apply finish_spec in Hsub. destruct Hsub as [_ Hused].
      rewrite (Hused Hd). simpl. left.
      unfold copyOrInitValueInto, finishInitialization, emit, ret. simpl.
      eauto.
    + right. reflexivity.
  - simpl in Hfits. simpl. unfold bind.
    destruct (IHplan ty st Hfits) as [(subResult & st1 & ->)| ->].
    + left.
      unfold copyOrInitValueInto, finishInitialization, emit, ret. simpl.
      eauto.
    + right. reflexivity.
  - simpl in Hfits. destruct ty as [n|tys]; [discriminate|].
    simpl. unfold bind. simpl.
    rewrite <- (forallb2_length _ _ _ Hfits), Nat.eqb_refl. simpl.
    apply finishRValueElts_outcome; auto.
  - simpl in Hfits. destruct ty as [n|tys]; [discriminate|].
    apply andb_prop in Hfits. destruct Hfits as [Hdest Hfits].
    simpl. unfold bind. simpl.
    rewrite <- (forallb2_length _ _ _ Hfits), Nat.eqb_refl. simpl.
    destruct (@finishInitElts_outcome SGF eltPlans H tys st Hdest Hfits)
      as [([] & st1 & ->)| ->].
    + left. unfold finishInitialization, emit, ret. simpl. eauto.
    + right. reflexivity.
Qed.

(** X5: a plan that build returned, finished against the substituted type
    it was built for, either returns or stops at an exhausted cursor of
    direct results: the casts to a tuple type, the assertions on the
    number of element plans and the assertions that a sub-plan returned
    a used r-value hold for every plan the builder makes, from any
    cursor and even for a call that is not well-formed. *)
Theorem built_plan_finish_outcome :
  forall SGF rep fuel init origType substType st plan st' fs,
    build SGF rep fuel init origType substType st = Done (plan, st') ->
    (exists rv fs', finish SGF plan substType fs = Done (rv, fs')) \/
    finish SGF plan substType fs = Abort EmptyDirectResults.
Proof.
  intros SGF rep fuel init origType substType st plan st' fs Hbuild.
  apply build_spec in Hbuild. destruct Hbuild as (_ & Hfits & _).
  apply (finish_outcome SGF plan substType fs Hfits).
Qed.

Lemma built_plan_finish_outcome_witness :
  (exists rv fs',
      finish Examples.exSGF
             (TupleRValueResultPlan
                [ScalarResultPlan None (OpaquePattern 1) None 0;
                 ScalarResultPlan None (OpaquePattern 2) None 0])
             (Examples.pairType 1 2)
             (mkFinishState [Examples.value 41 1] [])
      = Done (rv, fs')) \/
  finish Examples.exSGF
         (TupleRValueResultPlan
            [ScalarResultPlan None (OpaquePattern 1) None 0;
             ScalarResultPlan None (OpaquePattern 2) None 0])
         (Examples.pairType 1 2)
         (mkFinishState [Examples.value 41 1] [])
  = Abort EmptyDirectResults.
Proof.
  apply (@built_plan_finish_outcome Examples.exSGF 0 3 None
           Examples.pairPattern (Examples.pairType 1 2)
           (mkBuilderState
              [Examples.directResult 1; Examples.directResult 2] [] [])
           _ (mkBuilderState [] [] [])).
  reflexivity.
Defined.

(** ** Each plan node holds the destination it was built for *)

Lemma forEachElement_allWithoutInit
      (body : nat -> CanType -> Builder ResultPlan) :
  (forall i t st p st',
      body i t st = Done (p, st') ->
      planInit p = None /\ WellTargeted p) ->
  forall ts i st plans st',
    forEachElement body i ts st = Done (plans, st') ->
    allWithoutInit WellTargeted plans.
Proof.
  intros Hbody. induction ts as [|t ts IH]; intros i st plans st' H.
  - inv H. exact I.
  - apply forEachElement_cons_inv in H.
    destruct H as (p & st1 & rest & Hp & Hrest & ->).
    apply Hbody in Hp. destruct Hp as [Hi Hw].
    simpl. repeat split; auto. eapply IH; eauto.
Qed.

Lemma forEachElement_allWithEltInit
      (body : nat -> CanType -> Builder ResultPlan)
      (eltInits : list Initialization) :
  (forall i t st p st',
      body i t st = Done (p, st') ->
      (exists e, nth_error eltInits i = Some e /\ planInit p = Some e) /\
      WellTargeted p) ->
  forall ts i st plans st',
    forEachElement body i ts st = Done (plans, st') ->
    allWithEltInit WellTargeted eltInits plans i.
Proof.
  intros Hbody. induction ts as [|t ts IH]; intros i st plans st' H.
  - inv H. exact I.
  - apply forEachElement_cons_inv in H.
    destruct H as (p & st1 & rest & Hp & Hrest & ->).
    apply Hbody in Hp. destruct Hp as [Hi Hw].
    simpl. repeat split; auto. eapply IH; eauto.
Qed.

Lemma build_targets SGF rep fuel :
  (forall init o s st plan st',
      build SGF rep fuel init o s st = Done (plan, st') ->
      planInit plan = init /\ WellTargeted plan)
  /\
  (forall init o ss st plan st',
      buildForTuple SGF rep fuel init o ss st = Done (plan, st') ->
      planInit plan = init /\ WellTargeted plan).
Proof.
  induction fuel as [|fuel [IHb IHt]]; [split; intros; discriminate|].
  split.
  - intros init o s st plan st' H. simpl in H.
    destruct (isTuple o) eqn:Ho.
    + apply bind_inv in H. destruct H as (ss & st1 & Hc & H).
      apply orAbort_inv in Hc. destruct Hc as [_ ->]. eauto.
    + apply buildLeaf_spec in H; [|exact Ho].
      destruct H as (_ & Hleaf & Hinit).
      destruct plan; try discriminate; simpl in *; auto.
  - intros init o ss st plan st' H. simpl in H.
    destruct init as [tupleInit|].
    + destruct (canSplitIntoTupleElements tupleInit).
      * apply bind_inv in H. destruct H as (plans & st1 & Hloop & H). inv H.
        simpl. repeat split.
        eapply forEachElement_allWithEltInit; [|exact Hloop].
        intros i t s0 p s1 Hb. cbv beta in Hb.
        apply bind_inv in Hb. destruct Hb as (oe & s2 & Ho & Hb).
        apply orAbort_inv in Ho. destruct Ho as [_ ->].
        apply bind_inv in Hb. destruct Hb as (e & s3 & He & Hb).
        apply orAbort_inv in He. destruct He as [He ->].
        apply IHb in Hb. destruct Hb as [Hi Hw]. split; [|exact Hw].
        exists e. auto.
      * destruct (isAddressOnly (getTypeLowering SGF (TupleType ss))).
        -- apply bind_inv in H. destruct H as (t & st1 & Ht & H).
           apply bind_inv in H. destruct H as (sub & st2 & Hsub & H). inv H.
           unfold emitTemporaryM in Ht. inv Ht.
           apply IHt in Hsub. simpl. auto.
        -- apply bind_inv in H. destruct H as (sub & st2 & Hsub & H). inv H.
           apply IHt in Hsub. simpl. auto.
    + apply bind_inv in H. destruct H as (plans & st1 & Hloop & H). inv H.
      simpl. split; [reflexivity|].
      eapply forEachElement_allWithoutInit; [|exact Hloop].
      intros i t s0 p s1 Hb. cbv beta in Hb.
      apply bind_inv in Hb. destruct Hb as (oe & s2 & Ho & Hb).
      apply orAbort_inv in Ho. destruct Ho as [_ ->]. eauto.
Qed.

(** X6: the plan a build returns holds, at its root, the destination the
    build was given (none if it was given none), and so does every
    node below: the i-th element plan of a TupleInitialization holds the
    i-th initialization of the split it keeps, the element plans of a
    TupleRValue hold none, the sub-plan of InitFromTemporary holds the
    temporary of its parent and the sub-plan of InitFromRValue holds
    none. *)
Theorem build_targets_destination :
  forall SGF rep fuel init origType substType st plan st',
    build SGF rep fuel init origType substType st = Done (plan, st') ->
    planInit plan = init /\ WellTargeted plan.
Proof.
  intros SGF rep fuel init origType substType st plan st' H.
  apply (proj1 (build_targets SGF rep fuel)) in H. exact H.
Qed.

Lemma build_targets_destination_witness :
  planInit
    (TupleInitializationResultPlan Examples.splittable
       [Examples.dest 2 1; Examples.dest 3 2]
       [InPlaceInitializationResultPlan (Examples.dest 2 1);
        ScalarResultPlan None (OpaquePattern 2)
                         (Some (Examples.dest 3 2)) 0])
  = Some Examples.splittable /\
  WellTargeted
    (TupleInitializationResultPlan Examples.splittable
       [Examples.dest 2 1; Examples.dest 3 2]
       [InPlaceInitializationResultPlan (Examples.dest 2 1);
        ScalarResultPlan None (OpaquePattern 2)
                         (Some (Examples.dest 3 2)) 0]).
Proof.
  apply (@build_targets_destination Examples.exSGF 0 4
           (Some Examples.splittable) Examples.pairPattern
           (Examples.pairType 1 2)
           (mkBuilderState
              [Examples.indirectResult 1; Examples.directResult 2] [] [])
           _ (mkBuilderState [] [mkSILValue 2 1] [])).
  reflexivity.
Defined.

(** ** Finish depends only on the direct results it takes *)

Lemma Framed_ret {A : Type} (a : A) st : Framed (ret a) st a st.
Proof.
  exists [], []. simpl. rewrite app_nil_r. repeat split.
  intros more trace. rewrite app_nil_r. reflexivity.
Qed.

Lemma Framed_bind {A B : Type} (m : Finisher A) (k : A -> Finisher B)
      st a st1 b st2 :
  Framed m st a st1 ->
  Framed (k a) st1 b st2 ->
  Framed (bind m k) st b st2.
Proof.
  intros (t1 & e1 & Hd1 & He1 & H1) (t2 & e2 & Hd2 & He2 & H2).
  exists (t1 ++ t2), (e1 ++ e2). repeat split.
  - rewrite Hd1, Hd2, app_assoc. reflexivity.
  - rewrite He2, He1, app_assoc. reflexivity.
  - intros more trace. unfold bind.
    rewrite <- app_assoc, H1, H2, app_assoc. reflexivity.
Qed.

Lemma Framed_emit e st r st' :
  emit e st = Done (r, st') -> Framed (emit e) st r st'.
Proof.
  unfold emit. intros H. inv H. exists [], [e]. simpl. auto.
Qed.

Lemma Framed_assertM cond d st r st' :
  assertM cond d st = Done (r, st') -> Framed (assertM cond d) st r st'.
Proof.
  intros H. pose proof (assertM_inv _ _ _ H) as [-> ->].
  destruct r. apply (Framed_ret tt).
Qed.

Lemma Framed_orAbort {A : Type} d (o : option A) st a st' :
  orAbort d o st = Done (a, st') -> Framed (orAbort d o) st a st'.
Proof.
  intros H. pose proof (orAbort_inv _ _ _ H) as [-> ->].
  apply (Framed_ret a).
Qed.

Lemma Framed_claimDirectResult origType st value st' :
  claimDirectResult origType st = Done (value, st') ->
  Framed (claimDirectResult origType) st value st'.
Proof.
  unfold claimDirectResult.
  destruct (directResults st) as [|v rest] eqn:Hd; [discriminate|].
  intros H. inv H.
  exists [value], [EvClaimDirectResult origType value]. simpl. auto.
Qed.

(** Decompose a run of a bind and frame its two halves. *)
Ltac frame_bind H :=
  let a := fresh "a" in
  let st1 := fresh "st" in
  let Hm := fresh "Hm" in
  apply bind_inv in H; destruct H as (a & st1 & Hm & H);
  apply (@Framed_bind _ _ _ _ _ a st1).

Lemma Framed_claimValue SGF temporary origType substTL st value st' :
  claimValue SGF temporary origType substTL st = Done (value, st') ->
  Framed (claimValue SGF temporary origType substTL) st value st'.
Proof.
  destruct temporary as [t|]; simpl; intros H.
  - frame_bind H; [apply Framed_emit; exact Hm|].
    destruct (isAddressOnly substTL); simpl in *.
    + inv H. apply Framed_ret.
    + unfold emitLoadM in *. frame_bind H; [apply Framed_emit; exact Hm0|].
      inv H. apply Framed_ret.
  - apply Framed_claimDirectResult. exact H.
Qed.

Lemma Framed_storeValue init substType value st rv st' :
  storeValue init substType value st = Done (rv, st') ->
  Framed (storeValue init substType value) st rv st'.
Proof.
  destruct init as [i|]; simpl; intros H.
  - frame_bind H; [apply Framed_emit; exact Hm|].
    frame_bind H; [apply Framed_emit; exact Hm0|].
    inv H. apply Framed_ret.
  - inv H. apply Framed_ret.
Qed.

Lemma Framed_emitOrigToSubstValueM SGF value origType substType init st
      value' st' :
  emitOrigToSubstValueM SGF value origType substType init st
  = Done (value', st') ->
  Framed (emitOrigToSubstValueM SGF value origType substType init)
         st value' st'.
Proof.
  unfold emitOrigToSubstValueM. intros H.
  frame_bind H; [apply Framed_emit; exact Hm|].
  frame_bind H.
  - destruct init as [i|].
    + destruct (isInContext _).
      * apply Framed_emit. exact Hm0.
      * inv Hm0. apply Framed_ret.
    + inv Hm0. apply Framed_ret.
  - inv H. apply Framed_ret.
Qed.

Lemma Framed_finishScalar SGF temporary origType init rep substType st rv
      st' :
  finishScalar SGF temporary origType init rep substType st = Done (rv, st') ->
  Framed (finishScalar SGF temporary origType init rep substType) st rv st'.
Proof.
  unfold finishScalar. intros H.
  frame_bind H; [apply Framed_claimValue; exact Hm|].
  destruct (hasAbstractionDifference SGF _ rep _).
  - destruct (getSILFunctionLanguage SGF rep).
    + frame_bind H; [apply Framed_emitOrigToSubstValueM; exact Hm0|].
      destruct (isInContext a0).
      * inv H. apply Framed_ret.
      * apply Framed_storeValue. exact H.
    + frame_bind H.
      * unfold emitBridgedToNativeValueM in *.
        frame_bind Hm0; [apply Framed_emit; exact Hm1|].
        inv Hm0. apply Framed_ret.
      * apply Framed_storeValue. exact H.
  - apply Framed_storeValue. exact H.
Qed.

Lemma Framed_finishRValueElts SGF eltPlans :
  Forall (fun p => forall ty st rv st',
              finish SGF p ty st = Done (rv, st') ->
              Framed (finish SGF p ty) st rv st') eltPlans ->
  forall eltTypes tupleRV st rv st',
    finishRValueElts (finish SGF) eltPlans eltTypes tupleRV st
    = Done (rv, st') ->
    Framed (finishRValueElts (finish SGF) eltPlans eltTypes tupleRV)
           st rv st'.
Proof.
  induction 1 as [|p ps Hp _ IH]; intros eltTypes tupleRV st rv st' H.
  - simpl in *. inv H. apply Framed_ret.
  - destruct eltTypes as [|t ts]; simpl in *.
    + inv H. apply Framed_ret.
    + frame_bind H; [apply Hp; exact Hm|]. apply IH. exact H.
Qed.

Lemma Framed_finishInitElts SGF eltPlans :
  Forall (fun p => forall ty st rv st',
              finish SGF p ty st = Done (rv, st') ->
              Framed (finish SGF p ty) st rv st') eltPlans ->
  forall eltTypes st r st',
    finishInitElts (finish SGF) eltPlans eltTypes st = Done (r, st') ->
    Framed (finishInitElts (finish SGF) eltPlans eltTypes) st r st'.
Proof.
  induction 1 as [|p ps Hp _ IH]; intros eltTypes st r st' H.
  - simpl in *. inv H. apply Framed_ret.
  - destruct eltTypes as [|t ts]; simpl in *.
    + inv H. apply Framed_ret.
    + frame_bind H; [apply Hp; exact Hm|].
      frame_bind H; [apply Framed_assertM; exact Hm0|].
      apply IH. exact H.
Qed.

Lemma Framed_finish SGF plan :
  forall ty st rv st',
    finish SGF plan ty st = Done (rv, st') ->
    Framed (finish SGF plan ty) st rv st'.
Proof.
  induction plan using ResultPlan_nested_ind; intros ty st rv st' Hfin;
    simpl in *.
  - frame_bind Hfin; [apply Framed_emit; exact Hm|].
    inv Hfin. apply Framed_ret.
  - apply Framed_finishScalar. exact Hfin.
  - frame_bind Hfin; [apply IHplan; exact Hm|].
    frame_bind Hfin; [apply Framed_assertM; exact Hm0|].
    frame_bind Hfin; [apply Framed_emit; exact Hm1|].
    frame_bind Hfin; [apply Framed_emit; exact Hm2|].
    inv Hfin. apply Framed_ret.
  - frame_bind Hfin; [apply IHplan; exact Hm|].
    frame_bind Hfin; [apply Framed_emit; exact Hm0|].
    frame_bind Hfin; [apply Framed_emit; exact Hm1|].
    frame_bind Hfin; [apply Framed_emit; exact Hm2|].
    inv Hfin. apply Framed_ret.
  - frame_bind Hfin; [apply Framed_orAbort; exact Hm|].
    frame_bind Hfin; [apply Framed_assertM; exact Hm0|].
    apply Framed_finishRValueElts; assumption.
  - frame_bind Hfin; [apply Framed_orAbort; exact Hm|].
    frame_bind Hfin; [apply Framed_assertM; exact Hm0|].
    frame_bind Hfin; [apply Framed_finishInitElts; assumption|].
    frame_bind Hfin; [apply Framed_emit; exact Hm2|].
    inv Hfin. apply Framed_ret.
Qed.

(** X7: a finish that returns has taken a prefix of the cursor and
    appended to the trace, and it depends on nothing else of its state:
    from any cursor that starts with the direct results it took, and
    after any trace, finish of the same plan returns the same r-value,
    leaves what follows these direct results and appends the same
    operations. *)
Theorem finish_frame :
  forall SGF plan substType st rv st',
    finish SGF plan substType st = Done (rv, st') ->
    exists taken events,
      directResults st = taken ++ directResults st' /\
      emitted st' = emitted st ++ events /\
      forall more trace,
        finish SGF plan substType (mkFinishState (taken ++ more) trace)
        = Done (rv, mkFinishState more (trace ++ events)).
Proof.
  intros SGF plan substType st rv st' H.
  apply Framed_finish in H. exact H.
Qed.

Lemma finish_frame_witness :
  exists taken events,
    [Examples.value 42 7; Examples.value 43 9]
    = taken ++ [Examples.value 43 9] /\
    [EvClaimDirectResult (OpaquePattern 7) (Examples.value 42 7);
     EvOrigToSubst (Examples.value 42 7) None]
    = [] ++ events /\
    forall more trace,
      finish Examples.exSGF
             (ScalarResultPlan None (OpaquePattern 7) None 0)
             (NominalType 8) (mkFinishState (taken ++ more) trace)
      = Done (RValue_ofValue (NominalType 8) (Examples.value 942 8),
              mkFinishState more (trace ++ events)).
Proof.
  apply (@finish_frame Examples.exSGF
           (ScalarResultPlan None (OpaquePattern 7) None 0) (NominalType 8)
           (mkFinishState [Examples.value 42 7; Examples.value 43 9] [])
           (RValue_ofValue (NominalType 8) (Examples.value 942 8))
           (mkFinishState [Examples.value 43 9]
              [EvClaimDirectResult (OpaquePattern 7) (Examples.value 42 7);
               EvOrigToSubst (Examples.value 42 7) None])).
  reflexivity.
Defined.

(** ** Copies are committed at once *)

Lemma copiesCommitted_app t1 t2 :
  copiesCommitted t1 = true ->
  copiesCommitted t2 = true ->
  copiesCommitted (t1 ++ t2) = true.
Proof.
  intros H1 H2. induction t1 as [|e t1 IH]; [exact H2|].
  destruct e; simpl in *; auto.
  destruct t1 as [|[] t1]; try discriminate. simpl in *.
  apply andb_prop in H1. destruct H1 as [Hid H1].
  rewrite Hid. simpl. apply IH. exact H1.
Qed.

Lemma Committed_refl st : Committed st st.
Proof. exists []. rewrite app_nil_r. auto. Qed.

Lemma Committed_trans st st1 st2 :
  Committed st st1 -> Committed st1 st2 -> Committed st st2.
Proof.
  intros (e1 & He1 & H1) (e2 & He2 & H2). exists (e1 ++ e2). split.
  - rewrite He2, He1, app_assoc. reflexivity.
  - apply copiesCommitted_app; assumption.
Qed.

Lemma Committed_emit e st r st' :
  emit e st = Done (r, st') ->
  copiesCommitted [e] = true ->
  Committed st st'.
Proof.
  unfold emit. intros H Hc. inv H. exists [e]. auto.
Qed.

Lemma Committed_copy_finish init value st r1 st1 r2 st2 :
  copyOrInitValueInto init value st = Done (r1, st1) ->
  finishInitialization init st1 = Done (r2, st2) ->
  Committed st st2.
Proof.
  unfold copyOrInitValueInto, finishInitialization, emit.
  intros H1 H2. inv H1. inv H2.
  exists [EvCopyOrInitValueInto (initId init) value;
          EvFinishInitialization (initId init)].
  simpl. rewrite <- app_assoc, Nat.eqb_refl. auto.
Qed.

Lemma Committed_claimValue SGF temporary origType substTL st value st' :
  claimValue SGF temporary origType substTL st = Done (value, st') ->
  Committed st st'.
Proof.
  destruct temporary as [t|]; simpl; intros H.
  - apply bind_inv in H. destruct H as ([] & st1 & Hf & H).
    apply Committed_emit in Hf; [|reflexivity].
    eapply Committed_trans; [exact Hf|].
    destruct (isAddressOnly substTL); simpl in H.
    + inv H. apply Committed_refl.
    + unfold emitLoadM in H. apply bind_inv in H.
      destruct H as ([] & st2 & He & H). inv H.
      eapply Committed_emit; eauto.
  - unfold claimDirectResult in H.
    destruct (directResults st); [discriminate|]. inv H.
    eexists [_]. simpl. auto.
Qed.

Lemma Committed_storeValue init substType value st rv st' :
  storeValue init substType value st = Done (rv, st') ->
  Committed st st'.
Proof.
  destruct init as [i|]; simpl; intros H.
  - apply bind_inv in H. destruct H as ([] & st1 & Hc & H).
    apply bind_inv in H. destruct H as ([] & st2 & Hf & H). inv H.
    eapply Committed_copy_finish; eauto.
  - inv H. apply Committed_refl.
Qed.

Lemma Committed_emitOrigToSubstValueM SGF value origType substType init st
      value' st' :
  emitOrigToSubstValueM SGF value origType substType init st
  = Done (value', st') ->
  Committed st st'.
Proof.
  unfold emitOrigToSubstValueM. intros H.
  apply bind_inv in H. destruct H as ([] & st1 & He & H).
  apply bind_inv in H. destruct H as ([] & st2 & Hf & H). inv H.
  apply Committed_emit in He; [|reflexivity].
  eapply Committed_trans; [exact He|].
  destruct init as [i|].
  - destruct (isInContext _).
    + eapply Committed_emit; eauto.
    + inv Hf. apply Committed_refl.
  - inv Hf. apply Committed_refl.
Qed.

Lemma Committed_finishScalar SGF temporary origType init rep substType st rv
      st' :
  finishScalar SGF temporary origType init rep substType st = Done (rv, st') ->
  Committed st st'.
Proof.
  unfold finishScalar. intros H.
  apply bind_inv in H. destruct H as (value & st1 & Hclaim & H).
  apply Committed_claimValue in Hclaim.
  eapply Committed_trans; [exact Hclaim|].
  destruct (hasAbstractionDifference SGF _ rep _).
  - destruct (getSILFunctionLanguage SGF rep).
    + apply bind_inv in H. destruct H as (value' & st2 & Hr & H).
      apply Committed_emitOrigToSubstValueM in Hr.
      eapply Committed_trans; [exact Hr|].
      destruct (isInContext value').
      * inv H. apply Committed_refl.
      * eapply Committed_storeValue; eauto.
    + apply bind_inv in H. destruct H as (value' & st2 & Hb & H).
      unfold emitBridgedToNativeValueM in Hb.
      apply bind_inv in Hb. destruct Hb as ([] & st3 & He & Hb). inv Hb.
      apply Committed_emit in He; [|reflexivity].
      eapply Committed_trans; [exact He|].
      eapply Committed_storeValue; eauto.
  - eapply Committed_storeValue; eauto.
Qed.

Lemma Committed_finishRValueElts SGF eltPlans :
  Forall (fun p => forall ty st rv st',
              finish SGF p ty st = Done (rv, st') -> Committed st st')
         eltPlans ->
  forall eltTypes tupleRV st rv st',
    finishRValueElts (finish SGF) eltPlans eltTypes tupleRV st
    = Done (rv, st') ->
    Committed st st'.
Proof.
  induction 1 as [|p ps Hp _ IH]; intros eltTypes tupleRV st rv st' H.
  - simpl in H. inv H. apply Committed_refl.
  - destruct eltTypes as [|t ts]; simpl in H.
    + inv H. apply Committed_refl.
    + apply bind_inv in H. destruct H as (eltRV & st1 & He & H).
      eapply Committed_trans; eauto.
Qed.

Lemma Committed_finishInitElts SGF eltPlans :
  Forall (fun p => forall ty st rv st',
              finish SGF p ty st = Done (rv, st') -> Committed st st')
         eltPlans ->
  forall eltTypes st r st',
    finishInitElts (finish SGF) eltPlans eltTypes st = Done (r, st') ->
    Committed st st'.
Proof.
  induction 1 as [|p ps Hp _ IH]; intros eltTypes st r st' H.
  - simpl in H. inv H. apply Committed_refl.
  - destruct eltTypes as [|t ts]; simpl in H.
    + inv H. apply Committed_refl.
    + apply bind_inv in H. destruct H as (eltRV & st1 & He & H).
      apply bind_inv in H. destruct H as ([] & st2 & Ha & H).
      apply assertM_inv in Ha. destruct Ha as [_ ->].
      eapply Committed_trans; eauto.
Qed.

Lemma Committed_finish SGF plan :
  forall ty st rv st',
    finish SGF plan ty st = Done (rv, st') -> Committed st st'.
Proof.
  induction plan using ResultPlan_nested_ind; intros ty st rv st' Hfin;
    simpl in Hfin.
  - apply bind_inv in Hfin. destruct Hfin as ([] & st1 & Hf & Hfin).
    inv Hfin. eapply Committed_emit; eauto.
  - eapply Committed_finishScalar; eauto.
  - apply bind_inv in Hfin. destruct Hfin as (sub & st1 & Hsub & Hfin).
    apply bind_inv in Hfin. destruct Hfin as ([] & st2 & Ha & Hfin).
    apply assertM_inv in Ha. destruct Ha as [_ ->].
    apply bind_inv in Hfin. destruct Hfin as ([] & st3 & Hc & Hfin).
    apply bind_inv in Hfin. destruct Hfin as ([] & st4 & Hf & Hfin).
    inv Hfin.
    eapply Committed_trans; [eapply IHplan; eauto|].
    eapply Committed_copy_finish; eauto.
  - apply bind_inv in Hfin. destruct Hfin as (sub & st1 & Hsub & Hfin).
    apply bind_inv in Hfin. destruct Hfin as ([] & st2 & He & Hfin).
    apply bind_inv in Hfin. destruct Hfin as ([] & st3 & Hc & Hfin).
    apply bind_inv in Hfin. destruct Hfin as ([] & st4 & Hf & Hfin).
    inv Hfin.
    eapply Committed_trans; [eapply IHplan; eauto|].
    apply Committed_emit in He; [|reflexivity].
    eapply Committed_trans; [exact He|].
    eapply Committed_copy_finish; eauto.
  - apply bind_inv in Hfin. destruct Hfin as (tys & st1 & Hc & Hfin).
    apply orAbort_inv in Hc. destruct Hc as [_ ->].
    apply bind_inv in Hfin. destruct Hfin as ([] & st2 & Ha & Hfin).
    apply assertM_inv in Ha. destruct Ha as [_ ->].
    eapply Committed_finishRValueElts; eauto.
  - apply bind_inv in Hfin. destruct Hfin as (tys & st1 & Hc & Hfin).
    apply orAbort_inv in Hc. destruct Hc as [_ ->].
    apply bind_inv in Hfin. destruct Hfin as ([] & st2 & Ha & Hfin).
    apply assertM_inv in Ha. destruct Ha as [_ ->].
    apply bind_inv in Hfin. destruct Hfin as ([] & st3 & Hloop & Hfin).
    apply bind_inv in Hfin. destruct Hfin as ([] & st4 & Hf & Hfin).
    inv Hfin.
    eapply Committed_trans; [eapply Committed_finishInitElts; eauto|].
    eapply Committed_emit; eauto.
Qed.

(** X8: in the operations of any finish that returns, every
    copyOrInitValueInto on an initialization is followed at once by the
    finishInitialization of that same initialization: no plan leaves a
    destination written and not committed, and nothing happens between
    the two. *)
Theorem finish_commits_each_copy :
  forall SGF plan substType st rv st',
    finish SGF plan substType st = Done (rv, st') ->
    exists events,
      emitted st' = emitted st ++ events /\
      copiesCommitted events = true.
Proof.
  intros SGF plan substType st rv st' H.
  apply Committed_finish in H. exact H.
Qed.

Lemma finish_commits_each_copy_witness :
  exists events,
    [EvFinishInitialization 2;
     EvClaimDirectResult (OpaquePattern 2) (Examples.value 42 2);
     EvCopyOrInitValueInto 3 (Examples.value 42 2);
     EvFinishInitialization 3;
     EvFinishInitialization 1] = [] ++ events /\
    copiesCommitted events = true.
Proof.
  apply (@finish_commits_each_copy Examples.exSGF
           (TupleInitializationResultPlan Examples.splittable
              [Examples.dest 2 1; Examples.dest 3 2]
              [InPlaceInitializationResultPlan (Examples.dest 2 1);
               ScalarResultPlan None (OpaquePattern 2)
                                (Some (Examples.dest 3 2)) 0])
           (Examples.pairType 1 2)
           (mkFinishState [Examples.value 42 2] [])
           RValue_used
           (mkFinishState []
              [EvFinishInitialization 2;
               EvClaimDirectResult (OpaquePattern 2) (Examples.value 42 2);
               EvCopyOrInitValueInto 3 (Examples.value 42 2);
               EvFinishInitialization 3;
               EvFinishInitialization 1])).
  reflexivity.
Defined.

(** ** Finish returns only against a type of the plan's shape *)

Lemma finishRValueElts_arity SGF eltPlans :
  Forall (fun p => forall ty st rv st',
              finish SGF p ty st = Done (rv, st') -> arityFits p ty = true)
         eltPlans ->
  forall eltTypes tupleRV st rv st',
    length eltTypes = length eltPlans ->
    finishRValueElts (finish SGF) eltPlans eltTypes tupleRV st
    = Done (rv, st') ->
    forallb2 arityFits eltPlans eltTypes = true.
Proof.
  induction 1 as [|p ps Hp _ IH]; intros [|t ts] tupleRV st rv st' Hlen H;
    try discriminate Hlen; [reflexivity|].
  simpl in H. apply bind_inv in H. destruct H as (eltRV & st1 & He & H).
  simpl. rewrite (Hp _ _ _ _ He). simpl.
  eapply IH; eauto.
Qed.

Lemma finishInitElts_arity SGF eltPlans :
  Forall (fun p => forall ty st rv st',
              finish SGF p ty st = Done (rv, st') -> arityFits p ty = true)
         eltPlans ->
  forall eltTypes st r st',
    length eltTypes = length eltPlans ->
    finishInitElts (finish SGF) eltPlans eltTypes st = Done (r, st') ->
    forallb2 arityFits eltPlans eltTypes = true.
Proof.
  induction 1 as [|p ps Hp _ IH]; intros [|t ts] st r st' Hlen H;
    try discriminate Hlen; [reflexivity|].
  simpl in H. apply bind_inv in H. destruct H as (eltRV & st1 & He & H).
  apply bind_inv in H. destruct H as ([] & st2 & Ha & H).
  apply assertM_inv in Ha. destruct Ha as [_ ->].
  simpl. rewrite (Hp _ _ _ _ He). simpl.
  eapply IH; eauto.
Qed.

(** The finisher's own operations stop with a result or with a defect. *)
Lemma bind_definite {St A B : Type} (m : M St A) (k : A -> M St B) :
  (forall s, m s <> OutOfFuel) ->
  (forall a s, k a s <> OutOfFuel) ->
  forall s, bind m k s <> OutOfFuel.
Proof.
  intros Hm Hk s. unfold bind. specialize (Hm s).
  destruct (m s) as [[a s']|d|]; [apply Hk|discriminate|congruence].
Qed.

Lemma assertM_definite {St : Type} (cond : bool) (d : Defect) (s : St) :
  assertM cond d s <> OutOfFuel.
Proof. destruct cond; discriminate. Qed.

Lemma orAbort_definite {St A : Type} (d : Defect) (o : option A) (s : St) :
  orAbort d o s <> OutOfFuel.
Proof. destruct o; discriminate. Qed.

Lemma emit_definite e s : emit e s <> OutOfFuel.
Proof. discriminate. Qed.

Lemma storeValue_definite init ty value s :
  storeValue init ty value s <> OutOfFuel.
Proof.
  destruct init as [i|]; [|discriminate]. simpl.
  apply bind_definite; [intros; apply emit_definite|intros _ s1].
  apply bind_definite; [intros; apply emit_definite|discriminate].
Qed.

Lemma claimValue_definite SGF temporary o TL s :
  claimValue SGF temporary o TL s <> OutOfFuel.
Proof.
  destruct temporary as [t|]; simpl.
  - apply bind_definite; [intros; apply emit_definite|intros _ s1].
    destruct (negb (isAddressOnly TL)); [|discriminate].
    apply bind_definite; [intros; apply emit_definite|discriminate].
  - unfold claimDirectResult. destruct (directResults s); discriminate.
Qed.

Lemma finishScalar_definite SGF temporary o init rep ty s :
  finishScalar SGF temporary o init rep ty s <> OutOfFuel.
Proof.
  unfold finishScalar.
  apply bind_definite; [intros; apply claimValue_definite|intros value s1].
  destruct (hasAbstractionDifference SGF _ _ _);
    [|apply storeValue_definite].
  destruct (getSILFunctionLanguage SGF rep).
  - apply bind_definite; [|intros value' s2].
    + intros s2. unfold emitOrigToSubstValueM.
      apply bind_definite; [intros; apply emit_definite|intros _ s3].
      apply bind_definite; [|discriminate].
      intros s4. destruct init as [i|]; [|discriminate].
      destruct (isInContext _); [apply emit_definite|discriminate].
    + destruct (isInContext value'); [discriminate|].
      apply storeValue_definite.
  - apply bind_definite; [|intros; apply storeValue_definite].
    intros s2. unfold emitBridgedToNativeValueM.
    apply bind_definite; [intros; apply emit_definite|discriminate].
Qed.

(** Finishing a plan stops, with a result or with a defect. *)
Lemma finish_definite SGF plan :
  forall ty s, finish SGF plan ty s <> OutOfFuel.
Proof.
  induction plan using ResultPlan_nested_ind; intros ty s.
  - simpl. apply bind_definite; [intros; apply emit_definite|discriminate].
  - apply finishScalar_definite.
  - simpl. apply bind_definite; [apply IHplan|intros sub s1].
    apply bind_definite; [intros; apply assertM_definite|intros _ s2].
    apply bind_definite; [intros; apply emit_definite|intros _ s3].
    apply bind_definite; [intros; apply emit_definite|discriminate].
  - simpl. apply bind_definite; [apply IHplan|intros sub s1].
    apply bind_definite; [intros; apply emit_definite|intros _ s2].
    apply bind_definite; [intros; apply emit_definite|intros _ s3].
    apply bind_definite; [intros; apply emit_definite|discriminate].
  - simpl. apply bind_definite; [intros; apply orAbort_definite|].
    intros tys s1.
    apply bind_definite; [intros; apply assertM_definite|intros _ s2].
    generalize (RValue_ofType ty). revert tys s2.
    match goal with H : Forall _ _ |- _ =>
      induction H as [|p ps Hp _ IH] end;
      intros [|t ts] s2 rv; simpl; try discriminate.
    apply bind_definite; [apply Hp|intros; apply IH].
  - simpl. apply bind_definite; [intros; apply orAbort_definite|].
    intros tys s1.
    apply bind_definite; [intros; apply assertM_definite|intros _ s2].
    apply bind_definite;
      [|intros _ s3;
        apply bind_definite; [intros; apply emit_definite|discriminate]].
    clear s2. revert tys.
    match goal with H : Forall _ _ |- _ =>
      induction H as [|p ps Hp _ IH] end;
      intros [|t ts] s2; simpl; try discriminate.
    apply bind_definite; [apply Hp|intros eltRV s3].
    apply bind_definite; [intros; apply assertM_definite|intros; apply IH].
Qed.

(** X9: finish returns only against a substituted type that is a tuple
    type of the plan's own arity at every tuple plan, all the way down.
    Against any other type it aborts with one of the defects, which can
    be one that an element plan reaches first.  For the outermost tuple
    plan (the plan itself, or the one that InitFromTemporary and
    InitFromRValue plans wrap) the defect is known: against a type that
    is not a tuple it is the cast to a tuple type, and against a tuple
    type of another arity the assertion on the number of element
    plans. *)
Theorem finish_returns_only_on_fitting_type :
  forall SGF plan substType st,
    (forall rv st',
        finish SGF plan substType st = Done (rv, st') ->
        arityFits plan substType = true) /\
    (arityFits plan substType = false ->
     exists d, finish SGF plan substType st = Abort d) /\
    (forall name,
        isTuplePlan plan = true ->
        substType = NominalType name ->
        finish SGF plan substType st = Abort BadCastToTupleType) /\
    (forall substElts,
        isTuplePlan plan = true ->
        substType = TupleType substElts ->
        length substElts <> length (tupleEltPlans plan) ->
        finish SGF plan substType st = Abort EltPlansSizeMismatch).
Proof.
  intros SGF plan substType st.
  assert (Hfit : forall rv st',
             finish SGF plan substType st = Done (rv, st') ->
             arityFits plan substType = true).
  { revert substType st.
    induction plan using ResultPlan_nested_ind; intros ty st rv st' Hfin;
      simpl in *; auto.
    - apply bind_inv in Hfin. destruct Hfin as (sub & st1 & Hsub & _). eauto.
    - apply bind_inv in Hfin. destruct Hfin as (sub & st1 & Hsub & _). eauto.
    - apply bind_inv in Hfin. destruct Hfin as (tys & st1 & Hc & Hfin).
      apply orAbort_inv in Hc. destruct Hc as [Hc ->].
      destruct ty as [n|elts]; [discriminate|]. simpl in Hc.
      injection Hc as ->.
      apply bind_inv in Hfin. destruct Hfin as ([] & st2 & Ha & Hfin).
      apply assertM_inv in Ha. destruct Ha as [Hlen ->].
      apply Nat.eqb_eq in Hlen.
      eapply finishRValueElts_arity; eauto.
    - apply bind_inv in Hfin. destruct Hfin as (tys & st1 & Hc & Hfin).
      apply orAbort_inv in Hc. destruct Hc as [Hc ->].
      destruct ty as [n|elts]; [discriminate|]. simpl in Hc.
      injection Hc as ->.
      apply bind_inv in Hfin. destruct Hfin as ([] & st2 & Ha & Hfin).
      apply assertM_inv in Ha. destruct Ha as [Hlen ->].
      apply Nat.eqb_eq in Hlen.
      apply bind_inv in Hfin. destruct Hfin as ([] & st3 & Hloop & _).
      eapply finishInitElts_arity; eauto. }
  split; [exact Hfit|]. split; [|split].
  - intros Hno. pose proof (@finish_definite SGF plan substType st) as Hdef.
    destruct (finish SGF plan substType st) as [[rv st']|d|] eqn:Hfin.
    + rewrite (Hfit rv st' eq_refl) in Hno. discriminate.
    + exists d. reflexivity.
    + congruence.
  - intros name Hroot ->. clear Hfit. revert st.
    induction plan using ResultPlan_nested_ind; intros st;
      try discriminate Hroot; simpl in *;
      try (unfold bind; rewrite (IHplan Hroot)); reflexivity.
  - intros substElts Hroot -> Hlen. clear Hfit.
    apply Nat.eqb_neq in Hlen. revert st.
    induction plan using ResultPlan_nested_ind; intros st;
      try discriminate Hroot; simpl in *.
    + unfold bind. rewrite (IHplan Hroot Hlen). reflexivity.
    + unfold bind. rewrite (IHplan Hroot Hlen). reflexivity.
    + unfold bind, orAbort, assertM. simpl. rewrite Hlen. reflexivity.
    + unfold bind, orAbort, assertM. simpl. rewrite Hlen. reflexivity.
Qed.

Lemma finish_returns_only_on_fitting_type_witness :
  arityFits
    (TupleInitializationResultPlan Examples.splittable
       [Examples.dest 2 1; Examples.dest 3 2]
       [InPlaceInitializationResultPlan (Examples.dest 2 1);
        ScalarResultPlan None (OpaquePattern 2)
                         (Some (Examples.dest 3 2)) 0])
    (Examples.pairType 1 2) = true /\
  (exists d,
      finish Examples.exSGF
        (TupleRValueResultPlan
           [TupleRValueResultPlan [];
            ScalarResultPlan None (OpaquePattern 2) None 0])
        (Examples.pairType 1 2)
        (mkFinishState [Examples.value 42 2] [])
      = Abort d) /\
  finish Examples.exSGF
    (TupleRValueResultPlan [ScalarResultPlan None (OpaquePattern 2) None 0])
    (NominalType 2) (mkFinishState [Examples.value 42 2] [])
  = Abort BadCastToTupleType /\
  finish Examples.exSGF
    (TupleRValueResultPlan [ScalarResultPlan None (OpaquePattern 2) None 0])
    (Examples.pairType 1 2) (mkFinishState [Examples.value 42 2] [])
  = Abort EltPlansSizeMismatch.
Proof.
  split; [|split; [|split]].
  - apply (proj1 (@finish_returns_only_on_fitting_type Examples.exSGF
             (TupleInitializationResultPlan Examples.splittable
                [Examples.dest 2 1; Examples.dest 3 2]
                [InPlaceInitializationResultPlan (Examples.dest 2 1);
                 ScalarResultPlan None (OpaquePattern 2)
                                  (Some (Examples.dest 3 2)) 0])
             (Examples.pairType 1 2)
             (mkFinishState [Examples.value 42 2] []))
             RValue_used
             (mkFinishState []
                [EvFinishInitialization 2;
                 EvClaimDirectResult (OpaquePattern 2) (Examples.value 42 2);
                 EvCopyOrInitValueInto 3 (Examples.value 42 2);
                 EvFinishInitialization 3;
                 EvFinishInitialization 1])).
    reflexivity.
  - apply (proj1 (proj2 (@finish_returns_only_on_fitting_type
             Examples.exSGF
             (TupleRValueResultPlan
                [TupleRValueResultPlan [];
                 ScalarResultPlan None (OpaquePattern 2) None 0])
             (Examples.pairType 1 2)
             (mkFinishState [Examples.value 42 2] [])))).
    reflexivity.
  - apply (proj1 (proj2 (proj2 (@finish_returns_only_on_fitting_type
             Examples.exSGF
             (TupleRValueResultPlan
                [ScalarResultPlan None (OpaquePattern 2) None 0])
             (NominalType 2)
             (mkFinishState [Examples.value 42 2] []))))
             2 eq_refl eq_refl).
  - apply (proj2 (proj2 (proj2 (@finish_returns_only_on_fitting_type
             Examples.exSGF
             (TupleRValueResultPlan
                [ScalarResultPlan None (OpaquePattern 2) None 0])
             (Examples.pairType 1 2)
             (mkFinishState [Examples.value 42 2] []))))
             [NominalType 1; NominalType 2] eq_refl eq_refl).
    simpl. lia.
Defined.

(** ** What finish hands back, with and without a destination *)

Lemma finish_with_destination SGF plan ty st rv st' :
  hasDestination plan = true ->
  finish SGF plan ty st = Done (rv, st') ->
  rv = RValue_used.
Proof.
  intros Hd Hfin. destruct plan; simpl in *; try discriminate.
  - apply bind_inv in Hfin. destruct Hfin as ([] & st1 & _ & Hfin).
    inv Hfin. reflexivity.
  - destruct init as [i|]; [|discriminate].
    unfold finishScalar in Hfin.
    apply bind_inv in Hfin. destruct Hfin as (value & st1 & _ & Hfin).
    destruct (hasAbstractionDifference SGF _ rep _).
    + destruct (getSILFunctionLanguage SGF rep).
      * apply bind_inv in Hfin. destruct Hfin as (value' & st2 & _ & Hfin).
        destruct (isInContext value').
        -- inv Hfin. reflexivity.
        -- apply storeValue_step in Hfin. tauto.
      * apply bind_inv in Hfin. destruct Hfin as (value' & st2 & _ & Hfin).
        apply storeValue_step in Hfin. tauto.
    + apply storeValue_step in Hfin. tauto.
  - apply bind_inv in Hfin. destruct Hfin as (sub & st1 & _ & Hfin).
    apply bind_inv in Hfin. destruct Hfin as ([] & st2 & _ & Hfin).
    apply bind_inv in Hfin. destruct Hfin as ([] & st3 & _ & Hfin).
    apply bind_inv in Hfin. destruct Hfin as ([] & st4 & _ & Hfin).
    inv Hfin. reflexivity.
  - apply bind_inv in Hfin. destruct Hfin as (sub & st1 & _ & Hfin).
    apply bind_inv in Hfin. destruct Hfin as ([] & st2 & _ & Hfin).
    apply bind_inv in Hfin. destruct Hfin as ([] & st3 & _ & Hfin).
    apply bind_inv in Hfin. destruct Hfin as ([] & st4 & _ & Hfin).
    inv Hfin. reflexivity.
  - apply bind_inv in Hfin. destruct Hfin as (tys & st1 & _ & Hfin).
    apply bind_inv in Hfin. destruct Hfin as ([] & st2 & _ & Hfin).
    apply bind_inv in Hfin. destruct Hfin as ([] & st3 & _ & Hfin).
    apply bind_inv in Hfin. destruct Hfin as ([] & st4 & _ & Hfin).
    inv Hfin. reflexivity.
Qed.

(** X10: whatever destination a build was given, and whatever the
    pattern and the type, the finish of the plan it returned hands back
    the empty, used r-value [RValue()] and no value: with a destination
    the caller never receives the result as an r-value. *)
Theorem finish_of_plan_with_destination :
  forall SGF rep fuel d origType substType st plan st' finishType fs rv fs',
    build SGF rep fuel (Some d) origType substType st = Done (plan, st') ->
    finish SGF plan finishType fs = Done (rv, fs') ->
    rv = RValue_used.
Proof.
  intros SGF rep fuel d origType substType st plan st' finishType fs rv fs'
         Hbuild Hfin.
  apply build_spec in Hbuild. destruct Hbuild as (_ & _ & Hd).
  eapply finish_with_destination; eauto.
Qed.

Lemma finish_of_plan_with_destination_witness :
  RValue_used = RValue_used.
Proof.
  apply (@finish_of_plan_with_destination Examples.exSGF 0 4
           Examples.unsplittable Examples.pairPattern
           (Examples.pairType 1 2)
           (mkBuilderState
              [Examples.directResult 1; Examples.directResult 2] [] [])
           (InitValueFromRValueResultPlan Examples.unsplittable
              (TupleRValueResultPlan
                 [ScalarResultPlan None (OpaquePattern 1) None 0;
                  ScalarResultPlan None (OpaquePattern 2) None 0]))
           (mkBuilderState [] [] [])
           (Examples.pairType 1 2)
           (mkFinishState [Examples.value 41 1; Examples.value 42 2] [])
           RValue_used
           (mkFinishState []
              [EvClaimDirectResult (OpaquePattern 1) (Examples.value 41 1);
               EvClaimDirectResult (OpaquePattern 2) (Examples.value 42 2);
               EvGetAsSingleValue
                 [Examples.value 41 1; Examples.value 42 2];
               EvCopyOrInitValueInto 1 (Examples.value 950 999);
               EvFinishInitialization 1])); reflexivity.
Defined.

Lemma copiedInits_app t1 t2 :
  copiedInits (t1 ++ t2) = copiedInits t1 ++ copiedInits t2.
Proof. apply flat_map_app. Qed.

Lemma CopyFree_refl st : CopyFree st st.
Proof. exists []. rewrite app_nil_r. auto. Qed.

Lemma CopyFree_trans st st1 st2 :
  CopyFree st st1 -> CopyFree st1 st2 -> CopyFree st st2.
Proof.
  intros (e1 & He1 & H1) (e2 & He2 & H2). exists (e1 ++ e2). split.
  - rewrite He2, He1, app_assoc. reflexivity.
  - rewrite copiedInits_app, H1, H2. reflexivity.
Qed.

Ltac copy_free :=
  unfold CopyFree; simpl; eexists;
  split; [rewrite <- ?app_assoc; reflexivity | reflexivity].

Lemma CopyFree_finishScalar SGF temporary origType rep substType st rv st' :
  finishScalar SGF temporary origType None rep substType st = Done (rv, st') ->
  CopyFree st st'.
Proof.
  unfold finishScalar. intros H.
  apply bind_inv in H. destruct H as (value & st1 & Hclaim & H).
  assert (Hc : CopyFree st st1).
  { destruct temporary as [t|]; simpl in Hclaim.
    - apply bind_inv in Hclaim. destruct Hclaim as ([] & st2 & Hf & Hclaim).
      unfold finishInitialization, emit in Hf. inv Hf.
      destruct (isAddressOnly _); simpl in Hclaim.
      + inv Hclaim. simpl. copy_free.
      + unfold emitLoadM, bind, emit, ret in Hclaim. simpl in Hclaim.
        inv Hclaim. simpl. copy_free.
    - unfold claimDirectResult in Hclaim.
      destruct (directResults st); [discriminate|]. inv Hclaim.
      simpl. copy_free. }
  eapply CopyFree_trans; [exact Hc|].
  destruct (hasAbstractionDifference SGF _ rep _).
  - destruct (getSILFunctionLanguage SGF rep).
    + unfold emitOrigToSubstValueM, bind, emit, ret in H. simpl in H.
      destruct (isInContext _); inv H; simpl; copy_free.
    + unfold emitBridgedToNativeValueM, bind, emit, ret in H. simpl in H.
      inv H. simpl. copy_free.
  - inv H. apply CopyFree_refl.
Qed.

Lemma CopyFree_finishRValueElts SGF eltPlans :
  Forall (fun p => isRValuePlan p = true ->
                   forall ty st rv st',
                     finish SGF p ty st = Done (rv, st') -> CopyFree st st')
         eltPlans ->
  forallb isRValuePlan eltPlans = true ->
  forall eltTypes tupleRV st rv st',
    finishRValueElts (finish SGF) eltPlans eltTypes tupleRV st
    = Done (rv, st') ->
    CopyFree st st'.
Proof.
  induction 1 as [|p ps Hp _ IH]; intros Hall eltTypes tupleRV st rv st' H.
  - simpl in H. inv H. apply CopyFree_refl.
  - simpl in Hall. apply andb_prop in Hall. destruct Hall as [Hr Hall].
    destruct eltTypes as [|t ts]; simpl in H.
    + inv H. apply CopyFree_refl.
    + apply bind_inv in H. destruct H as (eltRV & st1 & He & H).
      eapply CopyFree_trans; [eapply Hp; eauto|]. eapply IH; eauto.
Qed.

Lemma CopyFree_finish SGF plan :
  isRValuePlan plan = true ->
  forall ty st rv st',
    finish SGF plan ty st = Done (rv, st') -> CopyFree st st'.
Proof.
  induction plan using ResultPlan_nested_ind; intros Hr ty st rv st' Hfin;
    try discriminate Hr.
  - destruct init; [discriminate|]. simpl in Hfin.
    eapply CopyFree_finishScalar; eauto.
  - simpl in Hfin, Hr.
    apply bind_inv in Hfin. destruct Hfin as (tys & st1 & Hc & Hfin).
    apply orAbort_inv in Hc. destruct Hc as [_ ->].
    apply bind_inv in Hfin. destruct Hfin as ([] & st2 & Ha & Hfin).
    apply assertM_inv in Ha. destruct Ha as [_ ->].
    eapply CopyFree_finishRValueElts; eauto.
Qed.

Lemma rvalue_plan_finishes plan :
  isRValuePlan plan = true ->
  planFinishes plan
  = map (fun t => initId (asInitialization t)) (planTemporaries plan).
Proof.
  induction plan using ResultPlan_nested_ind; intros Hr; simpl in *;
    try discriminate.
  - destruct init; [discriminate|]. destruct temporary; reflexivity.
  - rewrite forallb_forall in Hr. rewrite Forall_forall in H.
    induction eltPlans as [|p ps IH]; [reflexivity|].
    simpl. rewrite map_app. f_equal.
    + apply H; [left; reflexivity|]. apply Hr. left. reflexivity.
    + apply IH; intros; [apply H | apply Hr]; try right; assumption.
Qed.

(** X11: the finish of a plan built without a destination never copies a
    value into an initialization, and the only initializations it
    finishes are the temporaries the plan holds, each once and in the
    order in which the builder emitted them. *)
Theorem finish_of_plan_without_destination :
  forall SGF rep fuel origType substType st plan st' finishType fs rv fs',
    build SGF rep fuel None origType substType st = Done (plan, st') ->
    finish SGF plan finishType fs = Done (rv, fs') ->
    exists events,
      emitted fs' = emitted fs ++ events /\
      copiedInits events = [] /\
      finishedInits events
      = map (fun t => initId (asInitialization t)) (planTemporaries plan).
Proof.
  intros SGF rep fuel origType substType st plan st' finishType fs rv fs'
         Hbuild Hfin.
  apply build_spec in Hbuild. destruct Hbuild as (_ & _ & Hr).
  destruct (CopyFree_finish SGF plan Hr _ _ Hfin) as (events & He & Hc).
  exists events. split; [exact He|]. split; [exact Hc|].
  apply finish_spec in Hfin.
  destruct Hfin as [(taken & events' & _ & _ & He' & _ & Hf) _].
  rewrite He in He'. apply app_inv_head in He'. subst events'.
  rewrite Hf. apply rvalue_plan_finishes. exact Hr.
Qed.

Lemma finish_of_plan_without_destination_witness :
  exists events,
    [EvFinishInitialization 500;
     EvLoad (Examples.value 500 1);
     EvClaimDirectResult (OpaquePattern 2) (Examples.value 42 2)]
    = [] ++ events /\
    copiedInits events = [] /\
    finishedInits events
    = map (fun t => initId (asInitialization t))
          (planTemporaries
             (TupleRValueResultPlan
                [ScalarResultPlan
                   (Some (Examples.exTemporary 0 (mkTypeLowering 1 false)))
                   (OpaquePattern 1) None 0;
                 ScalarResultPlan None (OpaquePattern 2) None 0])).
Proof.
  apply (@finish_of_plan_without_destination Examples.exSGF 0 3
           Examples.pairPattern (Examples.pairType 1 2)
           (mkBuilderState
              [Examples.indirectResult 1; Examples.directResult 2] [] [])
           _
           (mkBuilderState [] [mkSILValue 500 1]
              [Examples.exTemporary 0 (mkTypeLowering 1 false)])
           (Examples.pairType 1 2)
           (mkFinishState [Examples.value 42 2] [])
           (mkRValue [Examples.value 1200 1; Examples.value 42 2]
                     (Some (Examples.pairType 1 2)) false)
           (mkFinishState []
              [EvFinishInitialization 500;
               EvLoad (Examples.value 500 1);
               EvClaimDirectResult (OpaquePattern 2)
                                   (Examples.value 42 2)]));
    reflexivity.
Defined.

(** ** Build depends only on the descriptors it takes *)

Lemma BuildFramed_ret {A : Type} (a : A) st : BuildFramed (ret a) st a st.
Proof.
  exists [], []. simpl. rewrite app_nil_r. repeat split.
  intros more addrs. rewrite app_nil_r. reflexivity.
Qed.

Lemma BuildFramed_bind {A B : Type} (m : Builder A) (k : A -> Builder B)
      st a st1 b st2 :
  BuildFramed m st a st1 ->
  BuildFramed (k a) st1 b st2 ->
  BuildFramed (bind m k) st b st2.
Proof.
  intros (d1 & n1 & Hd1 & Hn1 & H1) (d2 & n2 & Hd2 & Hn2 & H2).
  exists (d1 ++ d2), (n1 ++ n2). repeat split.
  - rewrite Hd1, Hd2, app_assoc. reflexivity.
  - rewrite Hn2, Hn1, app_assoc. reflexivity.
  - intros more addrs. unfold bind.
    rewrite <- app_assoc, H1. simpl. rewrite H2, app_assoc. reflexivity.
Qed.

Lemma BuildFramed_orAbort {A : Type} d (o : option A) st a st' :
  orAbort d o st = Done (a, st') -> BuildFramed (orAbort d o) st a st'.
Proof.
  intros H. pose proof (orAbort_inv _ _ _ H) as [-> ->].
  apply (BuildFramed_ret a).
Qed.

Lemma BuildFramed_buildLeaf SGF rep init origType st plan st' :
  buildLeaf SGF rep init origType st = Done (plan, st') ->
  BuildFramed (buildLeaf SGF rep init origType) st plan st'.
Proof.
  intros H. destruct st as [[|result rest] addrs temps]; [discriminate|].
  destruct (takesFastPath SGF rep init result) eqn:Hfast.
  - pose proof Hfast as Hfast'. unfold takesFastPath in Hfast'.
    destruct init as [i|]; [|discriminate].
    destruct (getAddressForInPlaceInitialization i) as [a|] eqn:Ha;
      [|discriminate].
    rewrite (buildLeaf_fast SGF rep origType result rest addrs temps
               eq_refl Ha Hfast) in H.
    inv H. exists [result], [a]. simpl. repeat split.
    intros more addrs0.
    apply (buildLeaf_fast SGF rep origType result more addrs0 temps
             eq_refl Ha Hfast).
  - rewrite buildLeaf_slow, buildScalar_eq in H by assumption.
    destruct (isSILIndirect result) eqn:Hi; simpl in H; inv H.
    + eexists [result], [_]. simpl. repeat split.
      intros more addrs0.
      rewrite buildLeaf_slow, buildScalar_eq by assumption.
      rewrite Hi. reflexivity.
    + exists [result], []. simpl. rewrite app_nil_r. repeat split.
      intros more addrs0.
      rewrite buildLeaf_slow, buildScalar_eq by assumption.
      rewrite Hi, app_nil_r. reflexivity.
Qed.

Lemma BuildFramed_forEachElement
      (body : nat -> CanType -> Builder ResultPlan) :
  (forall i t st p st',
      body i t st = Done (p, st') -> BuildFramed (body i t) st p st') ->
  forall ts i st plans st',
    forEachElement body i ts st = Done (plans, st') ->
    BuildFramed (forEachElement body i ts) st plans st'.
Proof.
  intros Hbody. induction ts as [|t ts IH]; intros i st plans st' H.
  - simpl in *. inv H. apply BuildFramed_ret.
  - simpl in *.
    apply bind_inv in H. destruct H as (p & st1 & Hp & H).
    apply (@BuildFramed_bind _ _ _ _ _ p st1); [apply Hbody; exact Hp|].
    apply bind_inv in H. destruct H as (rest & st2 & Hrest & H).
    apply (@BuildFramed_bind _ _ _ _ _ rest st2); [apply IH; exact Hrest|].
    inv H. apply BuildFramed_ret.
Qed.

Lemma BuildFramed_emitTemporaryM SGF TL st t st' :
  emitTemporaryM SGF TL st = Done (t, st') ->
  BuildFramed (emitTemporaryM SGF TL) st t st'.
Proof.
  unfold emitTemporaryM. intros H. inv H.
  exists [], []. simpl. rewrite app_nil_r. repeat split.
  intros more addrs. rewrite app_nil_r. reflexivity.
Qed.

Lemma BuildFramed_build SGF rep fuel :
  (forall init o s st plan st',
      build SGF rep fuel init o s st = Done (plan, st') ->
      BuildFramed (build SGF rep fuel init o s) st plan st')
  /\
  (forall init o ss st plan st',
      buildForTuple SGF rep fuel init o ss st = Done (plan, st') ->
      BuildFramed (buildForTuple SGF rep fuel init o ss) st plan st').
Proof.
  induction fuel as [|fuel [IHb IHt]]; [split; intros; discriminate|].
  split.
  - intros init o s st plan st' H. simpl in *.
    destruct (isTuple o).
    + apply bind_inv in H. destruct H as (ss & st1 & Hc & H).
      apply (@BuildFramed_bind _ _ _ _ _ ss st1);
        [apply BuildFramed_orAbort; exact Hc|].
      apply IHt. exact H.
    + apply BuildFramed_buildLeaf. exact H.
  - intros init o ss st plan st' H. simpl in *.
    destruct init as [tupleInit|].
    + destruct (canSplitIntoTupleElements tupleInit).
      * apply bind_inv in H. destruct H as (plans & st1 & Hloop & H).
        apply (@BuildFramed_bind _ _ _ _ _ plans st1).
        -- apply BuildFramed_forEachElement; [|exact Hloop].
           intros i t s0 p s1 Hb. cbv beta in *.
           apply bind_inv in Hb. destruct Hb as (oe & s2 & Ho & Hb).
           apply (@BuildFramed_bind _ _ _ _ _ oe s2);
             [apply BuildFramed_orAbort; exact Ho|].
           apply bind_inv in Hb. destruct Hb as (e & s3 & He & Hb).
           apply (@BuildFramed_bind _ _ _ _ _ e s3);
             [apply BuildFramed_orAbort; exact He|].
           apply IHb. exact Hb.
        -- inv H. apply BuildFramed_ret.
      * destruct (isAddressOnly (getTypeLowering SGF (TupleType ss))).
        -- apply bind_inv in H. destruct H as (t & st1 & Ht & H).
           apply (@BuildFramed_bind _ _ _ _ _ t st1);
             [apply BuildFramed_emitTemporaryM; exact Ht|].
           apply bind_inv in H. destruct H as (sub & st2 & Hsub & H).
           apply (@BuildFramed_bind _ _ _ _ _ sub st2);
             [apply IHt; exact Hsub|].
           inv H. apply BuildFramed_ret.
        -- apply bind_inv in H. destruct H as (sub & st2 & Hsub & H).
           apply (@BuildFramed_bind _ _ _ _ _ sub st2);
             [apply IHt; exact Hsub|].
           inv H. apply BuildFramed_ret.
    + apply bind_inv in H. destruct H as (plans & st1 & Hloop & H).
      apply (@BuildFramed_bind _ _ _ _ _ plans st1).
      * apply BuildFramed_forEachElement; [|exact Hloop].
        intros i t s0 p s1 Hb. cbv beta in *.
        apply bind_inv in Hb. destruct Hb as (oe & s2 & Ho & Hb).
        apply (@BuildFramed_bind _ _ _ _ _ oe s2);
          [apply BuildFramed_orAbort; exact Ho|].
        apply IHb. exact Hb.
      * inv H. apply BuildFramed_ret.
Qed.

(** X12: a build that returns has taken a prefix of the descriptor queue
    and appended to the indirect-result addresses, and it depends on
    nothing else of the queue and the addresses: on any queue that starts
    with the descriptors it took, and after any addresses, the same build
    returns the same plan, leaves what follows these descriptors and
    appends the same addresses. *)
Theorem build_frame :
  forall SGF rep fuel init origType substType st plan st',
    build SGF rep fuel init origType substType st = Done (plan, st') ->
    exists descs new,
      allResults st = descs ++ allResults st' /\
      indirectResultAddrs st' = indirectResultAddrs st ++ new /\
      forall more addrs,
        build SGF rep fuel init origType substType
              (mkBuilderState (descs ++ more) addrs (temporaries st))
        = Done (plan,
                mkBuilderState more (addrs ++ new) (temporaries st')).
Proof.
  intros SGF rep fuel init origType substType st plan st' H.
  apply (proj1 (BuildFramed_build SGF rep fuel)) in H. exact H.
Qed.

Lemma build_frame_witness :
  exists descs new,
    [Examples.indirectResult 8; Examples.directResult 9]
    = descs ++ [Examples.directResult 9] /\
    [mkSILValue 500 8] = [] ++ new /\
    forall more addrs,
      build Examples.exSGF 0 1 (Some (Examples.dest 1 7)) (OpaquePattern 7)
            (NominalType 8) (mkBuilderState (descs ++ more) addrs [])
      = Done (ScalarResultPlan
                (Some (Examples.exTemporary 0 (mkTypeLowering 8 false)))
                (OpaquePattern 7) (Some (Examples.dest 1 7)) 0,
              mkBuilderState more (addrs ++ new)
                [Examples.exTemporary 0 (mkTypeLowering 8 false)]).
Proof.
  apply (@build_frame Examples.exSGF 0 1 (Some (Examples.dest 1 7))
           (OpaquePattern 7) (NominalType 8)
           (mkBuilderState
              [Examples.indirectResult 8; Examples.directResult 9] [] [])
           _
           (mkBuilderState [Examples.directResult 9] [mkSILValue 500 8]
              [Examples.exTemporary 0 (mkTypeLowering 8 false)])).
  reflexivity.
Defined.

(** ** When finish of a built plan returns *)

(** X13: for a plan that build returned, whatever the call, finish
    against the substituted type of the build returns exactly when the
    cursor holds at least one direct result for each direct descriptor
    the build took. *)
Theorem built_plan_finish_returns_iff :
  forall SGF rep fuel init origType substType st plan st' descs fs,
    build SGF rep fuel init origType substType st = Done (plan, st') ->
    allResults st = descs ++ allResults st' ->
    (exists rv fs', finish SGF plan substType fs = Done (rv, fs')) <->
    length (directDescriptors descs) <= length (directResults fs).
Proof.
  intros SGF rep fuel init origType substType st plan st' descs fs
         Hbuild Hdescs.
  apply build_spec in Hbuild.
  destruct Hbuild as ((descs0 & Hq & Hl & _ & Hleaves) & Hfits & _).
  rewrite Hq in Hdescs. apply app_inv_tail in Hdescs. subst descs0.
  assert (Hcount : length (directOrigs plan)
                   = length (directDescriptors descs)).
  { unfold directOrigs. rewrite (leafFor_directOrigs Hleaves).
    apply (directLeaves_length (map fst (flattenAlong origType substType))
                               descs).
    congruence. }
  rewrite <- Hcount. split.
  - intros (rv & fs' & Hfin). apply finish_spec in Hfin.
    destruct Hfin as [Hstep _]. apply FinishStep_remaining in Hstep. lia.
  - intros Hlen. apply finish_total; assumption.
Qed.

Lemma built_plan_finish_returns_iff_witness :
  (exists rv fs',
      finish Examples.exSGF
             (TupleRValueResultPlan
                [ScalarResultPlan None (OpaquePattern 1) None 0;
                 ScalarResultPlan None (OpaquePattern 2) None 0])
             (Examples.pairType 1 2)
             (mkFinishState [Examples.value 41 1] [])
      = Done (rv, fs')) <->
  length (directDescriptors
            [Examples.directResult 1; Examples.directResult 2])
  <= length (directResults (mkFinishState [Examples.value 41 1] [])).
Proof.
  apply (@built_plan_finish_returns_iff Examples.exSGF 0 3 None
           Examples.pairPattern (Examples.pairType 1 2)
           (mkBuilderState
              [Examples.directResult 1; Examples.directResult 2] [] [])
           _ (mkBuilderState [] [] [])); reflexivity.
Defined.

(** ** A destination that is split needs an element for each element *)

(** X14: a build on a tuple pattern with a destination that can be split
    returns only if the split has an element initialization for each
    element of the substituted tuple; the plan is then a
    TupleInitialization that holds the destination, all the element
    initializations of the split and one element plan for each element
    of the type. *)
Theorem build_split_destination :
  forall SGF rep fuel tupleInit origElts substElts st plan st',
    canSplitIntoTupleElements tupleInit = true ->
    build SGF rep fuel (Some tupleInit) (TuplePattern origElts)
          (TupleType substElts) st = Done (plan, st') ->
    length substElts <= length (splitIntoTupleElements tupleInit) /\
    exists eltPlans,
      plan = TupleInitializationResultPlan
               tupleInit (splitIntoTupleElements tupleInit) eltPlans /\
      length eltPlans = length substElts.
Proof.
  intros SGF rep [|[|fuel]] tupleInit origElts substElts st plan st'
         Hsplit H; try discriminate.
  rewrite build_tuple_eq in H. simpl in H. rewrite Hsplit in H.
  apply bind_inv in H. destruct H as (plans & st1 & Hloop & H). inv H.
  split.
  - apply loop_bound. intros k Hk.
    eapply (@forEachElement_indices _ _ _
              (fun i => i < length (splitIntoTupleElements tupleInit)));
      [|exact Hloop|exact Hk].
    intros i t s0 [p s2] Hb. cbv beta in Hb. apply bind_inv in Hb.
    destruct Hb as (o & s1 & _ & Hb).
    apply bind_inv in Hb. destruct Hb as (e & s3 & He & _).
    apply orAbort_inv in He. destruct He as [He _].
    eapply nth_error_bound; eauto.
  - exists plans. split; [reflexivity|].
    eapply forEachElement_length; eauto.
Qed.

Lemma build_split_destination_witness :
  length [NominalType 1; NominalType 2]
  <= length (splitIntoTupleElements Examples.splittable) /\
  exists eltPlans,
    TupleInitializationResultPlan Examples.splittable
      [Examples.dest 2 1; Examples.dest 3 2]
      [InPlaceInitializationResultPlan (Examples.dest 2 1);
       ScalarResultPlan None (OpaquePattern 2) (Some (Examples.dest 3 2)) 0]
    = TupleInitializationResultPlan Examples.splittable
        (splitIntoTupleElements Examples.splittable) eltPlans /\
    length eltPlans = length [NominalType 1; NominalType 2].
Proof.
  apply (@build_split_destination Examples.exSGF 0 4 Examples.splittable
           [OpaquePattern 1; OpaquePattern 2]
           [NominalType 1; NominalType 2]
           (mkBuilderState
              [Examples.indirectResult 1; Examples.directResult 2] [] [])
           _ (mkBuilderState [] [mkSILValue 2 1] [])); reflexivity.
Defined.

(** * Exactly-once deposit *)

(** ** The initializations of a built plan are pairwise distinct *)













(** ** Each leaf without destination delivers one value *)








Lemma SingleValued_none g st st' :
  SingleValued g st st' -> g = [] -> SingleValued [] st st'.
Proof. intros H ->. exact H. Qed.










(** ** Each leaf deposits or delivers exactly once *)





